(** * schism: boundary-condition grouping and modified-stencil skins

    A shallow embedding of [schism/conditions/boundary_conditions.py] and
    [schism/geometry/skin.py], with the properties of the grouping of
    boundary conditions, of the stencil footprint and of the skin of
    modified points. *)

From Stdlib Require Import ZArith Lia.
From stdpp Require Import base decidable option relations sets gmap strings countable sorting.
From stdpp Require Import list.

Local Open Scope Z_scope.

(* [set_solver] clears hypotheses it has already consumed. *)
#[local] Set Warnings "-clear-no-such-hyp".

(** ** Python exceptions and fallible computations *)

Inductive PyError :=
| NotImplementedError (msg : string)
| IndexError
| TypeError
| ValueError
| AttributeError
| OutOfFuel.

Inductive Result (A : Type) :=
| Ok (a : A)
| Err (e : PyError).
Arguments Ok {A} a.
Arguments Err {A} e.

#[global] Instance Result_ret : MRet Result := fun _ a => Ok a.
#[global] Instance Result_bind : MBind Result := fun _ _ f r =>
  match r with
  | Ok a => f a
  | Err e => Err e
  end.

(** [t[i]] on a tuple. *)
Definition tuple_getitem {A} (t : list A) (i : nat) : Result A :=
  match t !! i with
  | Some x => Ok x
  | None => Err IndexError
  end.

(** ** The Devito objects the code queries *)

Definition Dimension := string.

(** A Devito [Function]: its name, whether it is a [TimeFunction], its
    space order and the dimensions of its grid. *)
Record Function := mkFunction {
  name : string;
  is_TimeDependent : bool;
  space_order : Z;
  space_dimensions : list Dimension
}.

#[global] Instance Function_eq_dec : EqDecision Function.
Proof. solve_decision. Defined.

#[global] Instance Function_countable : Countable Function.
Proof.
  refine (inj_countable'
    (fun f => (name f, is_TimeDependent f, space_order f, space_dimensions f))
    (fun t => match t with (n, b, o, d) => mkFunction n b o d end) _).
  intros []; reflexivity.
Defined.

(** Symbolic expressions: constants, other symbols, references to
    Functions, derivatives of an expression along dimensions, sums and products. *)
Inductive Expr :=
| Const (z : Z)
| Symbol (s : string)
| Func (f : Function)
| Derivative (expr : Expr) (dims : list Dimension)
| Add (a b : Expr)
| Mul (a b : Expr).

#[global] Instance Expr_eq_dec : EqDecision Expr.
Proof. solve_decision. Defined.

(** A scalar equation [Eq(lhs, rhs)]. *)
Record DvEq := mkEq { lhs : Expr; rhs : Expr }.

#[global] Instance DvEq_eq_dec : EqDecision DvEq.
Proof. solve_decision. Defined.

(** [retrieve_functions(expr)]: every occurrence of a Function in the
    expression, term by term (duplicates included). *)
Fixpoint retrieve_functions (e : Expr) : list Function :=
  match e with
  | Const _ | Symbol _ => []
  | Func f => [f]
  | Derivative e' _ => retrieve_functions e'
  | Add a b | Mul a b => retrieve_functions a ++ retrieve_functions b
  end.

(** Every [Derivative] node of the expression, as (expr, dims). *)
Fixpoint derivative_nodes (e : Expr) : list (Expr * list Dimension) :=
  match e with
  | Const _ | Symbol _ | Func _ => []
  | Derivative e' ds => (e', ds) :: derivative_nodes e'
  | Add a b | Mul a b => derivative_nodes a ++ derivative_nodes b
  end.

(** [expr.find(dv.Derivative)]: the set of the Derivative nodes. *)
Definition find_Derivative (e : Expr) : list (Expr * list Dimension) :=
  remove_dups (derivative_nodes e).

(** ** boundary_conditions.py: BoundaryCondition *)

Record BoundaryCondition := mkBoundaryCondition {
  bc_eq : DvEq;                          (* _eq *)
  bc_funcs : list Function;              (* _funcs, a tuple made from a set *)
  bc_dims : option (list Dimension)      (* _dims, None or a tuple made from a set *)
}.

Definition _parse_rhs (eq : DvEq) : Result unit :=
  if decide (rhs eq ≠ Const 0)
  then Err (NotImplementedError "Nonzero RHS currently unsupported")
  else Ok tt.

(** [tuple(set(...))]: the distinct elements, here in order of first
    occurrence (Python leaves the order of a set unspecified). *)
Definition _get_functions (eq : DvEq) (funcs : option (list Function)) : list Function :=
  match funcs with
  | None =>
      remove_dups (filter (fun func => is_TimeDependent func = true)
                          (retrieve_functions (lhs eq)))
  | Some funcs =>
      filter (fun func => func ∈ funcs) (remove_dups (retrieve_functions (lhs eq)))
  end.

(** The loop over the derivatives of the left-hand side; [dims] is the set
    built so far. *)
Fixpoint derivative_loop (funcs : list Function)
    (derivs : list (Expr * list Dimension)) (dims : list Dimension)
  : Result (list Dimension) :=
  match derivs with
  | [] => Ok dims
  | (Func f, ddims) :: rest =>
      if decide (f ∈ funcs)
      then derivative_loop funcs rest (remove_dups (dims ++ ddims))
      else Err (NotImplementedError "Derivatives of coefficent functions unsupported")
  | _ :: _ =>
      Err (NotImplementedError "Derivatives of non-Function expressions unsupported")
  end.

Definition _get_derivative_dimensions (eq : DvEq) (funcs : list Function)
  : Result (option (list Dimension)) :=
  dims ← derivative_loop funcs (find_Derivative (lhs eq)) [];
  Ok (if decide (length dims = 0%nat) then None else Some dims).

(** [BoundaryCondition(eq, funcs)]. *)
Definition BoundaryCondition_init (eq : DvEq) (funcs : option (list Function))
  : Result BoundaryCondition :=
  _ ← _parse_rhs eq;
  let fs := _get_functions eq funcs in
  dims ← _get_derivative_dimensions eq fs;
  Ok (mkBoundaryCondition eq fs dims).

(** ** boundary_conditions.py: ConditionGroup *)

Record ConditionGroup := mkConditionGroup {
  cg_conds : list BoundaryCondition;     (* _conds *)
  cg_funcs : list Function               (* _funcs, tuple(group) *)
}.

(** ** networkx: Graph, add_nodes_from, add_edges_from, connected_components *)

Section networkx.
Context {N : Type} `{Countable N}.

(** [g_node]: the keys of [G._node] in insertion order; [g_adj]: for
    each node the keys of [G._adj[node]]. *)
Record Graph := mkGraph { g_node : list N; g_adj : gmap N (gset N) }.

Definition empty_graph : Graph := mkGraph [] ∅.

Definition add_node (G : Graph) (n : N) : Graph :=
  if decide (n ∈ g_node G) then G
  else mkGraph (g_node G ++ [n]) (<[n := ∅]> (g_adj G)).

Definition add_nodes_from (G : Graph) (ns : list N) : Graph :=
  foldl add_node G ns.

Definition add_edge (G : Graph) (e : N * N) : Graph :=
  let '(u, v) := e in
  let G' := add_node (add_node G u) v in
  mkGraph (g_node G')
          (alter (fun a => {[u]} ∪ a) v (alter (fun a => {[v]} ∪ a) u (g_adj G'))).

Definition add_edges_from (G : Graph) (es : list (N * N)) : Graph :=
  foldl add_edge G es.

Definition neighbors (G : Graph) (v : N) : gset N :=
  default ∅ (g_adj G !! v).

(** One pass of [for v in thislevel] in [_plain_bfs]; the state is
    (seen, nextlevel). *)
Definition bfs_visit (G : Graph) (v : N) (st : gset N * gset N) : gset N * gset N :=
  if decide (v ∈ st.1) then st
  else ({[v]} ∪ st.1, st.2 ∪ neighbors G v).

(** Two nodes are adjacent when one is a key of the adjacency of the
    other. *)
Definition adjacent (G : Graph) (u v : N) : Prop := v ∈ neighbors G u.

(** Every node has an adjacency, no node is listed twice, adjacency is
    symmetric and leads to nodes only. *)
Definition wf_graph (G : Graph) : Prop :=
  NoDup (g_node G)
  ∧ (∀ u, u ∈ g_node G ↔ is_Some (g_adj G !! u))
  ∧ (∀ u v, adjacent G u v → adjacent G v u)
  ∧ (∀ u v, adjacent G u v → v ∈ g_node G).

(** The loop [while nextlevel] of [_plain_bfs]; [None] when the fuel
    runs out before the loop ends. *)
Fixpoint bfs_loop (fuel : nat) (G : Graph) (seen nextlevel : gset N) : option (gset N) :=
  if decide (nextlevel = ∅) then Some seen
  else match fuel with
       | O => None
       | S fuel' =>
           let st := foldl (fun st v => bfs_visit G v st) (seen, ∅)
                           (elements nextlevel) in
           bfs_loop fuel' G st.1 st.2
       end.

Definition _plain_bfs (G : Graph) (source : N) : option (gset N) :=
  bfs_loop (S (S (length (g_node G)))) G ∅ {[source]}.

(** [connected_components(G)]: the loop [for v in G] with its [seen]
    set; the components are collected in the order they are yielded. *)
Fixpoint components_loop (G : Graph) (vs : list N) (seen : gset N)
  : option (list (gset N)) :=
  match vs with
  | [] => Some []
  | v :: vs' =>
      if decide (v ∈ seen) then components_loop G vs' seen
      else
        c ← _plain_bfs G v;
        cs ← components_loop G vs' (seen ∪ c);
        Some (c :: cs)
  end.

Definition connected_components (G : Graph) : option (list (gset N)) :=
  components_loop G (g_node G) ∅.
End networkx.

Arguments Graph N {_ _}.

(** ** boundary_conditions.py: BoundaryConditions *)

(** A member of the [funcs] argument: a scalar Function, or a vector or
    tensor function with its [flat()] components. *)
Inductive FunctionArg :=
| ScalarFunction (f : Function)
| TensorFunction (flat : list Function).

(** A member of the [eqs] argument with what its [_flatten] gives: a
    scalar equation gives itself; a vector or tensor equation gives its
    components, or raises KeyError ([None]) when the sizes of its sides
    differ. *)
Inductive EquationArg :=
| ScalarEq (e : DvEq)
| TensorEq (lhs_ rhs_ : Expr) (flat : option (list DvEq)).

Definition _flatten (eq : EquationArg) : option (list DvEq) :=
  match eq with
  | ScalarEq e => Some [e]
  | TensorEq _ _ flat => flat
  end.

Record BoundaryConditions := mkBoundaryConditions {
  bcs_funcs : option (list Function);    (* _funcs *)
  bcs_eqs : list DvEq;                   (* _eqs *)
  bcs_bcs : list BoundaryCondition       (* _bcs *)
}.

Definition _flatten_functions (funcs : option (list FunctionArg)) : option (list Function) :=
  match funcs with
  | None => None
  | Some funcs =>
      Some (remove_dups (flat_map (fun func =>
                           match func with
                           | TensorFunction flat => flat
                           | ScalarFunction f => [f]
                           end) funcs))
  end.

Fixpoint flatten_loop (eqs : list EquationArg) (eq_list : list DvEq) : Result (list DvEq) :=
  match eqs with
  | [] => Ok eq_list
  | eq :: rest =>
      match _flatten eq with
      | Some flat => flatten_loop rest (eq_list ++ flat)
      | None => Err TypeError
      end
  end.

Definition _flatten_equations (eqs : list EquationArg) : Result (list DvEq) :=
  eq_list ← flatten_loop eqs [];
  Ok (remove_dups eq_list).

Definition _setup_bcs (funcs : option (list Function)) (equations : list DvEq)
  : Result (list BoundaryCondition) :=
  mapM (fun eq => BoundaryCondition_init eq funcs) equations.

(** [[(bc.funcs[0], func) for func in bc.funcs[1:]]]: the first field is
    read once per member of the tail. *)
Definition star_edges (funcs : list Function) : Result (list (Function * Function)) :=
  mapM (fun func => f0 ← tuple_getitem funcs 0; Ok (f0, func)) (drop 1 funcs).

(** The first loop of [_group_bcs], which builds [f_graph]. *)
Fixpoint graph_loop (bcs : list BoundaryCondition) (f_graph : Graph Function)
  : Result (Graph Function) :=
  match bcs with
  | [] => Ok f_graph
  | bc :: rest =>
      let f_graph := add_nodes_from f_graph (bc_funcs bc) in
      edges ← star_edges (bc_funcs bc);
      graph_loop rest (add_edges_from f_graph edges)
  end.

(** [[bc for bc in self.bcs if bc.funcs[0] in group]]. *)
Fixpoint group_conditions (bcs : list BoundaryCondition) (group : list Function)
  : Result (list BoundaryCondition) :=
  match bcs with
  | [] => Ok []
  | bc :: rest =>
      f0 ← tuple_getitem (bc_funcs bc) 0;
      conditions ← group_conditions rest group;
      Ok (if decide (f0 ∈ group) then bc :: conditions else conditions)
  end.

(** The second loop of [_group_bcs]; the state is (bc_groups, f_map). *)
Fixpoint groups_loop (bcs : list BoundaryCondition) (f_groups : list (list Function))
    (st : list ConditionGroup * gmap Function ConditionGroup)
  : Result (list ConditionGroup * gmap Function ConditionGroup) :=
  match f_groups with
  | [] => Ok st
  | group :: rest =>
      conditions ← group_conditions bcs group;
      let new_group := mkConditionGroup conditions group in
      groups_loop bcs rest
        (st.1 ++ [new_group],
         foldl (fun f_map func => <[func := new_group]> f_map) st.2 group)
  end.

(** The values of the locals [bc_groups] and [f_map] of [_group_bcs] when
    it reaches its last statement. [tuple(group)] lists a component in
    the order of the set, here that of [elements]. The fuel of the
    component search cannot run out on a graph built by [graph_loop]
    (lemma [group_bcs_locals_fuel]); [OutOfFuel] stands for that
    outcome. *)
Definition group_bcs_locals (bcs : list BoundaryCondition)
  : Result (list ConditionGroup * gmap Function ConditionGroup) :=
  f_graph ← graph_loop bcs empty_graph;
  match connected_components f_graph with
  | None => Err OutOfFuel
  | Some comps =>
      let f_groups := map elements comps in
      groups_loop bcs f_groups ([], ∅)
  end.

(** What [print] writes: here the dictionary itself. *)
Definition Stdout := list (gmap Function ConditionGroup).

(** [_group_bcs]: nothing is assigned to [self]; [f_map] is printed. *)
Definition _group_bcs (self : BoundaryConditions) : Result (BoundaryConditions * Stdout) :=
  '(bc_groups, f_map) ← group_bcs_locals (bcs_bcs self);
  Ok (self, [f_map]).

(** [BoundaryConditions(eqs, funcs)]. *)
Definition BoundaryConditions_init (eqs : list EquationArg) (funcs : option (list FunctionArg))
  : Result (BoundaryConditions * Stdout) :=
  let _funcs := _flatten_functions funcs in
  _eqs ← _flatten_equations eqs;
  _bcs ← _setup_bcs _funcs _eqs;
  _group_bcs (mkBoundaryConditions _funcs _eqs _bcs).

(** The attributes and properties of a BoundaryConditions object. *)
Inductive PyValue :=
| VEquations (eqs : list DvEq)
| VConditions (bcs : list BoundaryCondition)
| VFunctions (funcs : option (list Function)).

Definition BoundaryConditions_getattr (self : BoundaryConditions) (attr : string)
  : Result PyValue :=
  if decide (attr = "equations" ∨ attr = "_eqs") then Ok (VEquations (bcs_eqs self))
  else if decide (attr = "bcs" ∨ attr = "_bcs") then Ok (VConditions (bcs_bcs self))
  else if decide (attr = "funcs" ∨ attr = "_funcs") then Ok (VFunctions (bcs_funcs self))
  else Err AttributeError.

(** ** numpy arrays

    A two-dimensional integer array of shape (D, N) is the list of its D
    rows. *)

Definition Array2 := list (list Z).

(** [np.arange(a, b)] on integers. *)
Definition arange (a b : Z) : list Z :=
  map (fun i => a + Z.of_nat i) (seq 0 (Z.to_nat (b - a))).

(** The columns of an array with [K] columns, and the array of given
    columns of height [D]. *)
Fixpoint columns (K : nat) (rows : Array2) : list (list Z) :=
  match rows with
  | [] => repeat [] K
  | r :: rs => zip_with cons r (columns K rs)
  end.

Fixpoint rows_of (D : nat) (cols : list (list Z)) : Array2 :=
  match D with
  | O => []
  | S D' => map (hd 0) cols :: rows_of D' (map (@tl Z) cols)
  end.

Definition ncols (a : Array2) : nat := length (hd [] a).

(** The points of a (D, N) array of coordinates: its N columns. *)
Definition points (a : Array2) : list (list Z) := columns (ncols a) a.

(** Boolean-mask indexing [a[mask]]. *)
Fixpoint select {A} (mask : list bool) (xs : list A) : list A :=
  match mask, xs with
  | b :: mask', x :: xs' => if b then x :: select mask' xs' else select mask' xs'
  | _, _ => []
  end.

(** All index tuples of a grid in C order (first axis slowest). *)
Fixpoint grid_product (spans : list (list Z)) : list (list Z) :=
  match spans with
  | [] => [[]]
  | s :: rest => flat_map (fun x => map (cons x) (grid_product rest)) s
  end.

(** [np.meshgrid] of the spans with [indexing='xy'], followed by [m.flatten()] of each
    output: with 'xy' indexing the outputs have shape (n1, n0, n2, ...), so
    the flattened position runs over the second span slowest, then the
    first, then the others; output i holds the value of span i there. The
    list below gives, per flattened position, the values of all outputs. *)
Definition meshgrid_xy_flat (spans : list (list Z)) : list (list Z) :=
  match spans with
  | s0 :: s1 :: rest =>
      flat_map (fun y =>
        flat_map (fun x => map (fun t => x :: y :: t) (grid_product rest)) s0) s1
  | _ => grid_product spans
  end.

(** ** skin.py: stencil_footprint *)

(** The per-axis spans built by the loop over [deriv.expr.space_dimensions]. *)
Definition footprint_spans (f : Function) (ddims : list Dimension) : list (list Z) :=
  map (fun dim =>
         if decide (dim ∈ ddims)
         then arange ((- space_order f) `div` 2) (space_order f `div` 2 + 1)
         else [0])
      (space_dimensions f).

(** [stencil_footprint(deriv)]: [deriv.expr] must carry [space_dimensions]
    and [space_order] (AttributeError otherwise); [np.vstack] of an empty
    list raises ValueError. *)
Definition stencil_footprint (d : Expr * list Dimension) : Result Array2 :=
  match d with
  | (Func f, ddims) =>
      let spans := footprint_spans f ddims in
      match spans with
      | [] => Err ValueError
      | _ => Ok (rows_of (length spans) (meshgrid_xy_flat spans))
      end
  | _ => Err AttributeError
  end.

(** ** skin.py: ModifiedSkin *)

(** A boolean array of any rank: its shape and its data in C order. *)
Record NdBool := mkNdBool { nd_shape : list Z; nd_data : list bool }.

(** The geometry as [_get_points] reads it: [boundary_points] (a tuple of
    D index arrays), [grid.shape] and [interior_mask]. *)
Record BoundaryGeometry := mkGeometry {
  boundary_points : Array2;
  grid_shape : list Z;
  interior_mask : NdBool
}.

Definition outer_add (brow frow : list Z) : list Z :=
  flat_map (fun b => map (fun f => b + f) frow) brow.

(** [bp[:, :, np.newaxis] + fp[:, np.newaxis, :]]: shapes (Db, N, 1) and
    (Df, 1, K) broadcast when Db = Df or one of them is 1; the result is
    kept with its last two axes flattened in C order. A [bp] without rows
    is a one-dimensional array, which cannot be indexed with three
    indices. *)
Definition broadcast_add (bp fp : Array2) : Result Array2 :=
  match bp with
  | [] => Err IndexError
  | _ =>
      if decide (length bp = length fp) then Ok (zip_with outer_add bp fp)
      else if decide (length bp = 1%nat) then Ok (map (outer_add (hd [] bp)) fp)
      else if decide (length fp = 1%nat) then Ok (map (fun b => outer_add b (hd [] fp)) bp)
      else Err ValueError
  end.

(** [mp.reshape((bp.shape[0], -1))] of the array above. *)
Definition reshape_rows (Db : nat) (mp : Array2) : Array2 :=
  if decide (Db = length mp) then mp else [concat mp].

(** Lexicographic order on columns, and [np.unique(mp, axis=1)]: the
    distinct columns in increasing lexicographic order. *)
Fixpoint lex_compare (a b : list Z) : comparison :=
  match a, b with
  | [], [] => Eq
  | [], _ :: _ => Lt
  | _ :: _, [] => Gt
  | x :: a', y :: b' =>
      match x ?= y with
      | Eq => lex_compare a' b'
      | c => c
      end
  end.

Fixpoint insert_unique (c : list Z) (sorted : list (list Z)) : list (list Z) :=
  match sorted with
  | [] => [c]
  | s :: rest =>
      match lex_compare c s with
      | Lt => c :: s :: rest
      | Eq => s :: rest
      | Gt => s :: insert_unique c rest
      end
  end.

Definition sort_unique (cols : list (list Z)) : list (list Z) :=
  foldr insert_unique [] cols.

Definition unique_axis1 (mp : Array2) : Array2 :=
  rows_of (length mp) (sort_unique (points mp)).

(** The loop [for dim in range(mp.shape[0])] that trims the points outside
    the domain. *)
Fixpoint trim_loop (shape : list Z) (dims : list nat) (mp : Array2) : Result Array2 :=
  match dims with
  | [] => Ok mp
  | dim :: rest =>
      n ← tuple_getitem shape dim;
      let mask := map (fun v => (0 <=? v) && (v <? n)) (nth dim mp []) in
      trim_loop shape rest (map (select mask) mp)
  end.

(** One item of a boolean array at a full index: negative indices count
    from the end, an index out of range raises IndexError. *)
Fixpoint flat_offset (shape idx : list Z) (acc : Z) : Result Z :=
  match shape, idx with
  | [], [] => Ok acc
  | n :: shape', i :: idx' =>
      let j := if i <? 0 then i + n else i in
      if (0 <=? j) && (j <? n) then flat_offset shape' idx' (acc * n + j)
      else Err IndexError
  | _, _ => Err IndexError
  end.

Definition nd_item (a : NdBool) (idx : list Z) : Result bool :=
  off ← flat_offset (nd_shape a) idx 0;
  tuple_getitem (nd_data a) (Z.to_nat off).

(** [a[all_points]] with a tuple of index arrays, used as a mask on the
    columns afterwards: this needs one index array per axis of [a]. *)
Definition nd_take (a : NdBool) (all_points : Array2) : Result (list bool) :=
  if decide (length all_points = length (nd_shape a))
  then mapM (nd_item a) (points all_points)
  else Err IndexError.

(** [ModifiedSkin._get_points]; the result is [_mod_points]. *)
Definition _get_points (deriv : Expr * list Dimension) (geometry : BoundaryGeometry)
  : Result Array2 :=
  let bp := boundary_points geometry in
  fp ← stencil_footprint deriv;
  mp ← broadcast_add bp fp;
  let mp := reshape_rows (length bp) mp in
  let mp := unique_axis1 mp in
  mp ← trim_loop (grid_shape geometry) (seq 0 (length mp)) mp;
  interior ← nd_take (interior_mask geometry) mp;
  Ok (map (select interior) mp).

(** ** Notions used in the statements *)

(** The star of a condition: an edge from its first field to each of its
    other fields. *)
Definition star_edge (bcs : list BoundaryCondition) (u v : Function) : Prop :=
  ∃ bc tl, bc ∈ bcs ∧ bc_funcs bc = u :: tl ∧ v ∈ tl.

(** The nodes of the field graph: the fields of the conditions. *)
Definition field_node (bcs : list BoundaryCondition) (f : Function) : Prop :=
  ∃ bc, bc ∈ bcs ∧ f ∈ bc_funcs bc.

(** Two fields are connected when a path of star edges, taken in either
    direction, joins them. *)
Definition field_connected (bcs : list BoundaryCondition) : relation Function :=
  rtc (sc (star_edge bcs)).

(** Two fields occur together in a condition. *)
Definition co_occur (bcs : list BoundaryCondition) (u v : Function) : Prop :=
  ∃ bc, bc ∈ bcs ∧ u ∈ bc_funcs bc ∧ v ∈ bc_funcs bc.

(** Two conditions share a field; conditions are connected through shared
    fields when a chain of conditions of the list, each sharing a field
    with the next, joins them. *)
Definition shares_field (b b' : BoundaryCondition) : Prop :=
  ∃ f, f ∈ bc_funcs b ∧ f ∈ bc_funcs b'.

Definition conditions_connected (bcs : list BoundaryCondition)
  : relation BoundaryCondition :=
  rtc (fun b b' => b ∈ bcs ∧ b' ∈ bcs ∧ shares_field b b').

(** The first field of a condition belongs to a group. *)
Definition first_in (group : list Function) (bc : BoundaryCondition) : Prop :=
  match bc_funcs bc with
  | [] => False
  | f0 :: _ => f0 ∈ group
  end.

#[global] Instance first_in_dec group bc : Decision (first_in group bc).
Proof. unfold first_in. destruct (bc_funcs bc); apply _. Defined.

(** The groups as a set of sets of fields. *)
Definition group_field_sets (groups : list ConditionGroup) : gset (gset Function) :=
  list_to_set (map (fun g => list_to_set (cg_funcs g)) groups).

(** The outcome of the grouping, its groups taken as a set of sets of
    fields. *)
Definition result_field_sets
    (r : Result (list ConditionGroup * gmap Function ConditionGroup))
  : Result (gset (gset Function)) :=
  match r with
  | Ok (groups, _) => Ok (group_field_sets groups)
  | Err e => Err e
  end.

(** The same conditions in another order, each with its fields in
    another order. *)
Definition same_fields (b b' : BoundaryCondition) : Prop :=
  bc_eq b = bc_eq b' ∧ bc_funcs b ≡ₚ bc_funcs b' ∧ bc_dims b = bc_dims b'.

Definition reordered (bcs bcs' : list BoundaryCondition) : Prop :=
  ∃ mid, bcs ≡ₚ mid ∧ Forall2 same_fields mid bcs'.

(** The locals of [_group_bcs] at the end of [BoundaryConditions(eqs, funcs)]. *)
Definition BoundaryConditions_groups (eqs : list EquationArg) (funcs : option (list FunctionArg))
  : Result (list ConditionGroup * gmap Function ConditionGroup) :=
  _eqs ← _flatten_equations eqs;
  _bcs ← _setup_bcs (_flatten_functions funcs) _eqs;
  group_bcs_locals _bcs.

(** A derivative the loop accepts: of a bare field of the selected set. *)
Definition supported_node (funcs : list Function) (d : Expr * list Dimension) : Prop :=
  ∃ f, d.1 = Func f ∧ f ∈ funcs.

(** A well-shaped array: [D] rows of [K] entries each. *)
Definition is_array (D K : nat) (a : Array2) : Prop :=
  length a = D ∧ Forall (fun r => length r = K) a.

(** A point within the grid: one index per axis, each in [0, extent). *)
Definition in_grid (shape : list Z) (p : list Z) : Prop :=
  Forall2 (fun i n => 0 ≤ i < n) p shape.

(** A boolean array whose data fill its shape. *)
Definition nd_well_shaped (a : NdBool) : Prop :=
  length (nd_data a) = Z.to_nat (foldr Z.mul 1 (nd_shape a)).

(** The strict lexicographic order of [np.unique]. *)
Definition lex_lt (a b : list Z) : Prop := lex_compare a b = Lt.

(** ** Sample objects *)

(** Three time functions of order 2 on a two-dimensional grid, one of
    order 3, and a coefficient. *)
Definition sample_f : Function := mkFunction "f" true 2 ["x"; "y"]%string.
Definition sample_g : Function := mkFunction "g" true 2 ["x"; "y"]%string.
Definition sample_h : Function := mkFunction "h" true 2 ["x"; "y"]%string.
Definition sample_k : Function := mkFunction "k" true 3 ["x"; "y"]%string.
Definition sample_c : Function := mkFunction "c" false 2 ["x"; "y"]%string.

(** [Eq(f + g.dx, 0)], [Eq(h, 0)] and [Eq(h*g, 0)]. *)
Definition sample_eq1 : DvEq :=
  mkEq (Add (Func sample_f) (Derivative (Func sample_g) ["x"%string])) (Const 0).
Definition sample_eq2 : DvEq := mkEq (Func sample_h) (Const 0).
Definition sample_eq3 : DvEq := mkEq (Mul (Func sample_h) (Func sample_g)) (Const 0).

(** The conditions of the first two equations under the whitelist
    (f, g): the second one selects no field. *)
Definition sample_bc1 : BoundaryCondition :=
  mkBoundaryCondition sample_eq1 [sample_f; sample_g] (Some ["x"%string]).
Definition sample_bc2_empty : BoundaryCondition :=
  mkBoundaryCondition sample_eq2 [] None.

(** The conditions of the three equations without whitelist, and the
    same in another order with the fields of each in another order. *)
Definition sample_bc2 : BoundaryCondition :=
  mkBoundaryCondition sample_eq2 [sample_h] None.
Definition sample_bc3 : BoundaryCondition :=
  mkBoundaryCondition sample_eq3 [sample_h; sample_g] None.
Definition sample_bc1' : BoundaryCondition :=
  mkBoundaryCondition sample_eq1 [sample_g; sample_f] (Some ["x"%string]).
Definition sample_bc3' : BoundaryCondition :=
  mkBoundaryCondition sample_eq3 [sample_g; sample_h] None.

(** A 4 by 4 grid whose last column is outside the domain, with the
    boundary along the third column. *)
Definition sample_mask : NdBool :=
  mkNdBool [4; 4]
    [true; true; true; false; true; true; true; false;
     true; true; true; false; true; true; true; false].
Definition sample_geometry : BoundaryGeometry :=
  mkGeometry [[0; 1; 2; 3]; [2; 2; 2; 2]] [4; 4] sample_mask.

(** The same grid without any boundary point. *)
Definition sample_geometry_empty : BoundaryGeometry :=
  mkGeometry [[]; []] [4; 4] sample_mask.

(** * Properties *)

(** ** Fallible computations *)

Lemma bind_Ok {A B} (r : Result A) (k : A → Result B) (b : B) :
  r ≫= k = Ok b ↔ ∃ a, r = Ok a ∧ k a = Ok b.
Proof.
  destruct r as [a|e]; simpl; split.
  - intros Hk. by exists a.
  - by intros (? & [= <-] & ?).
  - done.
  - by intros (? & ? & _).
Qed.

Lemma mapM_Ok_Forall2 {A B} (f : A → Result B) (l : list A) (k : list B) :
  mapM f l = Ok k ↔ Forall2 (fun a b => f a = Ok b) l k.
Proof.
  revert k. induction l as [|a l IH]; intros k; simpl.
  - split.
    + intros [= <-]. constructor.
    + by inversion 1.
  - split.
    + intros Hm. apply bind_Ok in Hm as (b & Hb & Hm).
      apply bind_Ok in Hm as (k' & Hk' & [= <-]).
      constructor; [done|]. by apply IH.
    + inversion 1 as [|? b ? k' Hb Hk']; subst.
      apply IH in Hk'. unfold mbind at 1; simpl. rewrite Hb. simpl.
      by rewrite Hk'.
Qed.

(** ** arange and the arrays *)

Lemma arange_length a b : length (arange a b) = Z.to_nat (b - a).
Proof. unfold arange. by rewrite length_map, length_seq. Qed.

Lemma arange_elem a b x : x ∈ arange a b ↔ a ≤ x < b.
Proof.
  unfold arange. rewrite list_elem_of_fmap. split.
  - intros (i & -> & Hi). apply elem_of_seq in Hi. lia.
  - intros Hx. exists (Z.to_nat (x - a)). split; [lia|].
    apply elem_of_seq. lia.
Qed.

Lemma arange_split a c b :
  a ≤ c → c ≤ b → arange a b = arange a c ++ arange c b.
Proof.
  intros Hac Hcb. unfold arange.
  replace (Z.to_nat (b - a)) with (Z.to_nat (c - a) + Z.to_nat (b - c))%nat by lia.
  rewrite seq_app, map_app. f_equal.
  replace (0 + Z.to_nat (c - a))%nat with (Z.to_nat (c - a) + 0)%nat by lia.
  rewrite <- fmap_add_seq.
  change (map ?f ?l) with (f <$> l). rewrite <- list_fmap_compose.
  apply list_fmap_ext. intros _ i _. simpl. lia.
Qed.

Lemma arange_one a : arange a (a + 1) = [a].
Proof.
  unfold arange. replace (a + 1 - a) with 1 by lia. simpl. f_equal. lia.
Qed.

Lemma arange_NoDup a b : NoDup (arange a b).
Proof.
  unfold arange.
  assert (Hinj : Inj (=) (=) (fun i : nat => a + Z.of_nat i)) by (intros i j; lia).
  apply (NoDup_fmap_2 _), NoDup_seq.
Qed.

(** A span from [-h1] to [h2]: [h1] negative offsets, zero, [h2] positive
    offsets. *)
Lemma arange_around_zero h1 h2 :
  0 ≤ h1 → 0 ≤ h2 →
  arange (- h1) (h2 + 1) = arange (- h1) 0 ++ 0 :: arange 1 (h2 + 1).
Proof.
  intros H1 H2.
  rewrite (arange_split (- h1) 0 (h2 + 1)) by lia. f_equal.
  rewrite (arange_split 0 1 (h2 + 1)) by lia.
  reflexivity.
Qed.

Lemma zip_with_cons_hd_tl (cols : list (list Z)) :
  Forall (fun c => c ≠ []) cols →
  zip_with cons (map (hd 0) cols) (map (@tl Z) cols) = cols.
Proof.
  induction 1 as [|c cols Hc _ IH]; [done|].
  destruct c; [done|]. simpl. by rewrite IH.
Qed.

Lemma columns_rows_of D (cols : list (list Z)) :
  Forall (fun c => length c = D) cols →
  columns (length cols) (rows_of D cols) = cols.
Proof.
  revert cols. induction D as [|D IH]; intros cols Hall; simpl.
  - induction Hall as [|c cols Hc _ IHc]; [done|].
    simpl. rewrite IHc. by destruct c.
  - rewrite <- (length_map (@tl Z)) at 1. rewrite IH.
    + apply zip_with_cons_hd_tl.
      eapply list.Forall_impl; [exact Hall|]. by intros [|] ?.
    + rewrite list.Forall_forall in Hall. apply list.Forall_forall.
      intros c Hc. apply list_elem_of_fmap in Hc as (c' & -> & Hc').
      apply Hall in Hc'. destruct c'; simpl in *; lia.
Qed.

Lemma rows_of_length D cols : length (rows_of D cols) = D.
Proof. revert cols. induction D; intros; simpl; [done|]. by rewrite IHD. Qed.

Lemma rows_of_row_length D cols :
  Forall (fun r => length r = length cols) (rows_of D cols).
Proof.
  revert cols. induction D as [|D IH]; intros cols; simpl; constructor.
  - by rewrite length_map.
  - specialize (IH (map (@tl Z) cols)). by rewrite length_map in IH.
Qed.

Lemma points_rows_of D (cols : list (list Z)) :
  D ≠ 0%nat → Forall (fun c => length c = D) cols →
  points (rows_of D cols) = cols.
Proof.
  intros HD Hall. unfold points, ncols.
  destruct D as [|D]; [done|].
  replace (length (hd [] (rows_of (S D) cols))) with (length cols)
    by (simpl; by rewrite length_map).
  by apply columns_rows_of.
Qed.

(** ** The grid of the spans *)

Lemma flat_map_nil {A B} (l : list A) : flat_map (fun _ => @nil B) l = [].
Proof. by induction l. Qed.

Lemma flat_map_app_pointwise {A B} (g h : A → list B) (l : list A) :
  flat_map (fun a => g a ++ h a) l ≡ₚ flat_map g l ++ flat_map h l.
Proof.
  induction l as [|a l IH]; simpl; [done|].
  rewrite IH. rewrite <- !(assoc (++)). f_equiv.
  rewrite !(assoc (++)). f_equiv. apply Permutation_app_comm.
Qed.

Lemma flat_map_swap {A B C} (f : A → B → list C) (la : list A) (lb : list B) :
  flat_map (fun a => flat_map (fun b => f a b) lb) la
  ≡ₚ flat_map (fun b => flat_map (fun a => f a b) la) lb.
Proof.
  induction la as [|a la IH]; simpl.
  - by rewrite flat_map_nil.
  - rewrite flat_map_app_pointwise. by rewrite IH.
Qed.

Lemma map_flat_map {A B C} (f : B → C) (g : A → list B) (l : list A) :
  map f (flat_map g l) = flat_map (fun a => map f (g a)) l.
Proof.
  induction l as [|a l IH]; simpl; [done|]. by rewrite map_app, IH.
Qed.

Lemma meshgrid_xy_flat_product spans :
  meshgrid_xy_flat spans ≡ₚ grid_product spans.
Proof.
  destruct spans as [|s0 [|s1 rest]]; [done..|].
  unfold meshgrid_xy_flat. simpl grid_product.
  rewrite flat_map_swap.
  match goal with |- ?l ≡ₚ ?r => replace r with l; [done|] end.
  apply flat_map_ext. intros x. rewrite map_flat_map. apply flat_map_ext.
  intros y. by rewrite map_map.
Qed.

Lemma grid_product_elem spans (c : list Z) :
  c ∈ grid_product spans ↔ Forall2 (fun x s => x ∈ s) c spans.
Proof.
  revert c. induction spans as [|s rest IH]; intros c; simpl.
  - rewrite list_elem_of_singleton. split.
    + intros ->. constructor.
    + by inversion 1.
  - rewrite list_elem_of_In, in_flat_map. split.
    + intros (x & Hx & Hc). apply in_map_iff in Hc as (t & <- & Ht).
      constructor; [by apply list_elem_of_In|].
      apply IH. by apply list_elem_of_In.
    + inversion 1 as [|x ? t ? Hx Ht]; subst.
      exists x. split; [by apply list_elem_of_In|].
      apply in_map_iff. exists t. split; [done|].
      apply list_elem_of_In. by apply IH.
Qed.

Lemma grid_product_length spans :
  Forall (fun c => length c = length spans) (grid_product spans).
Proof.
  apply list.Forall_forall. intros c Hc. apply grid_product_elem in Hc.
  by apply Forall2_length in Hc.
Qed.

Lemma meshgrid_xy_flat_length spans :
  Forall (fun c => length c = length spans) (meshgrid_xy_flat spans).
Proof.
  rewrite meshgrid_xy_flat_product. apply grid_product_length.
Qed.

Lemma footprint_spans_lookup f ddims i dim :
  space_dimensions f !! i = Some dim →
  footprint_spans f ddims !! i =
    Some (if decide (dim ∈ ddims)
          then arange ((- space_order f) `div` 2) (space_order f `div` 2 + 1)
          else [0]).
Proof.
  intros Hi. unfold footprint_spans.
  change (map ?g ?l) with (g <$> l). by rewrite list_lookup_fmap, Hi.
Qed.

Lemma stencil_footprint_Ok f ddims :
  space_dimensions f ≠ [] →
  ∃ fp, stencil_footprint (Func f, ddims) = Ok fp
        ∧ length fp = length (space_dimensions f)
        ∧ Forall (fun r => length r = ncols fp) fp
        ∧ points fp = meshgrid_xy_flat (footprint_spans f ddims).
Proof.
  intros Hne. unfold stencil_footprint.
  assert (Hlen : length (footprint_spans f ddims) = length (space_dimensions f))
    by (unfold footprint_spans; by rewrite length_map).
  destruct (footprint_spans f ddims) as [|s spans] eqn:Hsp.
  { destruct (space_dimensions f); simpl in *; [done|lia]. }
  eexists. split; [reflexivity|]. rewrite rows_of_length.
  split; [done|]. split.
  - pose proof (rows_of_row_length (length (s :: spans)) (meshgrid_xy_flat (s :: spans))) as Hr.
    unfold ncols. simpl. rewrite length_map. exact Hr.
  - apply points_rows_of; [done|]. apply meshgrid_xy_flat_length.
Qed.

(** ** The stencil footprint (C6, C10) *)

(** C6. For a derivative of a field of even space order [p] (and at least
    one space dimension), [stencil_footprint] returns an array with one
    row per space dimension whose columns are, up to their order, the
    grid (outer product) of the per-axis spans. On a differentiated axis
    the span is [p/2] negative offsets, zero and [p/2] positive offsets,
    the [p + 1] integers from [-p/2] to [p/2], symmetric about zero; on
    any other axis it is the single offset zero. *)
Theorem stencil_footprint_even_order (f : Function) (ddims : list Dimension) (p : Z) :
  space_order f = p → 0 ≤ p → p `mod` 2 = 0 → space_dimensions f ≠ [] →
  ∃ fp, stencil_footprint (Func f, ddims) = Ok fp
    ∧ length fp = length (space_dimensions f)
    ∧ points fp ≡ₚ grid_product (footprint_spans f ddims)
    ∧ ∀ i dim, space_dimensions f !! i = Some dim →
        ∃ span, footprint_spans f ddims !! i = Some span
          ∧ (dim ∈ ddims →
               span = arange (- (p `div` 2)) 0 ++ 0 :: arange 1 (p `div` 2 + 1)
               ∧ length (arange (- (p `div` 2)) 0) = Z.to_nat (p `div` 2)
               ∧ length (arange 1 (p `div` 2 + 1)) = Z.to_nat (p `div` 2)
               ∧ length span = Z.to_nat (p + 1)
               ∧ (∀ x, x ∈ span ↔ - (p `div` 2) ≤ x ≤ p `div` 2)
               ∧ (∀ x, x ∈ span ↔ (- x) ∈ span))
          ∧ (dim ∉ ddims → span = [0]).
Proof.
  intros Hp Hpos Heven Hdims.
  destruct (stencil_footprint_Ok f ddims Hdims) as (fp & Hfp & Hlen & _ & Hpts).
  exists fp. split; [done|]. split; [done|]. split.
  { rewrite Hpts. apply meshgrid_xy_flat_product. }
  intros i dim Hi. eexists. split; [by apply footprint_spans_lookup|].
  assert (Hneg : (- p) `div` 2 = - (p `div` 2)).
  { rewrite (Z.div_mod p 2) at 1 by lia. rewrite Heven.
    replace (- (2 * p `div` 2 + 0)) with ((- (p `div` 2)) * 2) by lia.
    by rewrite Z.div_mul. }
  assert (Hhalf : 0 ≤ p `div` 2) by (apply Z.div_pos; lia).
  assert (Hdouble : p = 2 * (p `div` 2)).
  { rewrite (Z.div_mod p 2) at 1 by lia. lia. }
  rewrite Hp, Hneg. split.
  - intros Hin. rewrite decide_True by done.
    assert (Hmem : ∀ x, x ∈ arange (- (p `div` 2)) (p `div` 2 + 1)
                        ↔ - (p `div` 2) ≤ x ≤ p `div` 2).
    { intros x. rewrite arange_elem. lia. }
    split; [by apply arange_around_zero|].
    rewrite !arange_length.
    split; [lia|]. split; [lia|]. split; [lia|]. split; [exact Hmem|].
    intros x. rewrite !Hmem. lia.
  - intros Hnin. by rewrite decide_False.
Qed.

(** C10. For a derivative of a field of odd space order [p], the span on a
    differentiated axis is the [p + 1] integers from [-(p+1)/2] through
    [(p-1)/2]: [(p+1)/2] negative offsets, zero and [(p-1)/2] positive
    offsets. It is not symmetric: [-(p+1)/2] is an offset and [(p+1)/2] is
    not, so it differs from the span of [p/2] points on each side of
    zero. *)
Theorem stencil_footprint_odd_order (f : Function) (ddims : list Dimension) (p : Z) :
  space_order f = p → 0 ≤ p → p `mod` 2 = 1 → space_dimensions f ≠ [] →
  ∃ fp, stencil_footprint (Func f, ddims) = Ok fp
    ∧ length fp = length (space_dimensions f)
    ∧ points fp ≡ₚ grid_product (footprint_spans f ddims)
    ∧ ∀ i dim, space_dimensions f !! i = Some dim → dim ∈ ddims →
        ∃ span, footprint_spans f ddims !! i = Some span
          ∧ span = arange (- ((p + 1) `div` 2)) 0
                     ++ 0 :: arange 1 ((p - 1) `div` 2 + 1)
          ∧ length (arange (- ((p + 1) `div` 2)) 0) = Z.to_nat ((p + 1) `div` 2)
          ∧ length (arange 1 ((p - 1) `div` 2 + 1)) = Z.to_nat ((p - 1) `div` 2)
          ∧ (p + 1) `div` 2 = (p - 1) `div` 2 + 1
          ∧ length span = Z.to_nat (p + 1)
          ∧ (∀ x, x ∈ span ↔ - ((p + 1) `div` 2) ≤ x ≤ (p - 1) `div` 2)
          ∧ (- ((p + 1) `div` 2)) ∈ span
          ∧ ((p + 1) `div` 2 ∉ span)
          ∧ span ≠ arange (- (p `div` 2)) (p `div` 2 + 1).
Proof.
  intros Hp Hpos Hodd Hdims.
  destruct (stencil_footprint_Ok f ddims Hdims) as (fp & Hfp & Hlen & _ & Hpts).
  exists fp. split; [done|]. split; [done|]. split.
  { rewrite Hpts. apply meshgrid_xy_flat_product. }
  intros i dim Hi Hin. eexists. split; [by apply footprint_spans_lookup|].
  rewrite decide_True by done. rewrite Hp.
  pose proof (Z.div_mod p 2 ltac:(lia)) as Hdm. rewrite Hodd in Hdm.
  set (h := p `div` 2) in *.
  assert (Hh : 0 ≤ h) by (apply Z.div_pos; lia).
  assert (H1 : (- p) `div` 2 = - (h + 1)).
  { replace (- p) with ((- (h + 1)) * 2 + 1) by lia.
    rewrite Z.div_add_l by lia. change (1 `div` 2) with 0. lia. }
  assert (H2 : (p + 1) `div` 2 = h + 1).
  { replace (p + 1) with ((h + 1) * 2) by lia. by rewrite Z.div_mul. }
  assert (H3 : (p - 1) `div` 2 = h).
  { replace (p - 1) with (h * 2) by lia. by rewrite Z.div_mul. }
  rewrite H1, H2, H3.
  assert (Hmem : ∀ x, x ∈ arange (- (h + 1)) (h + 1) ↔ - (h + 1) ≤ x ≤ h).
  { intros x. rewrite arange_elem. lia. }
  split; [by apply (arange_around_zero (h + 1) h); lia|].
  rewrite !arange_length.
  split; [lia|]. split; [lia|]. split; [lia|]. split; [lia|].
  split; [exact Hmem|]. split; [apply Hmem; lia|]. split.
  - intros Hx. apply Hmem in Hx. lia.
  - intros Heq.
    assert (Hx : - (h + 1) ∈ arange (- h) (h + 1)).
    { rewrite <- Heq. apply Hmem. lia. }
    apply arange_elem in Hx. lia.
Qed.

(** ** Construction of a BoundaryCondition (C4, C7) *)

Lemma _get_functions_elem eq funcs f :
  f ∈ _get_functions eq funcs ↔
    f ∈ retrieve_functions (lhs eq)
    ∧ match funcs with
      | None => is_TimeDependent f = true
      | Some fs => f ∈ fs
      end.
Proof.
  unfold _get_functions. destruct funcs as [fs|].
  - rewrite list_elem_of_filter, elem_of_remove_dups. tauto.
  - rewrite elem_of_remove_dups, list_elem_of_filter. tauto.
Qed.

Lemma _get_functions_NoDup eq funcs : NoDup (_get_functions eq funcs).
Proof.
  unfold _get_functions. destruct funcs as [fs|].
  - apply list.NoDup_filter, NoDup_remove_dups.
  - apply NoDup_remove_dups.
Qed.

Lemma derivative_loop_spec funcs derivs dims :
  NoDup dims →
  (Forall (supported_node funcs) derivs ∧
   ∃ ds, derivative_loop funcs derivs dims = Ok ds
         ∧ NoDup ds
         ∧ ∀ d, d ∈ ds ↔ d ∈ dims ∨ ∃ n, n ∈ derivs ∧ d ∈ n.2)
  ∨ (¬ Forall (supported_node funcs) derivs ∧
     ∃ msg, derivative_loop funcs derivs dims = Err (NotImplementedError msg)).
Proof.
  revert dims. induction derivs as [|[e dd] derivs IH]; intros dims Hnd.
  - left. split; [constructor|]. exists dims. split; [done|]. split; [done|].
    intros d. split; [tauto|]. intros [?|(n & Hn & _)]; [done|].
    by apply elem_of_nil in Hn.
  - simpl. destruct e as [z|s|f|e' dd'|a b|a b];
      try (right; split; [|by eexists];
           intros Hall; apply list.Forall_cons in Hall as [(f & Hf & _) _];
           simpl in Hf; discriminate).
    destruct (decide (f ∈ funcs)) as [Hin|Hnin].
    + destruct (IH (remove_dups (dims ++ dd)) (NoDup_remove_dups _))
        as [(Hall & ds & Hds & Hnd' & Hmem)|(Hall & msg & Hmsg)].
      * left. split; [constructor; [by exists f|done]|].
        exists ds. split; [done|]. split; [done|].
        intros d. rewrite Hmem, elem_of_remove_dups, elem_of_app.
        split.
        -- intros [[?|?]|(n & Hn & Hd)]; [by left| |].
           ++ right. exists (Func f, dd). split; [left|done].
           ++ right. exists n. split; [by right|done].
        -- intros [?|(n & Hn & Hd)]; [by left; left|].
           apply elem_of_cons in Hn as [->|Hn]; [by left; right|].
           right. by exists n.
      * right. split; [|by exists msg].
        intros Hall'. apply list.Forall_cons in Hall' as [_ ?]. done.
    + right. split; [|by eexists].
      intros Hall. apply list.Forall_cons in Hall as [(f' & Hf' & Hin') _].
      simpl in Hf'. by injection Hf' as ->.
Qed.

Lemma derivative_nodes_supported_dec funcs derivs :
  Forall (supported_node funcs) derivs
  ∨ ∃ e dd, (e, dd) ∈ derivs
            ∧ ((∀ f, e ≠ Func f) ∨ ∃ f, e = Func f ∧ f ∉ funcs).
Proof.
  induction derivs as [|[e dd] derivs IH]; [left; constructor|].
  destruct IH as [IH|(e' & dd' & Hin & Hbad)].
  - destruct e as [z|s|f|e' dd'|a b|a b];
      try (right; eexists; exists dd; split; [left|left; intros ? ?; discriminate]).
    destruct (decide (f ∈ funcs)).
    + left. constructor; [by exists f|done].
    + right. exists (Func f), dd. split; [left|]. right. by exists f.
  - right. exists e', dd'. split; [by right|done].
Qed.

(** C4. [BoundaryCondition(eq, funcs)] raises NotImplementedError exactly
    when the right-hand side is not zero, or some derivative of the
    left-hand side is taken of an expression that is not a bare field, or
    of a field outside the selected ones; it raises nothing else, and in
    every other case it returns the condition. *)
Theorem BoundaryCondition_init_unsupported_iff (eq : DvEq) (funcs : option (list Function)) :
  let unsupported :=
    rhs eq ≠ Const 0
    ∨ ∃ e dd, (e, dd) ∈ derivative_nodes (lhs eq)
              ∧ ((∀ f, e ≠ Func f)
                 ∨ ∃ f, e = Func f ∧ f ∉ _get_functions eq funcs) in
  ((∃ msg, BoundaryCondition_init eq funcs = Err (NotImplementedError msg))
     ↔ unsupported)
  ∧ ((∃ bc, BoundaryCondition_init eq funcs = Ok bc
            ∧ bc_eq bc = eq ∧ bc_funcs bc = _get_functions eq funcs)
     ↔ ¬ unsupported)
  ∧ (∀ err, BoundaryCondition_init eq funcs = Err err →
            ∃ msg, err = NotImplementedError msg).
Proof.
  intros unsupported. unfold BoundaryCondition_init, _parse_rhs.
  destruct (decide (rhs eq ≠ Const 0)) as [Hrhs|Hrhs]; simpl.
  { split; [|split].
    - split; [intros _; by left|by eexists].
    - split; [by intros (? & ? & _)|]. intros Hn. destruct Hn. by left.
    - intros err [= <-]. by eexists. }
  unfold _get_derivative_dimensions, find_Derivative.
  set (fs := _get_functions eq funcs) in *.
  assert (Hbad : (∃ e dd, (e, dd) ∈ derivative_nodes (lhs eq)
                   ∧ ((∀ f, e ≠ Func f) ∨ ∃ f, e = Func f ∧ f ∉ fs))
                 → ¬ Forall (supported_node fs) (remove_dups (derivative_nodes (lhs eq)))).
  { intros (e & dd & Hin & Hbad) Hall.
    rewrite list.Forall_forall in Hall.
    destruct (Hall (e, dd)) as (f & Hf & Hfin); [by apply elem_of_remove_dups|].
    simpl in Hf. destruct Hbad as [Hbad|(f' & -> & Hnin)]; [by eapply Hbad|].
    by injection Hf as ->. }
  assert (Hgood : Forall (supported_node fs) (remove_dups (derivative_nodes (lhs eq)))
                  → ¬ unsupported).
  { intros Hall [?|Hex]; [done|]. by apply Hbad. }
  destruct (derivative_loop_spec fs (remove_dups (derivative_nodes (lhs eq))) [])
    as [(Hall & ds & -> & _)|(Hall & msg & ->)]; [constructor| |]; simpl.
  - split; [|split].
    + split; [by intros (? & ?)|]. intros Hu. by destruct (Hgood Hall).
    + split; [intros _; by apply Hgood|]. intros _. by eexists.
    + by intros err.
  - assert (Hu : unsupported).
    { right.
      destruct (derivative_nodes_supported_dec fs (remove_dups (derivative_nodes (lhs eq))))
        as [?|(e & dd & Hin & Hb)]; [done|].
      exists e, dd. split; [by apply elem_of_remove_dups|done]. }
    split; [|split].
    + split; [done|]. intros _. by exists msg.
    + split; [by intros (? & ? & _)|]. done.
    + intros err [= <-]. by eexists.
Qed.

Lemma BoundaryCondition_init_Ok eq funcs bc :
  BoundaryCondition_init eq funcs = Ok bc →
  rhs eq = Const 0
  ∧ bc_eq bc = eq
  ∧ bc_funcs bc = _get_functions eq funcs
  ∧ Forall (supported_node (bc_funcs bc)) (derivative_nodes (lhs eq))
  ∧ ∃ ds, bc_dims bc = (if decide (length ds = 0%nat) then None else Some ds)
          ∧ NoDup ds
          ∧ ∀ d, d ∈ ds ↔ ∃ n, n ∈ derivative_nodes (lhs eq) ∧ d ∈ n.2.
Proof.
  unfold BoundaryCondition_init, _parse_rhs.
  destruct (decide (rhs eq ≠ Const 0)) as [Hrhs|Hrhs]; simpl; [done|].
  unfold _get_derivative_dimensions, find_Derivative.
  destruct (derivative_loop_spec (_get_functions eq funcs)
              (remove_dups (derivative_nodes (lhs eq))) [])
    as [(Hall & ds & -> & Hnd & Hmem)|(_ & msg & ->)]; [constructor| |done].
  simpl. intros [= <-]. simpl.
  split; [by destruct (decide (rhs eq = Const 0))|].
  split; [done|]. split; [done|]. split.
  - rewrite list.Forall_forall in Hall. apply list.Forall_forall.
    intros n Hn. apply Hall. by apply elem_of_remove_dups.
  - exists ds. split; [done|]. split; [done|].
    intros d. rewrite Hmem. split.
    + intros [Hd|(n & Hn & Hd)]; [by apply elem_of_nil in Hd|].
      exists n. by rewrite elem_of_remove_dups in Hn.
    + intros (n & Hn & Hd). right. exists n. by rewrite elem_of_remove_dups.
Qed.

(** C7. After a successful construction, the dimensions recorded (none
    when [dims] is None) are exactly the axes of the derivatives of the
    left-hand side that are taken of a selected field; [dims] is a tuple
    without repetition and never the empty tuple; it is None when the
    left-hand side has no derivative, and only then, every Devito
    derivative being along at least one dimension. *)
Theorem BoundaryCondition_dims (eq : DvEq) (funcs : option (list Function))
    (bc : BoundaryCondition) :
  BoundaryCondition_init eq funcs = Ok bc →
  (∀ d, d ∈ default [] (bc_dims bc) ↔
        ∃ f dd, (Func f, dd) ∈ derivative_nodes (lhs eq)
                ∧ f ∈ bc_funcs bc ∧ d ∈ dd)
  ∧ (∀ ds, bc_dims bc = Some ds → NoDup ds ∧ ds ≠ [])
  ∧ (derivative_nodes (lhs eq) = [] → bc_dims bc = None)
  ∧ (Forall (fun n => n.2 ≠ []) (derivative_nodes (lhs eq)) →
     bc_dims bc = None → derivative_nodes (lhs eq) = []).
Proof.
  intros Hinit.
  apply BoundaryCondition_init_Ok in Hinit
    as (_ & _ & _ & Hall & ds & Hdims & Hnd & Hmem).
  rewrite list.Forall_forall in Hall.
  assert (Hdef : ∀ d, d ∈ default [] (bc_dims bc) ↔ d ∈ ds).
  { intros d. rewrite Hdims. destruct (decide (length ds = 0%nat)) as [Hl|Hl]; [|done].
    apply nil_length_inv in Hl as ->. done. }
  split; [|split; [|split]].
  - intros d. rewrite Hdef, Hmem. split.
    + intros ([e dd] & Hn & Hd). destruct (Hall _ Hn) as (f & Hf & Hin).
      simpl in Hf, Hd. subst e. by exists f, dd.
    + intros (f & dd & Hn & _ & Hd). by exists (Func f, dd).
  - intros ds' Hds'. rewrite Hdims in Hds'.
    destruct (decide (length ds = 0%nat)) as [Hl|Hl]; [done|].
    injection Hds' as <-. split; [done|]. by intros ->.
  - intros Hnil. rewrite Hdims.
    destruct ds as [|d ds']; [done|].
    assert (Hd : d ∈ d :: ds') by left.
    apply Hmem in Hd as (n & Hn & _). rewrite Hnil in Hn.
    by apply elem_of_nil in Hn.
  - intros Hwf Hnone. rewrite Hdims in Hnone.
    destruct (decide (length ds = 0%nat)) as [Hl|Hl]; [|done].
    apply nil_length_inv in Hl as ->.
    destruct (derivative_nodes (lhs eq)) as [|[e dd] nodes]; [done|].
    apply list.Forall_cons in Hwf as [Hdd _]. simpl in Hdd.
    destruct dd as [|d dd]; [done|].
    assert (Hd : d ∈ @nil Dimension).
    { apply Hmem. exists (e, d :: dd). split; left. }
    by apply elem_of_nil in Hd.
Qed.

(** ** The graph operations *)

Section networkx_facts.
Context {N : Type} `{Countable N}.
Implicit Types (G : Graph N) (u v x y : N).

Lemma empty_graph_wf : wf_graph (@empty_graph N _ _).
Proof.
  split; [constructor|]. split; [|split].
  - intros u. simpl. rewrite lookup_empty. split.
    + intros Hu. by apply elem_of_nil in Hu.
    + by intros [? ?].
  - unfold adjacent, neighbors. simpl. intros u v. rewrite lookup_empty.
    simpl. set_solver.
  - unfold adjacent, neighbors. simpl. intros u v. rewrite lookup_empty.
    simpl. set_solver.
Qed.

Lemma add_node_nodes G n x :
  x ∈ g_node (add_node G n) ↔ x ∈ g_node G ∨ x = n.
Proof.
  unfold add_node. case_decide as Hn; simpl.
  - split; [by left|]. by intros [?| ->].
  - rewrite elem_of_app, list_elem_of_singleton. done.
Qed.

Lemma neighbors_add_node G n x :
  wf_graph G → neighbors (add_node G n) x = neighbors G x.
Proof.
  intros (_ & Hdom & _). unfold add_node. case_decide as Hn; [done|].
  unfold neighbors. simpl. destruct (decide (n = x)) as [->|Hne].
  - rewrite lookup_insert_eq. simpl.
    destruct (g_adj G !! x) eqn:Hx; [|done].
    destruct Hn. apply Hdom. by eexists.
  - by rewrite lookup_insert_ne.
Qed.

Lemma add_node_wf G n : wf_graph G → wf_graph (add_node G n).
Proof.
  intros HG. pose proof HG as (Hnd & Hdom & Hsym & Hcl).
  split; [|split; [|split]].
  - unfold add_node. case_decide as Hn; [done|]. simpl.
    apply NoDup_app. split; [done|]. split; [|apply NoDup_singleton].
    intros x Hx Hx'. apply list_elem_of_singleton in Hx' as ->. done.
  - intros u. rewrite add_node_nodes. unfold add_node.
    case_decide as Hn; simpl.
    + rewrite <- Hdom. split; [by intros [?| ->]|by left].
    + destruct (decide (n = u)) as [->|Hne].
      * rewrite lookup_insert_eq. split; [by eexists|by right].
      * rewrite lookup_insert_ne by done. rewrite <- Hdom.
        split; [by intros [?| ->]|by left].
  - intros u v. unfold adjacent. rewrite !neighbors_add_node by done.
    apply Hsym.
  - intros u v. unfold adjacent. rewrite neighbors_add_node by done.
    intros Huv. apply add_node_nodes. left. by eapply Hcl.
Qed.

Lemma add_edge_nodes G u v x :
  x ∈ g_node (add_edge G (u, v)) ↔ x ∈ g_node G ∨ x = u ∨ x = v.
Proof. simpl. rewrite !add_node_nodes. tauto. Qed.

Lemma add_edge_adjacent G u v x y :
  wf_graph G →
  adjacent (add_edge G (u, v)) x y ↔
    adjacent G x y ∨ (x = u ∧ y = v) ∨ (x = v ∧ y = u).
Proof.
  intros HG.
  assert (HG' : wf_graph (add_node (add_node G u) v))
    by (by do 2 apply add_node_wf).
  assert (Hnb : ∀ z, neighbors (add_node (add_node G u) v) z = neighbors G z).
  { intros z. by rewrite !neighbors_add_node by (by try apply add_node_wf). }
  destruct HG' as (_ & Hdom & _).
  assert (Hu : is_Some (g_adj (add_node (add_node G u) v) !! u)).
  { apply Hdom. rewrite !add_node_nodes. tauto. }
  assert (Hv : is_Some (g_adj (add_node (add_node G u) v) !! v)).
  { apply Hdom. rewrite !add_node_nodes. tauto. }
  unfold adjacent. rewrite <- (Hnb x). unfold neighbors at 1. simpl.
  unfold neighbors. rewrite !lookup_alter.
  destruct Hu as [au Hau]. destruct Hv as [av Hav].
  clear Hdom Hnb.
  destruct (decide (v = x)) as [Hvx|Hvx].
  - subst x. destruct (decide (u = v)) as [Huv|Huv].
    + subst v. rewrite Hau. simpl. set_unfold. intuition congruence.
    + rewrite Hav. simpl. set_unfold. intuition congruence.
  - destruct (decide (u = x)) as [Hux|Hux].
    + subst x. rewrite Hau. simpl. set_unfold. intuition congruence.
    + destruct (g_adj (add_node (add_node G u) v) !! x); simpl;
        set_unfold; intuition congruence.
Qed.

Lemma add_edge_wf G e : wf_graph G → wf_graph (add_edge G e).
Proof.
  intros HG. destruct e as [u v].
  assert (HG' : wf_graph (add_node (add_node G u) v))
    by (by do 2 apply add_node_wf).
  pose proof HG as (_ & _ & Hsym & Hcl).
  pose proof HG' as (Hnd' & Hdom' & _).
  split; [|split; [|split]].
  - exact Hnd'.
  - intros x. simpl. rewrite Hdom'. rewrite !lookup_alter.
    repeat case_decide; subst; rewrite ?fmap_is_Some; done.
  - intros x y. rewrite !add_edge_adjacent by done.
    intros [?|[[-> ->]|[-> ->]]]; [left; by apply Hsym|tauto..].
  - intros x y. rewrite add_edge_adjacent by done. rewrite add_edge_nodes.
    intros [?|[[-> ->]|[-> ->]]]; [left; by eapply Hcl|tauto..].
Qed.

Lemma add_nodes_from_spec G ns :
  wf_graph G →
  wf_graph (add_nodes_from G ns)
  ∧ (∀ x, x ∈ g_node (add_nodes_from G ns) ↔ x ∈ g_node G ∨ x ∈ ns)
  ∧ (∀ x y, adjacent (add_nodes_from G ns) x y ↔ adjacent G x y).
Proof.
  revert G. induction ns as [|n ns IH]; intros G HG; simpl.
  - split; [done|]. split; [|done]. intros x. split; [by left|].
    intros [?|Hx]; [done|]. by apply elem_of_nil in Hx.
  - destruct (IH (add_node G n) (add_node_wf G n HG)) as (Hwf & Hnodes & Hadj).
    split; [done|]. split.
    + intros x. rewrite Hnodes, add_node_nodes, elem_of_cons. tauto.
    + intros x y. rewrite Hadj. unfold adjacent.
      by rewrite neighbors_add_node.
Qed.

Lemma add_edges_from_spec G es :
  wf_graph G →
  wf_graph (add_edges_from G es)
  ∧ (∀ x, x ∈ g_node (add_edges_from G es) ↔
          x ∈ g_node G ∨ ∃ e, e ∈ es ∧ (x = e.1 ∨ x = e.2))
  ∧ (∀ x y, adjacent (add_edges_from G es) x y ↔
            adjacent G x y ∨ (x, y) ∈ es ∨ (y, x) ∈ es).
Proof.
  revert G. induction es as [|[u v] es IH]; intros G HG; simpl.
  - split; [done|]. split.
    + intros x. split; [by left|]. intros [?|(e & He & _)]; [done|].
      by apply elem_of_nil in He.
    + intros x y. split; [by left|].
      intros [?|[Hx|Hx]]; [done|by apply elem_of_nil in Hx..].
  - destruct (IH (add_edge G (u, v)) (add_edge_wf G (u, v) HG))
      as (Hwf & Hnodes & Hadj).
    split; [done|]. split.
    + intros x. rewrite Hnodes, add_edge_nodes. split.
      * intros [[?|Hx]|(e & He & Hx)]; [by left| |].
        -- right. exists (u, v). split; [left|]. simpl. tauto.
        -- right. exists e. split; [by right|done].
      * intros [?|(e & He & Hx)]; [by left; left|].
        apply elem_of_cons in He as [->|He]; [simpl in Hx; left; tauto|].
        right. by exists e.
    + intros x y. rewrite Hadj, add_edge_adjacent by done.
      rewrite !elem_of_cons. split.
      * intros [[?|[[-> ->]|[-> ->]]]|[?|?]]; tauto.
      * intros [?|[[[= -> ->]|?]|[[= -> ->]|?]]]; tauto.
Qed.
End networkx_facts.

(** ** Breadth-first search and connected components *)

Section bfs_facts.
Context {N : Type} `{Countable N}.
Implicit Types (G : Graph N) (u v x y s : N) (seen next : gset N).

Lemma adjacent_rtc_sym G x y :
  wf_graph G → rtc (adjacent G) x y → rtc (adjacent G) y x.
Proof.
  intros (_ & _ & Hsym & _). induction 1 as [|x z y Hxz _ IH]; [done|].
  eapply rtc_r; [exact IH|]. by apply Hsym.
Qed.

Lemma bfs_level_spec G (l : list N) seen (acc : gset N) :
  NoDup l →
  (foldl (fun st v => bfs_visit G v st) (seen, acc) l).1 = seen ∪ list_to_set l
  ∧ ∀ y, y ∈ (foldl (fun st v => bfs_visit G v st) (seen, acc) l).2 ↔
         y ∈ acc ∨ ∃ v, v ∈ l ∧ (v ∉ seen) ∧ adjacent G v y.
Proof.
  intros Hnd. revert seen acc.
  induction Hnd as [|a l Ha Hnd IH]; intros seen acc; simpl.
  - split; [set_solver|]. intros y. split; [by left|].
    intros [?|(v & Hv & _)]; [done|]. by apply elem_of_nil in Hv.
  - unfold bfs_visit at 2 4. simpl. destruct (decide (a ∈ seen)) as [Hin|Hnin].
    + destruct (IH seen acc) as [-> Hmem]. split; [set_solver|].
      intros y. rewrite Hmem. split.
      * intros [?|(v & Hv & Hvs & Hy)]; [by left|].
        right. exists v. split; [by right|done].
      * intros [?|(v & Hv & Hvs & Hy)]; [by left|].
        apply elem_of_cons in Hv as [->|Hv]; [done|].
        right. by exists v.
    + destruct (IH ({[a]} ∪ seen) (acc ∪ neighbors G a)) as [-> Hmem].
      split; [set_solver|].
      intros y. rewrite Hmem, elem_of_union. split.
      * intros [[?|Hy]|(v & Hv & Hvs & Hy)]; [by left| |].
        -- right. exists a. split; [left|done].
        -- right. exists v. split; [by right|]. split; [set_solver|done].
      * intros [?|(v & Hv & Hvs & Hy)]; [by left; left|].
        apply elem_of_cons in Hv as [->|Hv]; [by left; right|].
        right. exists v. split; [done|]. split; [|done].
        intros [Hva|?]%elem_of_union; [|done].
        apply elem_of_singleton in Hva as ->. done.
Qed.

Lemma bfs_loop_empty fuel G seen : bfs_loop fuel G seen ∅ = Some seen.
Proof. destruct fuel; simpl; by rewrite decide_True. Qed.

(** When the next level is empty, the nodes seen are those reachable. *)
Lemma bfs_closed_reach G s seen :
  (∀ x, x ∈ seen → rtc (adjacent G) s x) →
  s ∈ seen →
  (∀ x y, x ∈ seen → adjacent G x y → y ∈ seen) →
  ∀ x, x ∈ seen ↔ rtc (adjacent G) s x.
Proof.
  intros Hreach Hs Hclosed x. split; [apply Hreach|].
  intros Hx. revert x Hx. apply rtc_ind_r; [done|].
  intros y z _ Hyz IH. by eapply Hclosed.
Qed.

Lemma bfs_loop_reach G s fuel seen next :
  (∀ u v, adjacent G u v → v ∈ g_node G) →
  (∀ x, x ∈ seen ∪ next → x ∈ g_node G) →
  (∀ x, x ∈ seen ∪ next → rtc (adjacent G) s x) →
  s ∈ seen ∪ next →
  (∀ x y, x ∈ seen → adjacent G x y → y ∈ seen ∪ next) →
  (size (list_to_set (g_node G) ∖ seen : gset N) < fuel)%nat →
  ∃ R, bfs_loop fuel G seen next = Some R
       ∧ ∀ x, x ∈ R ↔ rtc (adjacent G) s x.
Proof.
  intros Hcl. revert seen next.
  induction fuel as [|fuel IH]; intros seen next Hnodes Hreach Hs Hstep Hfuel;
    [lia|].
  simpl. destruct (decide (next = ∅)) as [->|Hne].
  { exists seen. split; [done|].
    apply bfs_closed_reach.
    - intros x Hx. apply Hreach. set_solver.
    - set_solver.
    - intros x y Hx Hxy. specialize (Hstep x y Hx Hxy). set_solver. }
  destruct (bfs_level_spec G (elements next) seen ∅ (NoDup_elements next))
    as [Hseen Hnext].
  rewrite list_to_set_elements_L in Hseen.
  set (st := foldl (fun st v => bfs_visit G v st) (seen, ∅) (elements next)) in *.
  assert (Hnext' : ∀ y, y ∈ st.2 ↔ ∃ v, v ∈ next ∧ (v ∉ seen) ∧ adjacent G v y).
  { intros y. rewrite Hnext. split.
    - intros [Hy|(v & Hv & ?)]; [set_solver|].
      exists v. by rewrite elem_of_elements in Hv.
    - intros (v & Hv & ?). right. exists v. by rewrite elem_of_elements. }
  clear Hnext. rewrite Hseen.
  assert (Hreach' : ∀ x, x ∈ (seen ∪ next) ∪ st.2 → rtc (adjacent G) s x).
  { intros x [Hx|Hx]%elem_of_union; [by apply Hreach|].
    apply Hnext' in Hx as (v & Hv & _ & Hvx).
    eapply rtc_r; [|exact Hvx]. apply Hreach. set_solver. }
  assert (Hstep' : ∀ x y, x ∈ seen ∪ next → adjacent G x y →
                          y ∈ (seen ∪ next) ∪ st.2).
  { intros x y Hx Hxy. destruct (decide (x ∈ seen)) as [Hin|Hnin].
    - apply elem_of_union. left. by eapply Hstep.
    - apply elem_of_union. right. apply Hnext'. exists x.
      split; [set_solver|done]. }
  destruct (decide (st.2 = ∅)) as [Hemp|Hnemp].
  - rewrite Hemp, bfs_loop_empty. eexists. split; [done|].
    apply bfs_closed_reach.
    + intros x Hx. apply Hreach'. set_solver.
    + done.
    + intros x y Hx Hxy. specialize (Hstep' x y Hx Hxy).
      rewrite Hemp in Hstep'. set_solver.
  - apply IH; try done.
    + intros x [Hx|Hx]%elem_of_union; [by apply Hnodes|].
      apply Hnext' in Hx as (v & _ & _ & Hvx). by eapply Hcl.
    + set_solver.
    + apply set_choose_L in Hnemp as [y Hy].
      apply Hnext' in Hy as (v & Hv & Hvs & _).
      assert (Hlt : (size (list_to_set (g_node G) ∖ (seen ∪ next) : gset N)
                     < size (list_to_set (g_node G) ∖ seen : gset N))%nat).
      { apply subset_size. apply strict_spec_alt. split; [set_solver|].
        intros Heq. assert (Hv' : v ∈ (list_to_set (g_node G) ∖ seen : gset N)).
        { apply elem_of_difference. split; [|done].
          apply elem_of_list_to_set. apply Hnodes. set_solver. }
        rewrite <- Heq in Hv'. set_solver. }
      lia.
Qed.

Lemma _plain_bfs_reach G s :
  wf_graph G → s ∈ g_node G →
  ∃ c, _plain_bfs G s = Some c ∧ ∀ x, x ∈ c ↔ rtc (adjacent G) s x.
Proof.
  intros (Hnd & _ & _ & Hcl) Hs. unfold _plain_bfs.
  apply bfs_loop_reach; try done.
  - intros x Hx. assert (x = s) as -> by set_solver. done.
  - intros x Hx. assert (x = s) as -> by set_solver. done.
  - set_solver.
  - replace (list_to_set (g_node G) ∖ ∅ : gset N) with
      (list_to_set (g_node G) : gset N) by set_solver.
    rewrite size_list_to_set by done. lia.
Qed.

Lemma components_loop_spec G vs seen :
  wf_graph G →
  (∀ v, v ∈ vs → v ∈ g_node G) →
  (∀ x y, x ∈ seen → rtc (adjacent G) x y → y ∈ seen) →
  ∃ cs, components_loop G vs seen = Some cs
    ∧ Forall (fun c => ∃ v, v ∈ vs ∧ (v ∉ seen)
                            ∧ ∀ x, x ∈ c ↔ rtc (adjacent G) v x) cs
    ∧ (∀ v, v ∈ vs → v ∉ seen → ∃ c, c ∈ cs ∧ v ∈ c)
    ∧ Forall (fun c => c ## seen) cs
    ∧ (∀ i j c c', i ≠ j → cs !! i = Some c → cs !! j = Some c' → c ## c').
Proof.
  intros HG. revert seen.
  induction vs as [|v vs IH]; intros seen Hvs Hseen; simpl.
  - exists []. split; [done|]. split; [constructor|]. split.
    + intros v Hv. by apply elem_of_nil in Hv.
    + split; [constructor|]. intros i j c c' _ Hi. by rewrite lookup_nil in Hi.
  - assert (Hvs' : ∀ w, w ∈ vs → w ∈ g_node G).
    { intros w Hw. apply Hvs. by right. }
    destruct (decide (v ∈ seen)) as [Hin|Hnin].
    + destruct (IH seen Hvs' Hseen) as (cs & -> & Hcomp & Hcover & Hdisj & Hpair).
      exists cs. split; [done|]. split; [|split; [|done]].
      * eapply Forall_impl; [exact Hcomp|].
        intros c (w & Hw & ?). exists w. split; [by right|done].
      * intros w Hw Hws. apply elem_of_cons in Hw as [->|Hw]; [done|].
        by apply Hcover.
    + destruct (_plain_bfs_reach G v HG) as (c & -> & Hc); [apply Hvs; left|].
      simpl.
      assert (Hseen' : ∀ x y, x ∈ seen ∪ c → rtc (adjacent G) x y → y ∈ seen ∪ c).
      { intros x y [Hx|Hx]%elem_of_union Hxy; apply elem_of_union.
        - left. by eapply Hseen.
        - right. apply Hc. etrans; [|exact Hxy]. by apply Hc. }
      destruct (IH (seen ∪ c) Hvs' Hseen')
        as (cs & -> & Hcomp & Hcover & Hdisj & Hpair).
      simpl. exists (c :: cs). split; [done|].
      assert (Hcs : c ## seen).
      { intros x Hx Hxs. apply Hnin. eapply Hseen; [exact Hxs|].
        apply adjacent_rtc_sym; [done|]. by apply Hc. }
      split; [|split; [|split]].
      * constructor; [exists v; split; [left|done]|].
        eapply Forall_impl; [exact Hcomp|].
        intros c' (w & Hw & Hws & ?). exists w. split; [by right|].
        split; [set_solver|done].
      * intros w Hw Hws. destruct (decide (w ∈ c)) as [Hwc|Hwc].
        { exists c. split; [left|done]. }
        apply elem_of_cons in Hw as [->|Hw].
        { destruct Hwc. by apply Hc. }
        destruct (Hcover w Hw) as (c' & Hc' & Hwc'); [set_solver|].
        exists c'. split; [by right|done].
      * constructor; [done|]. eapply Forall_impl; [exact Hdisj|].
        intros c' Hc'. set_solver.
      * rewrite Forall_forall in Hdisj.
        intros [|i] [|j] c1 c2 Hij H1 H2; simpl in *; simplify_eq.
        -- apply list_elem_of_lookup_2 in H2. specialize (Hdisj _ H2). set_solver.
        -- apply list_elem_of_lookup_2 in H1. specialize (Hdisj _ H1). set_solver.
        -- eapply (Hpair i j); [congruence|done..].
Qed.

Lemma connected_components_spec G :
  wf_graph G →
  ∃ cs, connected_components G = Some cs
    ∧ Forall (fun c => ∃ v, v ∈ g_node G
                            ∧ ∀ x, x ∈ c ↔ rtc (adjacent G) v x) cs
    ∧ (∀ v, v ∈ g_node G → ∃ c, c ∈ cs ∧ v ∈ c)
    ∧ (∀ i j c c', i ≠ j → cs !! i = Some c → cs !! j = Some c' → c ## c').
Proof.
  intros HG. unfold connected_components.
  destruct (components_loop_spec G (g_node G) ∅ HG)
    as (cs & Hcs & Hcomp & Hcover & _ & Hpair); [done|set_solver|].
  exists cs. split; [done|]. split; [|split; [|done]].
  - eapply Forall_impl; [exact Hcomp|]. intros c (v & ? & _ & ?). by exists v.
  - intros v Hv. apply Hcover; [done|set_solver].
Qed.
End bfs_facts.

(** ** The two loops of [_group_bcs] *)

Lemma star_edges_Ok funcs :
  star_edges funcs =
    Ok (match funcs with
        | [] => []
        | f0 :: tl => map (pair f0) tl
        end).
Proof.
  unfold star_edges. destruct funcs as [|f0 tl]; [done|].
  apply mapM_Ok_Forall2. simpl. rewrite drop_0.
  induction tl as [|f tl IH]; simpl; by constructor.
Qed.

Lemma graph_loop_spec bcs (G : Graph Function) :
  wf_graph G →
  ∃ G', graph_loop bcs G = Ok G'
    ∧ wf_graph G'
    ∧ (∀ x, x ∈ g_node G' ↔ x ∈ g_node G ∨ field_node bcs x)
    ∧ (∀ x y, adjacent G' x y ↔
              adjacent G x y ∨ star_edge bcs x y ∨ star_edge bcs y x).
Proof.
  revert G. induction bcs as [|bc bcs IH]; intros G HG; simpl.
  - exists G. split; [done|]. split; [done|]. split.
    + intros x. split; [by left|]. intros [?|(bc & Hbc & _)]; [done|].
      by apply elem_of_nil in Hbc.
    + intros x y. split; [by left|].
      intros [?|[(bc & ? & Hbc & _)|(bc & ? & Hbc & _)]]; [done|..];
        by apply elem_of_nil in Hbc.
  - rewrite star_edges_Ok. simpl.
    destruct (add_nodes_from_spec G (bc_funcs bc) HG) as (HG1 & Hn1 & Ha1).
    set (G1 := add_nodes_from G (bc_funcs bc)) in *.
    set (es := match bc_funcs bc with [] => [] | f0 :: tl => map (pair f0) tl end).
    destruct (add_edges_from_spec G1 es HG1) as (HG2 & Hn2 & Ha2).
    destruct (IH (add_edges_from G1 es) HG2) as (G' & -> & HG' & Hn' & Ha').
    exists G'. split; [done|]. split; [done|].
    assert (Hes : ∀ x y, (x, y) ∈ es ↔ ∃ tl, bc_funcs bc = x :: tl ∧ y ∈ tl).
    { intros x y. unfold es. destruct (bc_funcs bc) as [|f0 tl].
      - split; [by intros ?%elem_of_nil|]. by intros (? & ? & _).
      - change (map ?f ?l) with (f <$> l). rewrite list_elem_of_fmap. split.
        + intros (z & [= -> ->] & Hz). by exists tl.
        + intros (tl' & [= -> ->] & Hy). by exists y. }
    split.
    + intros x. rewrite Hn', Hn2, Hn1. split.
      * intros [[[?|Hx]|(e & He & Hx)]|(bc' & Hbc' & Hx)]; [by left|..].
        -- right. exists bc. split; [left|done].
        -- right. exists bc. split; [left|]. destruct e as [a b].
           apply Hes in He as (tl & Htl & Hb). rewrite Htl. simpl in Hx.
           destruct Hx as [->| ->]; [left|by right].
        -- right. exists bc'. split; [by right|done].
      * intros [?|(bc' & Hbc' & Hx)]; [by left; left; left|].
        apply elem_of_cons in Hbc' as [->|Hbc']; [by left; left; right|].
        right. by exists bc'.
    + intros x y. rewrite Ha', Ha2, Ha1, !Hes. unfold star_edge. split.
      * intros [[?|[(tl & ? & ?)|(tl & ? & ?)]]
               |[(bc' & tl & ? & ?)|(bc' & tl & ? & ?)]]; [by left|..].
        -- right; left. exists bc, tl. split; [left|done].
        -- right; right. exists bc, tl. split; [left|done].
        -- right; left. exists bc', tl. split; [by right|done].
        -- right; right. exists bc', tl. split; [by right|done].
      * intros [?|[(bc' & tl & Hbc' & ?)|(bc' & tl & Hbc' & ?)]];
          [by left; left|..];
          apply elem_of_cons in Hbc' as [->|Hbc'].
        -- left; right; left. by exists tl.
        -- right; left. by exists bc', tl.
        -- left; right; right. by exists tl.
        -- right; right. by exists bc', tl.
Qed.

Lemma group_conditions_Ok bcs group :
  Forall (fun bc => bc_funcs bc ≠ []) bcs →
  group_conditions bcs group = Ok (filter (first_in group) bcs).
Proof.
  induction 1 as [|bc bcs Hbc _ IH]; [done|].
  simpl. rewrite IH. unfold tuple_getitem. rewrite filter_cons.
  destruct (bc_funcs bc) as [|f0 tl] eqn:Hf; [done|]. simpl.
  destruct (decide (first_in group bc)) as [Hfi|Hfi];
    unfold first_in in Hfi; rewrite Hf in Hfi.
  - by rewrite decide_True.
  - by rewrite decide_False.
Qed.

Lemma group_conditions_Err bcs group :
  Exists (fun bc => bc_funcs bc = []) bcs →
  group_conditions bcs group = Err IndexError.
Proof.
  induction 1 as [bc bcs Hbc|bc bcs _ IH]; simpl.
  - by rewrite Hbc.
  - rewrite IH. unfold tuple_getitem. by destruct (bc_funcs bc !! 0%nat).
Qed.

Lemma f_map_update_lookup (group : list Function) (g : ConditionGroup)
    (m : gmap Function ConditionGroup) (f : Function) :
  foldl (fun f_map func => <[func := g]> f_map) m group !! f =
    if decide (f ∈ group) then Some g else m !! f.
Proof.
  revert m. induction group as [|a group IH]; intros m; simpl.
  - done.
  - rewrite IH. destruct (decide (f ∈ group)) as [Hin|Hnin].
    + rewrite decide_True; [done|]. by right.
    + destruct (decide (a = f)) as [->|Hne].
      * rewrite lookup_insert_eq. rewrite decide_True; [done|]. left.
      * rewrite lookup_insert_ne by done. rewrite decide_False; [done|].
        intros [->|?]%elem_of_cons; done.
Qed.

Lemma groups_loop_Ok bcs f_groups st :
  Forall (fun bc => bc_funcs bc ≠ []) bcs →
  ∃ f_map,
    groups_loop bcs f_groups st =
      Ok (st.1 ++ map (fun group =>
                         mkConditionGroup (filter (first_in group) bcs) group)
                      f_groups,
          f_map)
    ∧ (∀ f, (∀ group, group ∈ f_groups → f ∉ group) → f_map !! f = st.2 !! f)
    ∧ (∀ f, (∃ group, group ∈ f_groups ∧ f ∈ group) →
            ∃ group, group ∈ f_groups ∧ f ∈ group
              ∧ f_map !! f =
                  Some (mkConditionGroup (filter (first_in group) bcs) group)).
Proof.
  intros Hne. revert st. induction f_groups as [|group rest IH]; intros st; simpl.
  - exists st.2. rewrite app_nil_r. split; [by destruct st|]. split; [done|].
    intros f (g & Hg & _). by apply elem_of_nil in Hg.
  - rewrite group_conditions_Ok by done. simpl.
    set (ng := mkConditionGroup (filter (first_in group) bcs) group).
    destruct (IH (st.1 ++ [ng],
                  foldl (fun f_map func => <[func := ng]> f_map) st.2 group))
      as (fm & -> & Hout & Hin).
    simpl in *. exists fm. rewrite <- (assoc (++)). split; [done|]. split.
    + intros f Hf. rewrite Hout.
      * rewrite f_map_update_lookup. rewrite decide_False; [done|].
        apply Hf. left.
      * intros g Hg. apply Hf. by right.
    + intros f (g & Hg & Hfg).
      destruct (decide (Exists (fun g' => f ∈ g') rest)) as [Hex|Hnex];
        rewrite Exists_exists in Hex || rewrite Exists_exists in Hnex.
      * destruct (Hin f Hex) as (g' & Hg' & Hfg' & Hfm).
        exists g'. split; [by right|done].
      * apply elem_of_cons in Hg as [->|Hg]; [|destruct Hnex; by exists g].
        exists group. split; [left|]. split; [done|].
        rewrite Hout.
        -- rewrite f_map_update_lookup. by rewrite decide_True.
        -- intros g' Hg' Hfg'. apply Hnex. by exists g'.
Qed.

Lemma groups_loop_Err bcs group rest st :
  Exists (fun bc => bc_funcs bc = []) bcs →
  groups_loop bcs (group :: rest) st = Err IndexError.
Proof. intros Hex. simpl. by rewrite group_conditions_Err. Qed.

(** ** Connectivity of fields and of conditions *)

#[global] Instance field_connected_equivalence bcs : Equivalence (field_connected bcs).
Proof. unfold field_connected. apply rtsc_equivalence. Qed.

Lemma star_edge_co_occur bcs x y : sc (star_edge bcs) x y → co_occur bcs x y.
Proof.
  intros [(bc & tl & Hbc & Hf & Hy)|(bc & tl & Hbc & Hf & Hy)];
    exists bc; rewrite Hf; (split; [done|]).
  - split; [left|by right].
  - split; [by right|left].
Qed.

(** The star of a condition connects all its fields. *)
Lemma co_occur_connected bcs x y : co_occur bcs x y → field_connected bcs x y.
Proof.
  intros (bc & Hbc & Hx & Hy).
  destruct (bc_funcs bc) as [|f0 tl] eqn:Hf; [by apply elem_of_nil in Hx|].
  assert (Hroot : ∀ z, z ∈ f0 :: tl → field_connected bcs f0 z).
  { intros z [->|Hz]%elem_of_cons; [done|].
    apply rtc_once. left. by exists bc, tl. }
  trans f0; [symmetry|]; by apply Hroot.
Qed.

Lemma field_connected_co_occur bcs x y :
  field_connected bcs x y ↔ rtc (co_occur bcs) x y.
Proof.
  split.
  - apply rtc_subrel. apply star_edge_co_occur.
  - induction 1 as [|x z y Hxz _ IH]; [done|].
    trans z; [by apply co_occur_connected|done].
Qed.

Lemma field_connected_conditions bcs x y b1 b2 :
  field_connected bcs x y →
  b1 ∈ bcs → b2 ∈ bcs → x ∈ bc_funcs b1 → y ∈ bc_funcs b2 →
  conditions_connected bcs b1 b2.
Proof.
  intros Hxy. apply field_connected_co_occur in Hxy. revert b1.
  induction Hxy as [x|x z y (bc & Hbc & Hx & Hz) _ IH]; intros b1 Hb1 Hb2 Hx1 Hy2.
  - apply rtc_once. split; [done|]. split; [done|]. by exists x.
  - eapply rtc_l; [|by apply (IH bc)].
    split; [done|]. split; [done|]. by exists x.
Qed.

Lemma conditions_connected_fields bcs b1 b2 x y :
  conditions_connected bcs b1 b2 →
  b1 ∈ bcs → x ∈ bc_funcs b1 → y ∈ bc_funcs b2 →
  field_connected bcs x y.
Proof.
  intros Hb. revert x.
  induction Hb as [b|b1 b' b2 (Hb1 & Hb' & f & Hf1 & Hf') _ IH]; intros x Hin Hx Hy.
  - apply co_occur_connected. by exists b.
  - trans f; [apply co_occur_connected; by exists b1|]. by apply IH.
Qed.

Lemma reordered_elem bcs bcs' :
  reordered bcs bcs' →
  (∀ b, b ∈ bcs → ∃ b', b' ∈ bcs' ∧ same_fields b b')
  ∧ (∀ b', b' ∈ bcs' → ∃ b, b ∈ bcs ∧ same_fields b b').
Proof.
  intros (mid & Hperm & Hall). split.
  - intros b Hb. rewrite Hperm in Hb.
    apply list_elem_of_lookup_1 in Hb as [i Hi].
    destruct (Forall2_lookup_l _ _ _ _ _ Hall Hi) as (b' & Hi' & Hsame).
    exists b'. split; [by eapply list_elem_of_lookup_2|done].
  - intros b' Hb'. apply list_elem_of_lookup_1 in Hb' as [i Hi'].
    destruct (Forall2_lookup_r _ _ _ _ _ Hall Hi') as (b & Hi & Hsame).
    exists b. split; [|done]. rewrite Hperm. by eapply list_elem_of_lookup_2.
Qed.

Lemma co_occur_reordered bcs bcs' x y :
  reordered bcs bcs' → co_occur bcs x y ↔ co_occur bcs' x y.
Proof.
  intros [Hl Hr]%reordered_elem. split.
  - intros (b & Hb & Hx & Hy). destruct (Hl b Hb) as (b' & Hb' & _ & Hf & _).
    exists b'. split; [done|]. by rewrite <- Hf.
  - intros (b' & Hb' & Hx & Hy). destruct (Hr b' Hb') as (b & Hb & _ & Hf & _).
    exists b. split; [done|]. by rewrite Hf.
Qed.

Lemma field_connected_reordered bcs bcs' x y :
  reordered bcs bcs' → field_connected bcs x y ↔ field_connected bcs' x y.
Proof.
  intros Hre. rewrite !field_connected_co_occur.
  split; apply rtc_subrel; intros a b Hab;
    by apply (co_occur_reordered bcs bcs' a b Hre).
Qed.

Lemma field_node_reordered bcs bcs' x :
  reordered bcs bcs' → field_node bcs x ↔ field_node bcs' x.
Proof.
  intros [Hl Hr]%reordered_elem. split.
  - intros (b & Hb & Hx). destruct (Hl b Hb) as (b' & Hb' & _ & Hf & _).
    exists b'. split; [done|]. by rewrite <- Hf.
  - intros (b' & Hb' & Hx). destruct (Hr b' Hb') as (b & Hb & _ & Hf & _).
    exists b. split; [done|]. by rewrite Hf.
Qed.

Lemma empty_funcs_reordered bcs bcs' :
  reordered bcs bcs' →
  Exists (fun bc => bc_funcs bc = []) bcs ↔ Exists (fun bc => bc_funcs bc = []) bcs'.
Proof.
  intros [Hl Hr]%reordered_elem. rewrite !Exists_exists. split.
  - intros (b & Hb & He). destruct (Hl b Hb) as (b' & Hb' & _ & Hf & _).
    exists b'. split; [done|]. rewrite He in Hf. by apply Permutation_nil_l in Hf.
  - intros (b' & Hb' & He). destruct (Hr b' Hb') as (b & Hb & _ & Hf & _).
    exists b. split; [done|]. rewrite He in Hf. by apply Permutation_nil_r in Hf.
Qed.

(** ** The field graph and its components *)

Lemma field_graph_spec bcs :
  ∃ G, graph_loop bcs empty_graph = Ok G
    ∧ wf_graph G
    ∧ (∀ x, x ∈ g_node G ↔ field_node bcs x)
    ∧ (∀ x y, rtc (adjacent G) x y ↔ field_connected bcs x y).
Proof.
  destruct (graph_loop_spec bcs empty_graph empty_graph_wf)
    as (G & HG & Hwf & Hnodes & Hadj).
  exists G. split; [done|]. split; [done|].
  assert (Hadj' : ∀ x y, adjacent G x y ↔ sc (star_edge bcs) x y).
  { intros x y. rewrite Hadj. unfold sc, adjacent, neighbors. simpl.
    rewrite lookup_empty. simpl. set_solver. }
  split.
  - intros x. rewrite Hnodes. simpl. split; [|by right].
    intros [Hx|?]; [by apply elem_of_nil in Hx|done].
  - intros x y. unfold field_connected.
    split; apply rtc_subrel; intros a b; apply Hadj'.
Qed.

Lemma field_components_spec bcs :
  ∃ G comps, graph_loop bcs empty_graph = Ok G
    ∧ connected_components G = Some comps
    ∧ Forall (fun c => ∃ v, field_node bcs v
                            ∧ ∀ x, x ∈ c ↔ field_connected bcs v x) comps
    ∧ (∀ v, field_node bcs v → ∃ c, c ∈ comps ∧ v ∈ c)
    ∧ (∀ i j c c', i ≠ j → comps !! i = Some c → comps !! j = Some c' → c ## c').
Proof.
  destruct (field_graph_spec bcs) as (G & HG & Hwf & Hnodes & Hconn).
  destruct (connected_components_spec G Hwf) as (comps & Hcc & Hcomp & Hcover & Hpair).
  exists G, comps. split; [done|]. split; [done|]. split; [|split; [|done]].
  - eapply Forall_impl; [exact Hcomp|]. intros c (v & Hv & Hc).
    exists v. split; [by apply Hnodes|]. intros x. by rewrite Hc, Hconn.
  - intros v Hv. apply Hcover. by apply Hnodes.
Qed.

(** With no empty field tuple, the locals are one group per component,
    in the order of the components, and [f_map] sends each field of the
    graph to the group of its component. *)
Lemma group_bcs_locals_Ok bcs :
  Forall (fun bc => bc_funcs bc ≠ []) bcs →
  ∃ (comps : list (gset Function)) f_map,
    group_bcs_locals bcs =
      Ok (map (fun c => mkConditionGroup (filter (first_in (elements c)) bcs)
                                         (elements c)) comps,
          f_map)
    ∧ Forall (fun c => ∃ v, field_node bcs v
                            ∧ ∀ x, x ∈ c ↔ field_connected bcs v x) comps
    ∧ (∀ v, field_node bcs v → ∃ c, c ∈ comps ∧ v ∈ c)
    ∧ (∀ i j c c', i ≠ j → comps !! i = Some c → comps !! j = Some c' → c ## c')
    ∧ (∀ f, field_node bcs f →
            ∃ c, c ∈ comps ∧ f ∈ c
              ∧ f_map !! f =
                  Some (mkConditionGroup (filter (first_in (elements c)) bcs)
                                         (elements c)))
    ∧ (∀ f, ¬ field_node bcs f → f_map !! f = None).
Proof.
  intros Hne.
  destruct (field_components_spec bcs)
    as (G & comps & HG & Hcc & Hcomp & Hcover & Hpair).
  destruct (groups_loop_Ok bcs (map elements comps) ([], ∅) Hne)
    as (f_map & Hloop & Hout & Hin).
  exists comps, f_map. unfold group_bcs_locals. rewrite HG. simpl. rewrite Hcc.
  rewrite Hloop. simpl. rewrite map_map.
  split; [done|]. split; [done|]. split; [done|]. split; [done|]. split.
  - intros f Hf. destruct (Hcover f Hf) as (c & Hc & Hfc).
    destruct (Hin f) as (group & Hgroup & Hfg & Hfm).
    { exists (elements c). split; [|by apply elem_of_elements].
      change (map ?g ?l) with (g <$> l). apply list_elem_of_fmap. by exists c. }
    change (map ?g ?l) with (g <$> l) in Hgroup.
    apply list_elem_of_fmap in Hgroup as (c' & -> & Hc').
    exists c'. split; [done|]. split; [by apply elem_of_elements|done].
  - intros f Hf. rewrite Hout; [apply lookup_empty|].
    intros group Hgroup Hfg.
    change (map ?g ?l) with (g <$> l) in Hgroup.
    apply list_elem_of_fmap in Hgroup as (c & -> & Hc).
    rewrite Forall_forall in Hcomp. destruct (Hcomp c Hc) as (v & Hv & Hvc).
    apply elem_of_elements, Hvc in Hfg.
    apply Hf. apply field_connected_co_occur in Hfg.
    apply rtc_inv_r in Hfg as [->|(z & _ & (b & Hb & _ & Hfb))]; [done|].
    by exists b.
Qed.

(** With an empty field tuple and a field in the graph, the second loop
    fails on [bc.funcs[0]]. *)
Lemma group_bcs_locals_Err bcs f :
  Exists (fun bc => bc_funcs bc = []) bcs →
  field_node bcs f →
  group_bcs_locals bcs = Err IndexError.
Proof.
  intros Hempty Hf.
  destruct (field_components_spec bcs)
    as (G & comps & HG & Hcc & _ & Hcover & _).
  unfold group_bcs_locals. rewrite HG. simpl. rewrite Hcc.
  destruct (Hcover f Hf) as (c & Hc & _).
  destruct comps as [|c0 comps]; [by apply elem_of_nil in Hc|].
  simpl map. by apply groups_loop_Err.
Qed.

(** With no field at all, there is no group. *)
Lemma group_bcs_locals_no_field bcs :
  (∀ f, ¬ field_node bcs f) →
  group_bcs_locals bcs = Ok ([], ∅).
Proof.
  intros Hnone.
  destruct (field_components_spec bcs)
    as (G & comps & HG & Hcc & Hcomp & _ & _).
  unfold group_bcs_locals. rewrite HG. simpl. rewrite Hcc.
  destruct comps as [|c0 comps]; [done|].
  apply list.Forall_cons in Hcomp as [(v & Hv & _) _]. by destruct (Hnone v).
Qed.

(** The search for the components always ends within its fuel. *)
Lemma group_bcs_locals_fuel bcs : group_bcs_locals bcs ≠ Err OutOfFuel.
Proof.
  destruct (decide (Exists (fun bc => bc_funcs bc = []) bcs)) as [Hempty|Hfull].
  - destruct (decide (Exists (fun bc => bc_funcs bc ≠ []) bcs)) as [Hsome|Hnone].
    + apply Exists_exists in Hsome as (b & Hb & Hfb).
      destruct (bc_funcs b) as [|f tl] eqn:Hf; [done|].
      rewrite (group_bcs_locals_Err bcs f); [done..|].
      exists b. split; [done|]. rewrite Hf. left.
    + rewrite group_bcs_locals_no_field; [done|].
      intros f (b & Hb & Hfb). apply Hnone. apply Exists_exists.
      exists b. split; [done|]. intros Hnil. rewrite Hnil in Hfb.
      by apply elem_of_nil in Hfb.
  - apply not_Exists_Forall in Hfull; [|intros ?; apply _].
    destruct (group_bcs_locals_Ok bcs Hfull) as (comps & f_map & -> & _). done.
Qed.

Lemma filter_ext_in {A} (P Q : A → Prop) `{∀ x, Decision (P x)} `{∀ x, Decision (Q x)}
    (l : list A) :
  (∀ x, x ∈ l → P x ↔ Q x) → filter P l = filter Q l.
Proof.
  induction l as [|a l IH]; intros Hext; [done|].
  rewrite !filter_cons. rewrite IH by (intros x Hx; apply Hext; by right).
  destruct (decide (P a)) as [HP|HP], (decide (Q a)) as [HQ|HQ]; try done.
  - destruct HQ. apply Hext; [left|done].
  - destruct HP. apply Hext; [left|done].
Qed.

(** A condition is taken by the test on its first field exactly when its
    field tuple meets the component. *)
Lemma first_in_component bcs (c : gset Function) v bc :
  (∀ x, x ∈ c ↔ field_connected bcs v x) →
  bc ∈ bcs → bc_funcs bc ≠ [] →
  first_in (elements c) bc ↔ Exists (fun f => f ∈ elements c) (bc_funcs bc).
Proof.
  intros Hc Hbc Hne. unfold first_in.
  destruct (bc_funcs bc) as [|f0 tl] eqn:Hf; [done|]. split.
  - intros H0. by apply Exists_cons_hd.
  - intros (f & Hfin & Hfc)%Exists_exists.
    apply elem_of_elements. apply elem_of_elements in Hfc.
    apply Hc. trans f; [by apply Hc|].
    apply co_occur_connected. exists bc. rewrite Hf.
    split; [done|]. split; [done|left].
Qed.

(** ** The grouping (C2, C3, C9, C1) *)

(** C2. When every condition has at least one field, the grouping step
    succeeds and its groups are the connected components of the field
    graph (nodes: the fields of the conditions; edges: the star of each
    condition): the fields of each group, listed once each, are the
    fields connected to some field of the graph; each field of the graph
    is in one group and in no other; the conditions of a group are, in
    their order, the conditions whose fields meet the fields of the
    group; and two conditions are in a same group exactly when a chain of
    conditions, each sharing a field with the next, joins them. *)
Theorem group_bcs_connected_components (bcs : list BoundaryCondition) :
  Forall (fun bc => bc_funcs bc ≠ []) bcs →
  ∃ groups f_map,
    group_bcs_locals bcs = Ok (groups, f_map)
    ∧ (∀ g, g ∈ groups →
            NoDup (cg_funcs g)
            ∧ ∃ f, field_node bcs f
                   ∧ ∀ x, x ∈ cg_funcs g ↔ field_connected bcs f x)
    ∧ (∀ f, field_node bcs f →
            ∃ i g, groups !! i = Some g ∧ f ∈ cg_funcs g
                   ∧ ∀ j g', groups !! j = Some g' → f ∈ cg_funcs g' → j = i)
    ∧ (∀ g, g ∈ groups →
            cg_conds g =
              filter (fun bc => Exists (fun f => f ∈ cg_funcs g) (bc_funcs bc)) bcs)
    ∧ (∀ b1 b2, b1 ∈ bcs → b2 ∈ bcs →
         (∃ g, g ∈ groups ∧ b1 ∈ cg_conds g ∧ b2 ∈ cg_conds g)
         ↔ conditions_connected bcs b1 b2).
Proof.
  intros Hne.
  destruct (group_bcs_locals_Ok bcs Hne)
    as (comps & f_map & Hloc & Hcomp & Hcover & Hpair & _ & _).
  eexists _, f_map. split; [exact Hloc|].
  rewrite Forall_forall in Hcomp. rewrite Forall_forall in Hne.
  set (mk := fun c : gset Function =>
               mkConditionGroup (filter (first_in (elements c)) bcs) (elements c)).
  change (map ?g ?l) with (g <$> l).
  split; [|split; [|split]].
  - intros g (c & -> & Hc)%list_elem_of_fmap. simpl.
    split; [apply NoDup_elements|].
    destruct (Hcomp c Hc) as (v & Hv & Hvc). exists v. split; [done|].
    intros x. by rewrite elem_of_elements.
  - intros f Hf. destruct (Hcover f Hf) as (c & Hc & Hfc).
    apply list_elem_of_lookup_1 in Hc as [i Hi].
    exists i, (mk c). split; [by rewrite list_lookup_fmap, Hi|].
    split; [simpl; by apply elem_of_elements|].
    intros j g' Hj Hfg'. rewrite list_lookup_fmap in Hj.
    destruct (comps !! j) as [c'|] eqn:Hj'; [|done].
    injection Hj as <-. simpl in Hfg'. apply elem_of_elements in Hfg'.
    destruct (decide (j = i)) as [|Hji]; [done|].
    destruct (Hpair j i c' c Hji Hj' Hi f); done.
  - intros g (c & -> & Hc)%list_elem_of_fmap. simpl.
    destruct (Hcomp c Hc) as (v & Hv & Hvc).
    apply filter_ext_in. intros bc Hbc.
    by apply (first_in_component bcs c v); [|done|apply Hne].
  - intros b1 b2 Hb1 Hb2.
    pose proof (Hne b1 Hb1) as Hn1. pose proof (Hne b2 Hb2) as Hn2.
    destruct (bc_funcs b1) as [|f1 tl1] eqn:Hf1; [done|].
    destruct (bc_funcs b2) as [|f2 tl2] eqn:Hf2; [done|].
    assert (Hfirst : ∀ (c : gset Function) b f tl, bc_funcs b = f :: tl → b ∈ bcs →
                       (b ∈ filter (first_in (elements c)) bcs ↔ f ∈ c)).
    { intros c b f tl Hfb Hb. rewrite list_elem_of_filter. unfold first_in.
      rewrite Hfb, elem_of_elements. tauto. }
    split.
    + intros (g & (c & -> & Hc)%list_elem_of_fmap & Hg1 & Hg2). simpl in *.
      destruct (Hcomp c Hc) as (v & Hv & Hvc).
      apply (Hfirst c b1 f1 tl1) in Hg1; [|done..].
      apply (Hfirst c b2 f2 tl2) in Hg2; [|done..].
      apply (field_connected_conditions bcs f1 f2); try done.
      * trans v; [symmetry|]; by apply Hvc.
      * rewrite Hf1. left.
      * rewrite Hf2. left.
    + intros Hconn.
      assert (H12 : field_connected bcs f1 f2).
      { apply (conditions_connected_fields bcs b1 b2); try done.
        - rewrite Hf1. left.
        - rewrite Hf2. left. }
      destruct (Hcover f1) as (c & Hc & Hfc).
      { exists b1. split; [done|]. rewrite Hf1. left. }
      destruct (Hcomp c Hc) as (v & Hv & Hvc).
      exists (mk c). split; [apply list_elem_of_fmap; by exists c|]. simpl. split.
      * by apply (Hfirst c b1 f1 tl1).
      * apply (Hfirst c b2 f2 tl2); [done..|].
        apply Hvc. trans f1; [by apply Hvc|done].
Qed.

Lemma group_field_sets_spec bcs groups f_map (X : gset Function) :
  Forall (fun bc => bc_funcs bc ≠ []) bcs →
  group_bcs_locals bcs = Ok (groups, f_map) →
  X ∈ group_field_sets groups ↔
    ∃ v, field_node bcs v ∧ ∀ x, x ∈ X ↔ field_connected bcs v x.
Proof.
  intros Hne Hloc.
  destruct (group_bcs_locals_Ok bcs Hne)
    as (comps & f_map' & Hloc' & Hcomp & Hcover & _).
  rewrite Hloc' in Hloc. injection Hloc as <- <-.
  rewrite Forall_forall in Hcomp.
  unfold group_field_sets. rewrite map_map. simpl.
  rewrite elem_of_list_to_set. change (map ?g ?l) with (g <$> l).
  rewrite list_elem_of_fmap. split.
  - intros (c & -> & Hc). rewrite list_to_set_elements_L. by apply Hcomp.
  - intros (v & Hv & HX). destruct (Hcover v Hv) as (c & Hc & Hvc).
    exists c. split; [|done]. rewrite list_to_set_elements_L.
    destruct (Hcomp c Hc) as (v' & _ & Hc').
    apply set_eq. intros x. rewrite HX, Hc'.
    apply Hc' in Hvc. split; intros Hx.
    + by trans v.
    + trans v'; [by symmetry|done].
Qed.

Lemma group_bcs_locals_reordered bcs bcs' :
  reordered bcs bcs' →
  result_field_sets (group_bcs_locals bcs) = result_field_sets (group_bcs_locals bcs').
Proof.
  intros Hre.
  destruct (decide (Exists (fun bc => bc_funcs bc = []) bcs)) as [Hempty|Hfull].
  - pose proof Hempty as Hempty'. apply (empty_funcs_reordered _ _ Hre) in Hempty'.
    destruct (decide (Exists (fun bc => bc_funcs bc ≠ []) bcs)) as [Hsome|Hnone].
    + apply Exists_exists in Hsome as (b & Hb & Hfb).
      destruct (bc_funcs b) as [|f tl] eqn:Hf; [done|].
      assert (Hnode : field_node bcs f).
      { exists b. split; [done|]. rewrite Hf. left. }
      rewrite (group_bcs_locals_Err bcs f) by done.
      apply (field_node_reordered _ _ _ Hre) in Hnode.
      by rewrite (group_bcs_locals_Err bcs' f).
    + assert (Hno : ∀ f, ¬ field_node bcs f).
      { intros f (b & Hb & Hfb). apply Hnone. apply Exists_exists.
        exists b. split; [done|]. intros Hnil. rewrite Hnil in Hfb.
        by apply elem_of_nil in Hfb. }
      rewrite (group_bcs_locals_no_field bcs) by done.
      rewrite (group_bcs_locals_no_field bcs'); [done|].
      intros f Hf. apply (Hno f). by apply (field_node_reordered _ _ _ Hre).
  - assert (Hfull' : ¬ Exists (fun bc => bc_funcs bc = []) bcs').
    { intros He. by apply (empty_funcs_reordered _ _ Hre) in He. }
    apply not_Exists_Forall in Hfull; [|intros ?; apply _].
    apply not_Exists_Forall in Hfull'; [|intros ?; apply _].
    destruct (group_bcs_locals_Ok bcs Hfull) as (cs & fm & Hloc & _).
    destruct (group_bcs_locals_Ok bcs' Hfull') as (cs' & fm' & Hloc' & _).
    pose proof (fun X => group_field_sets_spec bcs _ fm X Hfull Hloc) as Hspec.
    pose proof (fun X => group_field_sets_spec bcs' _ fm' X Hfull' Hloc') as Hspec'.
    rewrite Hloc, Hloc'. simpl. f_equal. apply set_eq. intros X.
    rewrite Hspec, Hspec'. split.
    + intros (v & Hv & HX). exists v.
      split; [by apply (field_node_reordered _ _ _ Hre)|].
      intros x. rewrite HX. by apply field_connected_reordered.
    + intros (v & Hv & HX). exists v.
      split; [by apply (field_node_reordered _ _ _ Hre)|].
      intros x. rewrite HX. symmetry. by apply field_connected_reordered.
Qed.

(** ** The whole constructor under a permutation of the equations *)

Lemma Forall2_Permutation_l {A B} (R : A → B → Prop) (l l' : list A) (k : list B) :
  l ≡ₚ l' → Forall2 R l k → ∃ k', k ≡ₚ k' ∧ Forall2 R l' k'.
Proof.
  intros Hperm. revert k.
  induction Hperm as [|a l l' _ IH|a b l|l1 l2 l3 _ IH1 _ IH2]; intros k Hall.
  - inversion Hall. exists []. by split.
  - inversion Hall as [|? c ? k0 Hac Hk]; subst.
    destruct (IH k0 Hk) as (k' & Hp & Hk').
    exists (c :: k'). split; [by f_equiv|by constructor].
  - inversion Hall as [|? c ? k0 Hc Hk]; subst.
    inversion Hk as [|? d ? k1 Hd Hk1]; subst.
    exists (d :: c :: k1). split; [apply Permutation_swap|by repeat constructor].
  - destruct (IH1 k Hall) as (k2 & Hp2 & Hk2).
    destruct (IH2 k2 Hk2) as (k3 & Hp3 & Hk3).
    exists k3. split; [by trans k2|done].
Qed.

Lemma flatten_loop_Ok eqs eq_list l :
  flatten_loop eqs eq_list = Ok l ↔
    ∃ flats, Forall2 (fun eq flat => _flatten eq = Some flat) eqs flats
             ∧ l = eq_list ++ concat flats.
Proof.
  revert eq_list. induction eqs as [|eq eqs IH]; intros eq_list; simpl.
  - split.
    + intros [= <-]. exists []. split; [constructor|]. by rewrite app_nil_r.
    + intros (flats & Hall & ->). inversion Hall. simpl. by rewrite app_nil_r.
  - destruct (_flatten eq) as [flat|] eqn:Hflat.
    + rewrite IH. split.
      * intros (flats & Hall & ->). exists (flat :: flats).
        split; [by constructor|]. simpl. by rewrite (assoc (++)).
      * intros (flats & Hall & ->).
        inversion Hall as [|? flat' ? flats' Hf Hall']; subst.
        rewrite Hflat in Hf. injection Hf as <-.
        exists flats'. split; [done|]. simpl. by rewrite (assoc (++)).
    + split; [done|]. intros (flats & Hall & _).
      inversion Hall as [|? flat' ? flats' Hf Hall']; subst.
      by rewrite Hflat in Hf.
Qed.

Lemma _flatten_equations_Permutation eqs eqs' es :
  eqs ≡ₚ eqs' → _flatten_equations eqs = Ok es →
  ∃ es', _flatten_equations eqs' = Ok es' ∧ es ≡ₚ es'.
Proof.
  intros Hperm. unfold _flatten_equations. intros Hes.
  apply bind_Ok in Hes as (l & Hl & [= <-]).
  apply flatten_loop_Ok in Hl as (flats & Hall & ->).
  destruct (Forall2_Permutation_l _ _ _ _ Hperm Hall) as (flats' & Hp & Hall').
  assert (Hl' : flatten_loop eqs' [] = Ok ([] ++ concat flats')).
  { apply flatten_loop_Ok. by exists flats'. }
  rewrite Hl'. simpl. eexists. split; [done|].
  apply NoDup_Permutation; [apply NoDup_remove_dups..|].
  intros x. rewrite !elem_of_remove_dups. by rewrite Hp.
Qed.

Lemma _setup_bcs_Permutation funcs es es' bcs :
  es ≡ₚ es' → _setup_bcs funcs es = Ok bcs →
  ∃ bcs', _setup_bcs funcs es' = Ok bcs' ∧ bcs ≡ₚ bcs'.
Proof.
  intros Hperm. unfold _setup_bcs. rewrite mapM_Ok_Forall2. intros Hall.
  destruct (Forall2_Permutation_l _ _ _ _ Hperm Hall) as (bcs' & Hp & Hall').
  exists bcs'. split; [by apply mapM_Ok_Forall2|done].
Qed.

Lemma Permutation_reordered bcs bcs' : bcs ≡ₚ bcs' → reordered bcs bcs'.
Proof.
  intros Hperm. exists bcs'. split; [done|].
  apply Forall2_same_length_lookup. split; [done|].
  intros i b b' Hb Hb'. rewrite Hb in Hb'. injection Hb' as <-. by repeat split.
Qed.

(** C3. The groups, taken as a set of sets of fields, do not depend on
    the order of the conditions nor on the order of the fields of each
    condition (so not on which field is the root of a star): the grouping
    of a reordered list of conditions ends in the same way, with the same
    set of field sets when it succeeds. Hence the constructor, when it
    succeeds on a list of equations, succeeds on every permutation of it
    with the same set of field sets. *)
Theorem grouping_order_independent :
  (∀ bcs bcs', reordered bcs bcs' →
     result_field_sets (group_bcs_locals bcs)
     = result_field_sets (group_bcs_locals bcs'))
  ∧ (∀ eqs eqs' funcs groups f_map,
       eqs ≡ₚ eqs' →
       BoundaryConditions_groups eqs funcs = Ok (groups, f_map) →
       ∃ groups' f_map',
         BoundaryConditions_groups eqs' funcs = Ok (groups', f_map')
         ∧ group_field_sets groups = group_field_sets groups').
Proof.
  split; [apply group_bcs_locals_reordered|].
  intros eqs eqs' funcs groups f_map Hperm. unfold BoundaryConditions_groups.
  intros Hinit. apply bind_Ok in Hinit as (es & Hes & Hinit).
  apply bind_Ok in Hinit as (bcs & Hbcs & Hloc).
  destruct (_flatten_equations_Permutation eqs eqs' es Hperm Hes) as (es' & Hes' & Hp).
  destruct (_setup_bcs_Permutation _ es es' bcs Hp Hbcs) as (bcs' & Hbcs' & Hp').
  rewrite Hes'. simpl. rewrite Hbcs'. simpl.
  pose proof (group_bcs_locals_reordered bcs bcs' (Permutation_reordered _ _ Hp')) as Hres.
  rewrite Hloc in Hres. simpl in Hres.
  destruct (group_bcs_locals bcs') as [[groups' f_map']|e]; [|done].
  simpl in Hres. injection Hres as Hres. by exists groups', f_map'.
Qed.

(** C9. When some condition has an empty field tuple while some condition
    has a field, the grouping fails with IndexError, raised by
    [bc.funcs[0]] in the second loop; so does the constructor once the
    equations are flattened and the conditions built. *)
Theorem group_bcs_empty_field_tuple (bcs : list BoundaryCondition) :
  Exists (fun bc => bc_funcs bc = []) bcs →
  Exists (fun bc => bc_funcs bc ≠ []) bcs →
  (∃ G, graph_loop bcs empty_graph = Ok G)
  ∧ group_bcs_locals bcs = Err IndexError
  ∧ (∀ self, bcs_bcs self = bcs → _group_bcs self = Err IndexError)
  ∧ (∀ eqs funcs _eqs,
       _flatten_equations eqs = Ok _eqs →
       _setup_bcs (_flatten_functions funcs) _eqs = Ok bcs →
       BoundaryConditions_init eqs funcs = Err IndexError).
Proof.
  intros Hempty Hsome.
  apply Exists_exists in Hsome as (b & Hb & Hfb).
  destruct (bc_funcs b) as [|f tl] eqn:Hf; [done|].
  assert (Hnode : field_node bcs f).
  { exists b. split; [done|]. rewrite Hf. left. }
  pose proof (group_bcs_locals_Err bcs f Hempty Hnode) as Herr.
  split; [|split; [done|split]].
  - destruct (field_graph_spec bcs) as (G & HG & _). by exists G.
  - intros self <-. unfold _group_bcs. by rewrite Herr.
  - intros eqs funcs _eqs Heqs Hbcs. unfold BoundaryConditions_init.
    rewrite Heqs. simpl. rewrite Hbcs. simpl. unfold _group_bcs. simpl.
    by rewrite Herr.
Qed.

(** C1. After a successful construction the object carries the functions,
    the equations and the conditions only: reading [groups] or
    [function_map], or any name other than those three and their
    properties, raises AttributeError. The groups and the map from fields
    to groups exist as locals of [_group_bcs]; the map sends every field
    of every condition to a group that holds it, and it is printed, not
    stored. *)
Theorem BoundaryConditions_groups_not_exposed
    (eqs : list EquationArg) (funcs : option (list FunctionArg))
    (self : BoundaryConditions) (out : Stdout) :
  BoundaryConditions_init eqs funcs = Ok (self, out) →
  BoundaryConditions_getattr self "groups" = Err AttributeError
  ∧ BoundaryConditions_getattr self "function_map" = Err AttributeError
  ∧ (∀ attr, attr ∉ ["equations"; "_eqs"; "bcs"; "_bcs"; "funcs"; "_funcs"]%string →
             BoundaryConditions_getattr self attr = Err AttributeError)
  ∧ ∃ groups f_map,
      group_bcs_locals (bcs_bcs self) = Ok (groups, f_map)
      ∧ out = [f_map]
      ∧ ∀ f, field_node (bcs_bcs self) f →
             ∃ g, f_map !! f = Some g ∧ g ∈ groups ∧ f ∈ cg_funcs g.
Proof.
  intros Hinit. split; [done|]. split; [done|]. split.
  { intros attr Hattr. unfold BoundaryConditions_getattr.
    repeat (rewrite decide_False; [|intros [->| ->]; apply Hattr;
                                     repeat first [left; done|right]]).
    done. }
  unfold BoundaryConditions_init in Hinit.
  apply bind_Ok in Hinit as (es & _ & Hinit).
  apply bind_Ok in Hinit as (bcs & _ & Hinit).
  unfold _group_bcs in Hinit. simpl in Hinit.
  apply bind_Ok in Hinit as ([groups f_map] & Hloc & [= <- <-]). simpl.
  exists groups, f_map. split; [done|]. split; [done|].
  intros f Hf.
  destruct (decide (Exists (fun bc => bc_funcs bc = []) bcs)) as [Hempty|Hfull].
  { by rewrite (group_bcs_locals_Err bcs f) in Hloc. }
  apply not_Exists_Forall in Hfull; [|intros ?; apply _].
  destruct (group_bcs_locals_Ok bcs Hfull)
    as (comps & f_map' & Hloc' & _ & _ & _ & Hmap & _).
  rewrite Hloc' in Hloc. injection Hloc as <- <-.
  destruct (Hmap f Hf) as (c & Hc & Hfc & Hlook).
  eexists. split; [exact Hlook|]. split.
  - change (map ?g ?l) with (g <$> l). apply list_elem_of_fmap. by exists c.
  - simpl. by apply elem_of_elements.
Qed.

(** ** Columns of an array and boolean masks *)

Lemma columns_length K rows :
  Forall (fun r => length r = K) rows → length (columns K rows) = K.
Proof.
  induction 1 as [|r rows Hr _ IH]; simpl.
  - apply repeat_length.
  - rewrite length_zip_with. lia.
Qed.

Lemma columns_col_length K rows :
  Forall (fun c => length c = length rows) (columns K rows).
Proof.
  induction rows as [|r rows IH]; simpl.
  - apply Forall_forall. intros c Hc. apply list_elem_of_In, repeat_spec in Hc.
    by subst.
  - revert IH. generalize (columns K rows). intros cs. revert r.
    induction cs as [|c cs IHcs]; intros r Hall; destruct r; simpl; try constructor.
    + apply list.Forall_cons in Hall as [Hc _]. simpl. by rewrite Hc.
    + apply list.Forall_cons in Hall as [_ Hcs]. by apply IHcs.
Qed.

Lemma is_array_ncols D K a : is_array D K a → D ≠ 0%nat → ncols a = K.
Proof.
  intros [Hlen Hrows] HD. unfold ncols. destruct a as [|r a]; [by subst|].
  by apply list.Forall_cons in Hrows as [? _].
Qed.

Lemma is_array_points_length D K a :
  is_array D K a → D ≠ 0%nat → Forall (fun c => length c = D) (points a).
Proof.
  intros Harr HD. unfold points. destruct Harr as [<- _].
  apply columns_col_length.
Qed.

Lemma select_length_eq {A B} (m : list bool) (xs : list A) (ys : list B) :
  length m = length xs → length m = length ys →
  length (select m xs) = length (select m ys).
Proof.
  revert xs ys. induction m as [|b m IH]; intros [|x xs] [|y ys]; simpl; try done.
  intros [= Hx] [= Hy]. destruct b; simpl; rewrite (IH xs ys); done.
Qed.

Lemma select_zip_with_cons (m : list bool) (r : list Z) (cs : list (list Z)) :
  select m (zip_with cons r cs) = zip_with cons (select m r) (select m cs).
Proof.
  revert r cs. induction m as [|b m IH]; intros [|x r] [|c cs]; simpl; try done.
  - by destruct (if b then _ else _).
  - destruct b; simpl; by rewrite IH.
Qed.

Lemma select_repeat {A} (m : list bool) (x : A) :
  select m (repeat x (length m)) = repeat x (length (select m m)).
Proof. induction m as [|[] m IH]; simpl; by rewrite ?IH. Qed.

Lemma select_map_filter {A} (f : A → bool) (xs : list A) :
  select (map f xs) xs = filter (fun x => f x = true) xs.
Proof.
  induction xs as [|x xs IH]; [done|]. simpl. rewrite filter_cons.
  destruct (f x) eqn:Hfx; rewrite IH.
  - by rewrite decide_True.
  - by rewrite decide_False.
Qed.

Lemma select_sublist {A} (m : list bool) (xs : list A) : select m xs `sublist_of` xs.
Proof.
  revert xs. induction m as [|b m IH]; intros [|x xs]; simpl;
    try apply sublist_nil_l.
  destruct b; [by apply sublist_skip|by apply sublist_cons].
Qed.

Lemma columns_select (m : list bool) rows K :
  length m = K → Forall (fun r => length r = K) rows →
  columns (length (select m m)) (map (select m) rows) = select m (columns K rows).
Proof.
  intros <-. induction 1 as [|r rows Hr _ IH]; simpl.
  - by rewrite select_repeat.
  - by rewrite IH, select_zip_with_cons.
Qed.

Lemma is_array_select D K a (m : list bool) :
  is_array D K a → length m = K →
  is_array D (length (select m m)) (map (select m) a).
Proof.
  intros [Hlen Hrows] Hm. split; [by rewrite length_map|].
  rewrite Forall_forall in Hrows. apply Forall_forall.
  intros r' Hr'. change (map ?g ?l) with (g <$> l) in Hr'.
  apply list_elem_of_fmap in Hr' as (r & -> & Hr).
  apply select_length_eq; [by rewrite (Hrows r Hr)|done].
Qed.

Lemma points_select D K a (m : list bool) :
  is_array D K a → D ≠ 0%nat → length m = K →
  points (map (select m) a) = select m (points a).
Proof.
  intros Harr HD Hm. unfold points.
  rewrite (is_array_ncols D _ _ (is_array_select D K a m Harr Hm) HD).
  rewrite (is_array_ncols D K a Harr HD).
  apply columns_select; [done|]. by destruct Harr.
Qed.

Lemma map_nth_0_zip_with_cons (r : list Z) (cs : list (list Z)) :
  length cs = length r →
  map (fun c => nth 0 c 0) (zip_with cons r cs) = r.
Proof.
  revert cs. induction r as [|x r IH]; intros [|c cs] Hlen; simpl in *; try done.
  f_equal. apply IH. lia.
Qed.

Lemma map_nth_S_zip_with_cons (r : list Z) (cs : list (list Z)) dim :
  length cs = length r →
  map (fun c => nth (S dim) c 0) (zip_with cons r cs) = map (fun c => nth dim c 0) cs.
Proof.
  revert cs. induction r as [|x r IH]; intros [|c cs] Hlen; simpl in *; try done.
  f_equal. apply IH. lia.
Qed.

Lemma nth_row_columns K rows dim :
  Forall (fun r => length r = K) rows → (dim < length rows)%nat →
  nth dim rows [] = map (fun c => nth dim c 0) (columns K rows).
Proof.
  intros Hrows. revert dim.
  induction Hrows as [|r rows Hr Hrows IH]; intros dim Hdim; simpl in *; [lia|].
  pose proof (columns_length K rows Hrows) as Hlen.
  destruct dim as [|dim].
  - rewrite map_nth_0_zip_with_cons; [done|lia].
  - rewrite map_nth_S_zip_with_cons by lia. apply IH. lia.
Qed.

(** One pass of the trimming loop keeps the points whose index along
    [dim] is within the extent. *)
Lemma trim_step_points D K a dim n :
  is_array D K a → (dim < D)%nat →
  let mask := map (fun v => (0 <=? v) && (v <? n)) (nth dim a []) in
  is_array D (length (select mask mask)) (map (select mask) a)
  ∧ points (map (select mask) a) =
      filter (fun c => (0 <=? nth dim c 0) && (nth dim c 0 <? n) = true) (points a).
Proof.
  intros Harr Hdim mask.
  assert (HD : D ≠ 0%nat) by lia.
  assert (Hmask : mask = map (fun c => (0 <=? nth dim c 0) && (nth dim c 0 <? n))
                             (points a)).
  { unfold mask, points. rewrite (is_array_ncols D K a Harr HD).
    destruct Harr as [Hlen Hrows].
    rewrite (nth_row_columns K a dim Hrows) by lia. by rewrite map_map. }
  assert (Hlen : length mask = K).
  { rewrite Hmask, length_map. unfold points.
    rewrite (is_array_ncols D K a Harr HD). apply columns_length. by destruct Harr. }
  split; [by apply (is_array_select D K)|].
  rewrite (points_select D K) by done.
  rewrite Hmask at 1. apply select_map_filter.
Qed.

(** ** np.unique along the columns *)

Lemma lex_compare_eq a b : lex_compare a b = Eq ↔ a = b.
Proof.
  revert b. induction a as [|x a IH]; intros [|y b]; simpl; try done.
  destruct (Z.compare_spec x y) as [->|Hlt|Hgt].
  - rewrite IH. split; [by intros ->|by intros [= ->]].
  - split; [done|]. intros [= -> _]. lia.
  - split; [done|]. intros [= -> _]. lia.
Qed.

Lemma lex_compare_antisym a b : lex_compare a b = CompOpp (lex_compare b a).
Proof.
  revert b. induction a as [|x a IH]; intros [|y b]; simpl; try done.
  rewrite (Z.compare_antisym x y).
  destruct (x ?= y); simpl; [apply IH|done..].
Qed.

Lemma lex_lt_trans a b c : lex_lt a b → lex_lt b c → lex_lt a c.
Proof.
  unfold lex_lt. revert b c.
  induction a as [|x a IH]; intros [|y b] [|z c]; simpl; try done.
  destruct (Z.compare_spec x y) as [->|Hxy|Hxy]; [|..|done].
  - destruct (y ?= z); [apply IH|done..].
  - destruct (Z.compare_spec y z) as [->|Hyz|Hyz]; [| |done]; intros _ _.
    + by apply Z.compare_lt_iff in Hxy as ->.
    + assert (Hxz : x < z) by lia. by apply Z.compare_lt_iff in Hxz as ->.
Qed.

Lemma lex_lt_irrefl a : ¬ lex_lt a a.
Proof.
  unfold lex_lt. assert (Heq : lex_compare a a = Eq) by by apply lex_compare_eq.
  by rewrite Heq.
Qed.

Lemma insert_unique_elem c l x : x ∈ insert_unique c l ↔ x = c ∨ x ∈ l.
Proof.
  induction l as [|s rest IH]; simpl.
  - rewrite list_elem_of_singleton. split; [by left|].
    intros [?|Hx]; [done|]. by apply elem_of_nil in Hx.
  - destruct (lex_compare c s) eqn:Hcmp.
    + apply lex_compare_eq in Hcmp as ->. split; [by right|].
      intros [->|?]; [left|done].
    + rewrite elem_of_cons. done.
    + rewrite !elem_of_cons, IH. tauto.
Qed.

Lemma insert_unique_sorted c l :
  StronglySorted lex_lt l → StronglySorted lex_lt (insert_unique c l).
Proof.
  induction 1 as [|s rest Hsorted IH Hall]; simpl.
  - repeat constructor.
  - destruct (lex_compare c s) eqn:Hcmp.
    + by constructor.
    + constructor; [by constructor|]. constructor; [done|].
      eapply Forall_impl; [exact Hall|]. intros y Hy. by eapply lex_lt_trans.
    + constructor; [done|]. apply Forall_forall. intros y Hy.
      apply insert_unique_elem in Hy as [->|Hy].
      * unfold lex_lt. rewrite lex_compare_antisym, Hcmp. done.
      * rewrite Forall_forall in Hall. by apply Hall.
Qed.

Lemma sort_unique_elem cols x : x ∈ sort_unique cols ↔ x ∈ cols.
Proof.
  unfold sort_unique. induction cols as [|c cols IH]; simpl; [done|].
  rewrite insert_unique_elem, IH, elem_of_cons. done.
Qed.

Lemma sort_unique_sorted cols : StronglySorted lex_lt (sort_unique cols).
Proof.
  unfold sort_unique. induction cols as [|c cols IH]; simpl; [constructor|].
  by apply insert_unique_sorted.
Qed.

Lemma sort_unique_NoDup cols : NoDup (sort_unique cols).
Proof.
  induction (sort_unique_sorted cols) as [|s rest _ IH Hall]; constructor; [|done].
  intros Hin. rewrite Forall_forall in Hall. by apply (lex_lt_irrefl s), Hall.
Qed.

Lemma unique_axis1_spec D K a :
  is_array D K a → D ≠ 0%nat →
  ∃ K', is_array D K' (unique_axis1 a)
    ∧ NoDup (points (unique_axis1 a))
    ∧ StronglySorted lex_lt (points (unique_axis1 a))
    ∧ ∀ c, c ∈ points (unique_axis1 a) ↔ c ∈ points a.
Proof.
  intros Harr HD. unfold unique_axis1.
  pose proof (is_array_points_length D K a Harr HD) as Hcols.
  destruct Harr as [Hlen Hrows]. rewrite Hlen.
  assert (Hcols' : Forall (fun c => length c = D) (sort_unique (points a))).
  { rewrite Forall_forall in Hcols. apply Forall_forall.
    intros c Hc. apply Hcols. by apply sort_unique_elem. }
  exists (length (sort_unique (points a))). split; [|split; [|split]].
  - split; [apply rows_of_length|apply rows_of_row_length].
  - rewrite points_rows_of by done. apply sort_unique_NoDup.
  - rewrite points_rows_of by done. apply sort_unique_sorted.
  - intros c. rewrite points_rows_of by done. apply sort_unique_elem.
Qed.

(** ** The trimming loop and the interior mask *)

Lemma trim_loop_spec shape dims D K a :
  is_array D K a →
  Forall (fun dim => (dim < D)%nat ∧ (dim < length shape)%nat) dims →
  ∃ a' K', trim_loop shape dims a = Ok a'
    ∧ is_array D K' a'
    ∧ points a' `sublist_of` points a
    ∧ ∀ c, c ∈ points a' ↔
           c ∈ points a
           ∧ Forall (fun dim => ∃ n, shape !! dim = Some n
                                     ∧ 0 ≤ nth dim c 0 < n) dims.
Proof.
  intros Harr Hdims. revert K a Harr.
  induction Hdims as [|dim dims [HdimD Hdimshape] _ IH]; intros K a Harr; simpl.
  - exists a, K. split; [done|]. split; [done|]. split; [done|].
    intros c. split; [by intros ?|by intros [? _]].
  - unfold tuple_getitem.
    destruct (shape !! dim) as [n|] eqn:Hn;
      [|apply lookup_ge_None in Hn; lia].
    simpl.
    destruct (trim_step_points D K a dim n Harr HdimD) as [Harr' Hpts].
    destruct (IH _ _ Harr') as (a' & K' & Hloop & Harr'' & Hsub & Hmem).
    exists a', K'. split; [done|]. split; [done|]. split.
    + etrans; [exact Hsub|]. rewrite Hpts. apply sublist_filter.
    + intros c. rewrite Hmem, Hpts, list_elem_of_filter, list.Forall_cons.
      rewrite andb_true_iff, Z.leb_le, Z.ltb_lt. split.
      * intros [[Hrange Hc] Hall]. split; [done|]. split; [|done].
        exists n. split; [done|lia].
      * intros [Hc [(n' & Hn' & Hrange) Hall]]. split; [|done].
        split; [|done]. assert (n' = n) as -> by congruence. lia.
Qed.

Lemma flat_offset_Ok shape idx acc :
  in_grid shape idx → 0 ≤ acc →
  ∃ off, flat_offset shape idx acc = Ok off
         ∧ 0 ≤ off < (acc + 1) * foldr Z.mul 1 shape.
Proof.
  intros Hin. revert acc.
  induction Hin as [|i n idx shape Hi _ IH]; intros acc Hacc; simpl.
  - exists acc. split; [done|lia].
  - assert (Hneg : (i <? 0) = false) by (apply Z.ltb_ge; lia).
    assert (Hle : (0 <=? i) = true) by (apply Z.leb_le; lia).
    assert (Hlt : (i <? n) = true) by (apply Z.ltb_lt; lia).
    rewrite Hneg, Hle, Hlt. simpl.
    destruct (IH (acc * n + i)) as (off & Hoff & Hrange); [nia|].
    exists off. split; [done|].
    set (P := foldr Z.mul 1 shape) in *.
    assert (Hmul : 0 ≤ acc * n) by (apply Z.mul_nonneg_nonneg; lia).
    assert (Hprod : 0 ≤ P).
    { destruct (Z.le_gt_cases 0 P) as [|Hneg']; [done|].
      pose proof (Z.mul_nonneg_nonpos (acc * n + i + 1) P ltac:(lia) ltac:(lia)).
      lia. }
    split; [lia|].
    pose proof (Z.mul_le_mono_nonneg_r (acc * n + i + 1) (acc * n + n) P Hprod
                  ltac:(lia)).
    replace ((acc + 1) * (n * P)) with ((acc * n + n) * P) by ring. lia.
Qed.

Lemma nd_item_Ok a idx :
  nd_well_shaped a → in_grid (nd_shape a) idx → ∃ b, nd_item a idx = Ok b.
Proof.
  intros Hwf Hin. unfold nd_item.
  destruct (flat_offset_Ok (nd_shape a) idx 0 Hin) as (off & -> & Hoff); [done|].
  simpl. unfold tuple_getitem.
  destruct (nd_data a !! Z.to_nat off) as [b|] eqn:Hb; [by exists b|].
  apply lookup_ge_None in Hb. unfold nd_well_shaped in Hwf. lia.
Qed.

Lemma select_Forall2 {A} (f : A → Result bool) (xs : list A) (bs : list bool) :
  Forall2 (fun x b => f x = Ok b) xs bs →
  ∀ x, x ∈ select bs xs ↔ x ∈ xs ∧ f x = Ok true.
Proof.
  induction 1 as [|x b xs bs Hx _ IH]; intros y; simpl.
  - split; [by intros ?%elem_of_nil|by intros [?%elem_of_nil _]].
  - destruct b.
    + rewrite !elem_of_cons, IH. split; [intros [->|[? ?]]; tauto|].
      intros [[->|?] ?]; tauto.
    + rewrite IH, elem_of_cons. split; [tauto|].
      intros [[->|?] Hy]; [congruence|done].
Qed.

(** ** The broadcast sum of boundary points and footprint *)

Lemma outer_add_length brow frow :
  length (outer_add brow frow) = (length brow * length frow)%nat.
Proof.
  unfold outer_add. induction brow as [|b brow IH]; simpl; [done|].
  by rewrite length_app, length_map, IH.
Qed.

Lemma zip_with_cons_map_add (x : Z) (b : list Z) (fr : list Z) (cf : list (list Z)) :
  zip_with cons (map (fun y => x + y) fr) (map (zip_with Z.add b) cf)
  = map (zip_with Z.add (x :: b)) (zip_with cons fr cf).
Proof.
  revert cf. induction fr as [|y fr IH]; intros [|c cf]; simpl; try done.
  by rewrite IH.
Qed.

Lemma zip_with_cons_outer_add (br fr : list Z) (cb cf : list (list Z)) :
  length cb = length br → length cf = length fr →
  zip_with cons (outer_add br fr)
                (flat_map (fun b => map (zip_with Z.add b) cf) cb)
  = flat_map (fun b => map (zip_with Z.add b) (zip_with cons fr cf))
             (zip_with cons br cb).
Proof.
  intros Hb Hf. revert cb Hb. unfold outer_add.
  induction br as [|x br IH]; intros [|b cb] Hb; simpl in *; try done.
  rewrite zip_with_app by (by rewrite !length_map).
  rewrite zip_with_cons_map_add. f_equal. apply IH. lia.
Qed.

Lemma flat_map_repeat_nil (K N : nat) :
  flat_map (fun b : list Z => map (zip_with Z.add b) (repeat [] K)) (repeat [] N)
  = repeat [] (N * K).
Proof.
  induction N as [|N IH]; simpl; [done|].
  rewrite IH, repeat_app. f_equal.
  clear IH. induction K as [|K IHK]; simpl; [done|]. by rewrite IHK.
Qed.

Lemma columns_broadcast D N K bp fp :
  is_array D N bp → is_array D K fp →
  columns (N * K) (zip_with outer_add bp fp)
  = flat_map (fun b => map (zip_with Z.add b) (columns K fp)) (columns N bp).
Proof.
  intros [Hlb Hb] [Hlf Hf]. revert D fp Hlb Hlf Hf.
  induction Hb as [|br bp Hbr Hb IH]; intros D fp Hlb Hlf Hf.
  - simpl. destruct fp; [|simpl in *; lia]. simpl.
    by rewrite flat_map_repeat_nil.
  - destruct fp as [|fr fp]; [simpl in *; lia|].
    apply list.Forall_cons in Hf as [Hfr Hf]. simpl.
    rewrite (IH (length bp) fp) by (simpl in *; lia || done).
    apply zip_with_cons_outer_add.
    + by rewrite columns_length.
    + by rewrite columns_length.
Qed.

Lemma broadcast_add_spec D N K bp fp :
  D ≠ 0%nat → is_array D N bp → is_array D K fp →
  ∃ mp, broadcast_add bp fp = Ok mp
    ∧ reshape_rows (length bp) mp = mp
    ∧ is_array D (N * K) mp
    ∧ points mp
      = flat_map (fun b => map (zip_with Z.add b) (points fp)) (points bp).
Proof.
  intros HD Hbp Hfp.
  assert (Harr : is_array D (N * K) (zip_with outer_add bp fp)).
  { destruct Hbp as [Hlb Hb], Hfp as [Hlf Hf]. split.
    - rewrite length_zip_with. lia.
    - clear Hlb Hlf. revert fp Hf.
      induction Hb as [|br bp Hbr _ IH]; intros [|fr fp] Hf; simpl; try constructor.
      + apply list.Forall_cons in Hf as [Hfr _].
        by rewrite outer_add_length, Hbr, Hfr.
      + apply list.Forall_cons in Hf as [_ Hf]. by apply IH. }
  exists (zip_with outer_add bp fp). unfold broadcast_add, reshape_rows.
  pose proof Hbp as [Hlb _]. pose proof Hfp as [Hlf _]. pose proof Harr as [Hlm _].
  destruct bp as [|br bp]; [simpl in *; lia|].
  rewrite decide_True by lia. split; [done|].
  split; [by rewrite decide_True by lia|]. split; [done|].
  unfold points.
  rewrite (is_array_ncols D _ _ Harr HD), (is_array_ncols D _ _ Hbp HD),
    (is_array_ncols D _ _ Hfp HD).
  by apply (columns_broadcast D).
Qed.

Lemma Forall_exists_Forall2 {A B} (R : A → B → Prop) (l : list A) :
  Forall (fun a => ∃ b, R a b) l → ∃ k, Forall2 R l k.
Proof.
  induction 1 as [|a l [b Hb] _ [k Hk]]; [by exists []|].
  exists (b :: k). by constructor.
Qed.

Lemma in_grid_lookup shape (c : list Z) :
  length c = length shape →
  Forall (fun dim => ∃ n, shape !! dim = Some n ∧ 0 ≤ nth dim c 0 < n)
         (seq 0 (length shape)) →
  in_grid shape c.
Proof.
  intros Hlen Hall. apply Forall2_same_length_lookup. split; [done|].
  intros dim i n Hi Hn. rewrite Forall_forall in Hall.
  destruct (Hall dim) as (n' & Hn' & Hrange).
  { apply elem_of_seq. apply lookup_lt_Some in Hn. lia. }
  rewrite nth_lookup, Hi in Hrange. simpl in Hrange.
  assert (n' = n) as -> by congruence. done.
Qed.

Lemma in_grid_Forall shape (c : list Z) :
  in_grid shape c →
  Forall (fun dim => ∃ n, shape !! dim = Some n ∧ 0 ≤ nth dim c 0 < n)
         (seq 0 (length shape)).
Proof.
  intros Hin. apply Forall_forall. intros dim Hdim. apply elem_of_seq in Hdim.
  destruct (lookup_lt_is_Some_2 shape dim) as [n Hn]; [lia|].
  destruct (Forall2_lookup_r _ _ _ _ _ Hin Hn) as (i & Hi & Hrange).
  exists n. split; [done|]. by rewrite nth_lookup, Hi.
Qed.

(** ** The skin of modified points (C5, C8) *)

(** C5. On a geometry whose boundary points, grid shape and interior mask
    have the dimension of the field, [_get_points] returns an array of
    points without repetition, each with an index in [0, extent) on every
    axis and classified interior by [interior_mask]; these are exactly
    the sums of a boundary point and a footprint offset that lie in the
    grid and in the interior. *)
Theorem modified_points_interior (f : Function) (ddims : list Dimension)
    (geometry : BoundaryGeometry) (N : nat) :
  space_dimensions f ≠ [] →
  is_array (length (space_dimensions f)) N (boundary_points geometry) →
  length (grid_shape geometry) = length (space_dimensions f) →
  nd_shape (interior_mask geometry) = grid_shape geometry →
  nd_well_shaped (interior_mask geometry) →
  ∃ fp mp K,
    stencil_footprint (Func f, ddims) = Ok fp
    ∧ _get_points (Func f, ddims) geometry = Ok mp
    ∧ is_array (length (space_dimensions f)) K mp
    ∧ NoDup (points mp)
    ∧ (∀ p, p ∈ points mp →
            in_grid (grid_shape geometry) p
            ∧ nd_item (interior_mask geometry) p = Ok true)
    ∧ (∀ p, p ∈ points mp ↔
            (∃ b o, b ∈ points (boundary_points geometry) ∧ o ∈ points fp
                    ∧ p = zip_with Z.add b o)
            ∧ in_grid (grid_shape geometry) p
            ∧ nd_item (interior_mask geometry) p = Ok true).
Proof.
  intros Hdims Hbp Hshape Hmask Hwf.
  set (D := length (space_dimensions f)) in *.
  assert (HD : D ≠ 0%nat) by (unfold D; by destruct (space_dimensions f)).
  destruct (stencil_footprint_Ok f ddims Hdims) as (fp & Hfp & Hlfp & Hrfp & _).
  assert (Hfparr : is_array D (ncols fp) fp) by done.
  destruct (broadcast_add_spec D N (ncols fp) _ fp HD Hbp Hfparr)
    as (mp0 & Hmp0 & Hreshape & Harr0 & Hpts0).
  destruct (unique_axis1_spec D _ mp0 Harr0 HD) as (K1 & Harr1 & Hnd1 & _ & Hmem1).
  destruct (trim_loop_spec (grid_shape geometry) (seq 0 D) D K1 (unique_axis1 mp0) Harr1)
    as (mp2 & K2 & Htrim & Harr2 & Hsub2 & Hmem2).
  { apply Forall_forall. intros dim Hdim%elem_of_seq. lia. }
  assert (Hgrid : ∀ c, c ∈ points mp2 ↔
                       c ∈ points mp0 ∧ in_grid (grid_shape geometry) c).
  { intros c. rewrite Hmem2, Hmem1. split.
    - intros [Hc Hall]. split; [done|]. apply in_grid_lookup.
      + pose proof (is_array_points_length D _ mp0 Harr0 HD) as Hlen.
        rewrite Forall_forall in Hlen. rewrite (Hlen c Hc). lia.
      + by rewrite Hshape.
    - intros [Hc Hin]. split; [done|]. rewrite <- Hshape. by apply in_grid_Forall. }
  destruct (Forall_exists_Forall2
              (fun c b => nd_item (interior_mask geometry) c = Ok b) (points mp2))
    as [interior Hinterior].
  { apply Forall_forall. intros c Hc. apply Hgrid in Hc as [_ Hc].
    apply nd_item_Ok; [done|]. by rewrite Hmask. }
  assert (Hlint : length interior = K2).
  { rewrite <- (Forall2_length _ _ _ Hinterior). unfold points.
    rewrite (is_array_ncols D K2 mp2 Harr2 HD). apply columns_length.
    by destruct Harr2. }
  pose proof (select_Forall2 _ _ _ Hinterior) as Hsel.
  pose proof (points_select D K2 mp2 interior Harr2 HD Hlint) as Hpts.
  exists fp, (map (select interior) mp2), (length (select interior interior)).
  split; [done|]. split.
  { unfold _get_points. apply bind_Ok. exists fp. split; [done|].
    apply bind_Ok. exists mp0. split; [done|]. cbv zeta. rewrite Hreshape.
    destruct Harr1 as [Hl1 Hr1]. rewrite Hl1.
    apply bind_Ok. exists mp2. split; [done|].
    apply bind_Ok. exists interior. split; [|done].
    unfold nd_take. destruct Harr2 as [Hl2 _].
    rewrite decide_True by (rewrite Hl2, Hmask; lia).
    by apply mapM_Ok_Forall2. }
  split; [by apply (is_array_select D K2)|]. rewrite Hpts. split.
  { eapply sublist_NoDup; [exact Hnd1|].
    etrans; [apply select_sublist|done]. }
  split.
  - intros p Hp. apply Hsel in Hp as [Hp Hint]. apply Hgrid in Hp as [_ Hp]. done.
  - intros p. rewrite Hsel, Hgrid, Hpts0. rewrite list_elem_of_In, in_flat_map.
    split.
    + intros [[(b & Hb & Ho) Hin] Hint]. apply in_map_iff in Ho as (o & <- & Ho).
      split; [|done]. exists b, o. by rewrite !list_elem_of_In.
    + intros [(b & o & Hb & Ho & ->) [Hin Hint]]. split; [|done]. split; [|done].
      exists b. split; [by apply list_elem_of_In|].
      apply in_map_iff. exists o. split; [done|by apply list_elem_of_In].
Qed.

Lemma zip_with_outer_add_nil D (fp : Array2) :
  length fp = D → zip_with outer_add (repeat [] D) fp = repeat [] D.
Proof.
  revert fp. induction D as [|D IH]; intros [|r fp] Hlen; simpl in *; try done.
  rewrite IH by lia. done.
Qed.

Lemma rows_of_nil D : rows_of D [] = repeat [] D.
Proof. induction D as [|D IH]; simpl; [done|]. by rewrite IH. Qed.

Lemma points_repeat_nil D : D ≠ 0%nat → points (repeat [] D) = [].
Proof. destruct D; [done|]. intros _. reflexivity. Qed.

Lemma select_nil_rows D : map (@select Z []) (repeat [] D) = repeat [] D.
Proof.
  induction D as [|D IH]; [done|].
  change (repeat [] (S D)) with (@nil Z :: repeat [] D).
  by rewrite map_cons, IH.
Qed.

Lemma trim_loop_empty shape dims D :
  Forall (fun dim => (dim < length shape)%nat) dims →
  trim_loop shape dims (repeat [] D) = Ok (repeat [] D).
Proof.
  induction 1 as [|dim dims Hdim _ IH]; simpl; [done|].
  unfold tuple_getitem.
  destruct (shape !! dim) as [n|] eqn:Hn; [|apply lookup_ge_None in Hn; lia].
  simpl. rewrite nth_repeat. simpl. by rewrite select_nil_rows.
Qed.

Lemma broadcast_add_empty D (fp : Array2) :
  D ≠ 0%nat → length fp = D →
  broadcast_add (repeat [] D) fp = Ok (repeat [] D).
Proof.
  intros HD Hlen. unfold broadcast_add.
  rewrite decide_True by (by rewrite repeat_length).
  rewrite zip_with_outer_add_nil by done. by destruct D.
Qed.

(** C8. When the geometry has no boundary point (its [boundary_points]
    are empty index arrays, one per axis), [_get_points] raises nothing
    and returns empty index arrays: the set of modified points is
    empty. *)
Theorem modified_points_empty_boundary (f : Function) (ddims : list Dimension)
    (geometry : BoundaryGeometry) :
  space_dimensions f ≠ [] →
  boundary_points geometry = repeat [] (length (space_dimensions f)) →
  length (grid_shape geometry) = length (space_dimensions f) →
  length (nd_shape (interior_mask geometry)) = length (space_dimensions f) →
  _get_points (Func f, ddims) geometry = Ok (repeat [] (length (space_dimensions f)))
  ∧ points (repeat [] (length (space_dimensions f))) = [].
Proof.
  intros Hdims Hbp Hshape Hmask.
  set (D := length (space_dimensions f)) in *.
  assert (HD : D ≠ 0%nat) by (unfold D; by destruct (space_dimensions f)).
  split; [|by apply points_repeat_nil].
  destruct (stencil_footprint_Ok f ddims Hdims) as (fp & Hfp & Hlfp & _).
  unfold _get_points. rewrite Hbp. apply bind_Ok. exists fp. split; [done|].
  apply bind_Ok. exists (repeat [] D). split.
  { by apply broadcast_add_empty. }
  cbv zeta. unfold reshape_rows. rewrite decide_True by done.
  unfold unique_axis1. rewrite points_repeat_nil by done.
  change (sort_unique []) with (@nil (list Z)).
  rewrite repeat_length, rows_of_nil, repeat_length.
  apply bind_Ok. exists (repeat [] D). split.
  { apply trim_loop_empty. apply Forall_forall. intros dim Hdim%elem_of_seq. lia. }
  apply bind_Ok. exists []. split.
  - unfold nd_take. rewrite decide_True by (rewrite repeat_length; lia).
    by rewrite points_repeat_nil.
  - by rewrite select_nil_rows.
Qed.

(** ** The statements at the sample objects *)

Lemma stencil_footprint_even_order_witness :
  ∃ fp, stencil_footprint (Func sample_f, ["x"%string]) = Ok fp
        ∧ length fp = 2%nat
        ∧ footprint_spans sample_f ["x"%string] !! 0%nat = Some [-1; 0; 1]
        ∧ footprint_spans sample_f ["x"%string] !! 1%nat = Some [0].
Proof.
  destruct (stencil_footprint_even_order sample_f ["x"%string] 2)
    as (fp & Hfp & Hlen & _ & _);
    [reflexivity|lia|reflexivity|discriminate|].
  exists fp. split; [exact Hfp|]. split; [exact Hlen|]. split; reflexivity.
Defined.

Lemma stencil_footprint_odd_order_witness :
  ∃ fp, stencil_footprint (Func sample_k, ["x"%string]) = Ok fp
        ∧ length fp = 2%nat
        ∧ footprint_spans sample_k ["x"%string] !! 0%nat = Some [-2; -1; 0; 1].
Proof.
  destruct (stencil_footprint_odd_order sample_k ["x"%string] 3)
    as (fp & Hfp & Hlen & _ & _);
    [reflexivity|lia|reflexivity|discriminate|].
  exists fp. split; [exact Hfp|]. split; [exact Hlen|]. reflexivity.
Defined.

Lemma BoundaryCondition_init_unsupported_iff_witness :
  (∃ msg, BoundaryCondition_init
            (mkEq (Derivative (Func sample_c) ["x"%string]) (Const 0)) None
          = Err (NotImplementedError msg))
  ∧ ∃ bc, BoundaryCondition_init sample_eq1 None = Ok bc.
Proof.
  split.
  - apply (BoundaryCondition_init_unsupported_iff
             (mkEq (Derivative (Func sample_c) ["x"%string]) (Const 0)) None).
    right. exists (Func sample_c), ["x"%string]. split; [left|].
    right. exists sample_c. split; [reflexivity|].
    vm_compute. intros Hin. inversion Hin.
  - destruct (proj1 (proj2 (BoundaryCondition_init_unsupported_iff sample_eq1 None)))
      as [Hok _].
    destruct (BoundaryCondition_init sample_eq1 None) as [bc|e] eqn:Hinit;
      [by exists bc|vm_compute in Hinit; discriminate].
Defined.

Lemma BoundaryCondition_dims_witness :
  BoundaryCondition_init sample_eq1 None = Ok sample_bc1
  ∧ (∀ d, d ∈ ["x"%string] ↔
          ∃ f dd, (Func f, dd) ∈ derivative_nodes (lhs sample_eq1)
                  ∧ f ∈ [sample_f; sample_g] ∧ d ∈ dd).
Proof.
  split; [reflexivity|].
  apply (BoundaryCondition_dims sample_eq1 None sample_bc1). reflexivity.
Defined.

Lemma group_bcs_connected_components_witness :
  Forall (fun bc => bc_funcs bc ≠ []) [sample_bc1; sample_bc2; sample_bc3]
  ∧ ∃ groups f_map,
      group_bcs_locals [sample_bc1; sample_bc2; sample_bc3] = Ok (groups, f_map)
      ∧ ∀ g, g ∈ groups → NoDup (cg_funcs g).
Proof.
  assert (Hne : Forall (fun bc => bc_funcs bc ≠ []) [sample_bc1; sample_bc2; sample_bc3])
    by (repeat constructor; discriminate).
  split; [exact Hne|].
  destruct (group_bcs_connected_components [sample_bc1; sample_bc2; sample_bc3] Hne)
    as (groups & f_map & Hloc & Hcomp & _).
  exists groups, f_map. split; [exact Hloc|].
  intros g Hg. exact (proj1 (Hcomp g Hg)).
Defined.

Lemma grouping_order_independent_witness :
  reordered [sample_bc1; sample_bc2; sample_bc3] [sample_bc3'; sample_bc1'; sample_bc2]
  ∧ result_field_sets (group_bcs_locals [sample_bc1; sample_bc2; sample_bc3])
    = result_field_sets (group_bcs_locals [sample_bc3'; sample_bc1'; sample_bc2]).
Proof.
  assert (Hre : reordered [sample_bc1; sample_bc2; sample_bc3]
                          [sample_bc3'; sample_bc1'; sample_bc2]).
  { exists [sample_bc3; sample_bc1; sample_bc2]. split.
    - change [sample_bc1; sample_bc2; sample_bc3]
        with ([sample_bc1; sample_bc2] ++ [sample_bc3]).
      apply (Permutation_app_comm [sample_bc1; sample_bc2] [sample_bc3]).
    - repeat constructor; apply Permutation_swap. }
  split; [exact Hre|].
  exact (proj1 grouping_order_independent _ _ Hre).
Defined.

Lemma group_bcs_empty_field_tuple_witness :
  _setup_bcs (Some [sample_f; sample_g]) [sample_eq1; sample_eq2]
    = Ok [sample_bc1; sample_bc2_empty]
  ∧ BoundaryConditions_init [ScalarEq sample_eq1; ScalarEq sample_eq2]
      (Some [ScalarFunction sample_f; ScalarFunction sample_g])
    = Err IndexError.
Proof.
  split; [reflexivity|].
  apply (group_bcs_empty_field_tuple [sample_bc1; sample_bc2_empty]) with
    (_eqs := [sample_eq1; sample_eq2]).
  - apply Exists_cons_tl, Exists_cons_hd. reflexivity.
  - apply Exists_cons_hd. discriminate.
  - reflexivity.
  - reflexivity.
Defined.

Lemma BoundaryConditions_groups_not_exposed_witness :
  ∃ self out,
    BoundaryConditions_init [ScalarEq sample_eq1; ScalarEq sample_eq2] None
      = Ok (self, out)
    ∧ BoundaryConditions_getattr self "groups" = Err AttributeError
    ∧ BoundaryConditions_getattr self "function_map" = Err AttributeError.
Proof.
  destruct (BoundaryConditions_init [ScalarEq sample_eq1; ScalarEq sample_eq2] None)
    as [[self out]|e] eqn:Hinit; [|vm_compute in Hinit; discriminate].
  exists self, out. split; [reflexivity|].
  destruct (BoundaryConditions_groups_not_exposed _ _ self out Hinit)
    as (Hgroups & Hmap & _).
  split; [exact Hgroups|exact Hmap].
Defined.

Lemma modified_points_interior_witness :
  ∃ mp, _get_points (Func sample_f, ["y"%string]) sample_geometry = Ok mp
        ∧ NoDup (points mp)
        ∧ ∀ p, p ∈ points mp →
               in_grid [4; 4] p ∧ nd_item sample_mask p = Ok true.
Proof.
  destruct (modified_points_interior sample_f ["y"%string] sample_geometry 4)
    as (fp & mp & K & _ & Hmp & _ & Hnd & Hin & _).
  - discriminate.
  - split; [reflexivity|]. repeat constructor.
  - reflexivity.
  - reflexivity.
  - reflexivity.
  - exists mp. split; [exact Hmp|]. split; [exact Hnd|exact Hin].
Defined.

Lemma modified_points_empty_boundary_witness :
  _get_points (Func sample_f, ["x"; "y"]%string) sample_geometry_empty
  = Ok [[]; []].
Proof.
  apply (modified_points_empty_boundary sample_f ["x"; "y"]%string
           sample_geometry_empty).
  - discriminate.
  - reflexivity.
  - reflexivity.
  - reflexivity.
Defined.

(** * Further properties of the code *)

(** ** BoundaryCondition: the selected fields and the errors *)

(** X1. [_get_functions] returns the selected fields without repetition:
    the fields of the left-hand side that are time dependent when no
    whitelist is given, and those that are in the whitelist otherwise. A
    whitelist that meets no field of the left-hand side selects nothing,
    and only the set of fields of the whitelist matters. *)
Theorem get_functions_selection (eq : DvEq) :
  (∀ funcs, NoDup (_get_functions eq funcs))
  ∧ (∀ f, f ∈ _get_functions eq None ↔
          f ∈ retrieve_functions (lhs eq) ∧ is_TimeDependent f = true)
  ∧ (∀ fs f, f ∈ _get_functions eq (Some fs) ↔
             f ∈ retrieve_functions (lhs eq) ∧ f ∈ fs)
  ∧ (∀ fs, (∀ f, f ∈ retrieve_functions (lhs eq) → f ∉ fs) →
           _get_functions eq (Some fs) = [])
  ∧ (∀ fs fs', (∀ f, f ∈ fs ↔ f ∈ fs') →
               _get_functions eq (Some fs) = _get_functions eq (Some fs')).
Proof.
  split; [apply _get_functions_NoDup|].
  split; [intros f; apply (_get_functions_elem eq None)|].
  split; [intros fs f; apply (_get_functions_elem eq (Some fs))|].
  split.
  - intros fs Hdisj.
    destruct (_get_functions eq (Some fs)) as [|f l] eqn:Hsel; [done|].
    assert (Hf : f ∈ _get_functions eq (Some fs)) by (rewrite Hsel; left).
    apply (_get_functions_elem eq (Some fs)) in Hf as [Hlhs Hfs].
    by destruct (Hdisj f Hlhs).
  - intros fs fs' Hsame. unfold _get_functions. by apply list_filter_iff.
Qed.

Lemma derivative_loop_coefficient funcs derivs dims :
  derivative_loop funcs derivs dims
    = Err (NotImplementedError "Derivatives of coefficent functions unsupported") →
  ∃ f dd, (Func f, dd) ∈ derivs ∧ f ∉ funcs.
Proof.
  revert dims. induction derivs as [|[e dd] derivs IH]; intros dims; simpl; [done|].
  destruct e as [z|s|f|e' dd'|a b|a b]; try done.
  destruct (decide (f ∈ funcs)) as [Hin|Hnin].
  - intros (f' & dd' & Hin' & Hnin')%IH. exists f', dd'. split; [by right|done].
  - intros _. exists f, dd. split; [left|done].
Qed.

(** X2. The messages tell the cause: the constructor raises "Nonzero RHS
    currently unsupported" exactly when the right-hand side is not zero,
    whatever the left-hand side; and when it raises "Derivatives of
    coefficent functions unsupported", the right-hand side is zero and
    the left-hand side has a derivative of a field that is not
    selected. *)
Theorem BoundaryCondition_init_messages (eq : DvEq) (funcs : option (list Function)) :
  (BoundaryCondition_init eq funcs
     = Err (NotImplementedError "Nonzero RHS currently unsupported")
   ↔ rhs eq ≠ Const 0)
  ∧ (BoundaryCondition_init eq funcs
       = Err (NotImplementedError "Derivatives of coefficent functions unsupported") →
     rhs eq = Const 0
     ∧ ∃ f dd, (Func f, dd) ∈ derivative_nodes (lhs eq)
               ∧ f ∉ _get_functions eq funcs).
Proof.
  unfold BoundaryCondition_init, _parse_rhs.
  destruct (decide (rhs eq ≠ Const 0)) as [Hrhs|Hrhs]; simpl.
  { split; [done|]. intros [=]. }
  assert (Hzero : rhs eq = Const 0) by (by destruct (decide (rhs eq = Const 0))).
  unfold _get_derivative_dimensions, find_Derivative.
  destruct (derivative_loop (_get_functions eq funcs)
              (remove_dups (derivative_nodes (lhs eq))) []) as [ds|e] eqn:Hloop;
    simpl.
  { split; [|done]. split; [done|]. by intros ?. }
  split.
  - split; [|by intros ?]. intros [= ->].
    clear Hzero Hrhs. revert Hloop. generalize (@nil Dimension).
    induction (remove_dups (derivative_nodes (lhs eq))) as [|[e dd] derivs IH];
      intros dims; simpl; [done|].
    destruct e as [z|s|f|e' dd'|a b|a b]; try done.
    destruct (decide (f ∈ _get_functions eq funcs)); [apply IH|done].
  - intros [= ->]. split; [done|].
    apply derivative_loop_coefficient in Hloop as (f & dd & Hin & Hnin).
    exists f, dd. split; [by apply elem_of_remove_dups|done].
Qed.

(** X3. A condition that was constructed differentiates selected fields
    only: each derivative of its left-hand side is of a bare field of
    [funcs], which is a field of the left-hand side. So a condition
    without any selected field has no derivative, and its [dims] is
    None. *)
Theorem BoundaryCondition_derivatives_selected (eq : DvEq)
    (funcs : option (list Function)) (bc : BoundaryCondition) :
  BoundaryCondition_init eq funcs = Ok bc →
  rhs (bc_eq bc) = Const 0
  ∧ NoDup (bc_funcs bc)
  ∧ (∀ f, f ∈ bc_funcs bc → f ∈ retrieve_functions (lhs eq))
  ∧ (∀ e dd, (e, dd) ∈ derivative_nodes (lhs eq) →
             ∃ f, e = Func f ∧ f ∈ bc_funcs bc)
  ∧ (bc_funcs bc = [] → derivative_nodes (lhs eq) = [] ∧ bc_dims bc = None).
Proof.
  intros Hinit.
  apply BoundaryCondition_init_Ok in Hinit
    as (Hrhs & Heq & Hfuncs & Hall & ds & Hdims & Hnd & Hmem).
  rewrite Heq, Hfuncs. split; [done|].
  split; [apply _get_functions_NoDup|]. split.
  { intros f Hf. by apply _get_functions_elem in Hf as [? _]. }
  rewrite Hfuncs in Hall. rewrite Forall_forall in Hall. split.
  { intros e dd Hn. destruct (Hall _ Hn) as (f & Hf & Hin). by exists f. }
  intros Hnil.
  assert (Hnodes : derivative_nodes (lhs eq) = []).
  { destruct (derivative_nodes (lhs eq)) as [|n nodes]; [done|].
    destruct (Hall n) as (f & _ & Hin); [left|].
    rewrite Hnil in Hin. by apply elem_of_nil in Hin. }
  split; [done|]. rewrite Hdims.
  destruct ds as [|d ds']; [done|].
  assert (Hd : d ∈ d :: ds') by left.
  apply Hmem in Hd as (n & Hn & _). rewrite Hnodes in Hn.
  by apply elem_of_nil in Hn.
Qed.

(** ** BoundaryConditions: flattening, conditions and errors *)

Lemma mapM_Err {A B} (f : A → Result B) (l : list A) (e : PyError) :
  mapM f l = Err e ↔
    ∃ i a, l !! i = Some a ∧ f a = Err e
           ∧ ∀ j a', (j < i)%nat → l !! j = Some a' → ∃ b, f a' = Ok b.
Proof.
  induction l as [|a l IH]; simpl.
  - split; [done|]. by intros (i & a & Hi & _).
  - assert (Hshift : (∃ i a0, l !! i = Some a0 ∧ f a0 = Err e
                       ∧ ∀ j a', (j < i)%nat → l !! j = Some a' → ∃ b, f a' = Ok b)
                     → ∀ b, f a = Ok b →
                       ∃ i a0, (a :: l) !! i = Some a0 ∧ f a0 = Err e
                         ∧ ∀ j a', (j < i)%nat → (a :: l) !! j = Some a' →
                                   ∃ b, f a' = Ok b).
    { intros (i & a0 & Hi & Hfa0 & Hbefore) b Hb. exists (S i), a0.
      split; [done|]. split; [done|].
      intros [|j] a' Hj Hj'; simpl in Hj'.
      - injection Hj' as <-. by exists b.
      - apply (Hbefore j); [lia|done]. }
    assert (Hunshift : ∀ b, f a = Ok b →
              (∃ i a0, (a :: l) !! i = Some a0 ∧ f a0 = Err e
                 ∧ ∀ j a', (j < i)%nat → (a :: l) !! j = Some a' → ∃ b, f a' = Ok b)
              → ∃ i a0, l !! i = Some a0 ∧ f a0 = Err e
                  ∧ ∀ j a', (j < i)%nat → l !! j = Some a' → ∃ b, f a' = Ok b).
    { intros b Hb (i & a0 & Hi & Hfa0 & Hbefore).
      destruct i as [|i]; simpl in Hi; [congruence|].
      exists i, a0. split; [done|]. split; [done|].
      intros j a' Hj Hj'. apply (Hbefore (S j)); [lia|done]. }
    destruct (f a) as [b|e'] eqn:Hfa; simpl.
    + destruct (mapM f l) as [k|e''] eqn:Hl; simpl.
      * split; [done|]. intros Hex. by apply (Hunshift b), IH in Hex.
      * split.
        -- intros [= ->]. apply (Hshift (proj1 IH eq_refl) b eq_refl).
        -- intros Hex. by apply (Hunshift b), IH in Hex.
    + split.
      * intros [= ->]. exists 0%nat, a. split; [done|]. split; [done|]. lia.
      * intros (i & a0 & Hi & Hfa0 & Hbefore). destruct i as [|i]; simpl in Hi.
        -- injection Hi as <-. congruence.
        -- destruct (Hbefore 0%nat a) as [b Hb]; [lia|done|congruence].
Qed.

Lemma elem_of_concat {A} (x : A) (ls : list (list A)) :
  x ∈ concat ls ↔ ∃ l, l ∈ ls ∧ x ∈ l.
Proof.
  rewrite list_elem_of_In, in_concat. split.
  - intros (l & Hl & Hx). exists l. by rewrite !list_elem_of_In.
  - intros (l & Hl & Hx). exists l. by rewrite <- !list_elem_of_In.
Qed.

Lemma _flatten_equations_Err eqs e :
  _flatten_equations eqs = Err e ↔
    e = TypeError ∧ Exists (fun eq => _flatten eq = None) eqs.
Proof.
  unfold _flatten_equations. generalize (@nil DvEq).
  induction eqs as [|eq eqs IH]; intros acc; simpl.
  - split; [done|]. intros [_ Hex]. by apply Exists_nil in Hex.
  - destruct (_flatten eq) as [flat|] eqn:Hflat; simpl.
    + rewrite IH, Exists_cons. split; [tauto|].
      intros [? [?|?]]; [congruence|done].
    + split.
      * intros [= <-]. split; [done|]. by apply Exists_cons_hd.
      * by intros [-> _].
Qed.

Lemma _flatten_equations_Ok_elem eqs es :
  _flatten_equations eqs = Ok es →
  NoDup es
  ∧ ∀ x, x ∈ es ↔ ∃ eq flat, eq ∈ eqs ∧ _flatten eq = Some flat ∧ x ∈ flat.
Proof.
  intros Hes. unfold _flatten_equations in Hes.
  apply bind_Ok in Hes as (l & Hl & [= <-]).
  apply flatten_loop_Ok in Hl as (flats & Hall & ->). simpl.
  split; [apply NoDup_remove_dups|].
  intros x. rewrite elem_of_remove_dups, elem_of_concat. split.
  - intros (flat & Hflat & Hx).
    apply list_elem_of_lookup_1 in Hflat as [i Hi].
    destruct (Forall2_lookup_r _ _ _ _ _ Hall Hi) as (eq & Heq & Hfl).
    exists eq, flat. split; [by eapply list_elem_of_lookup_2|done].
  - intros (eq & flat & Heq & Hfl & Hx).
    apply list_elem_of_lookup_1 in Heq as [i Hi].
    destruct (Forall2_lookup_l _ _ _ _ _ Hall Hi) as (flat' & Hi' & Hfl').
    rewrite Hfl in Hfl'. injection Hfl' as <-.
    exists flat. split; [by eapply list_elem_of_lookup_2|done].
Qed.



Lemma _setup_bcs_Ok_eqs funcs equations bcs :
  _setup_bcs funcs equations = Ok bcs →
  map bc_eq bcs = equations
  ∧ Forall (fun bc => bc_funcs bc = _get_functions (bc_eq bc) funcs
                      ∧ rhs (bc_eq bc) = Const 0
                      ∧ Forall (supported_node (bc_funcs bc))
                               (derivative_nodes (lhs (bc_eq bc)))
                      ∧ (derivative_nodes (lhs (bc_eq bc)) = [] → bc_dims bc = None))
           bcs.
Proof.
  intros Hbcs. unfold _setup_bcs in Hbcs. apply mapM_Ok_Forall2 in Hbcs.
  induction Hbcs as [|eq bc eqs bcs Hbc _ [IH1 IH2]]; [by split|].
  apply BoundaryCondition_init_Ok in Hbc
    as (Hrhs & Heq & Hf & Hsup & ds & Hdims & _ & Hmem).
  simpl. rewrite IH1, Heq. split; [done|].
  constructor; [|done]. rewrite Heq. split; [done|]. split; [done|]. split; [done|].
  intros Hnil. rewrite Hdims. destruct ds as [|d ds']; [done|].
  assert (Hd : d ∈ d :: ds') by left.
  apply Hmem in Hd as (n & Hn & _). rewrite Hnil in Hn. by apply elem_of_nil in Hn.
Qed.

(** X5. [_setup_bcs] builds the conditions in the order of the equations
    and stops at the first equation that is not supported: the error
    raised is the error of that equation, every equation before it being
    supported. When it succeeds there is one condition per equation, on
    that equation. *)
Theorem setup_bcs_first_error (funcs : option (list Function)) (equations : list DvEq) :
  (∀ e, _setup_bcs funcs equations = Err e ↔
        ∃ i eq, equations !! i = Some eq
                ∧ BoundaryCondition_init eq funcs = Err e
                ∧ ∀ j eq', (j < i)%nat → equations !! j = Some eq' →
                           ∃ bc, BoundaryCondition_init eq' funcs = Ok bc)
  ∧ (∀ bcs, _setup_bcs funcs equations = Ok bcs →
            map bc_eq bcs = equations
            ∧ Forall (fun bc => bc_funcs bc = _get_functions (bc_eq bc) funcs) bcs).
Proof.
  split; [intros e; apply mapM_Err|].
  intros bcs Hbcs. destruct (_setup_bcs_Ok_eqs funcs equations bcs Hbcs) as [Hmap Hall].
  split; [done|]. eapply Forall_impl; [exact Hall|]. by intros bc [? _].
Qed.

(** ** BoundaryConditions: the errors of the constructor *)

Lemma BoundaryCondition_init_Err eq funcs e :
  BoundaryCondition_init eq funcs = Err e → ∃ msg, e = NotImplementedError msg.
Proof.
  unfold BoundaryCondition_init, _parse_rhs.
  destruct (decide (rhs eq ≠ Const 0)) as [Hrhs|Hrhs]; simpl.
  { intros [= <-]. by eexists. }
  unfold _get_derivative_dimensions, find_Derivative.
  destruct (derivative_loop_spec (_get_functions eq funcs)
              (remove_dups (derivative_nodes (lhs eq))) [])
    as [(_ & ds & -> & _)|(_ & msg & ->)]; [constructor|done|].
  simpl. intros [= <-]. by eexists.
Qed.

Lemma _setup_bcs_Err funcs equations e :
  _setup_bcs funcs equations = Err e → ∃ msg, e = NotImplementedError msg.
Proof.
  intros (i & eq & _ & Herr & _)%mapM_Err.
  by apply BoundaryCondition_init_Err in Herr.
Qed.

Lemma Forall_empty_or_field (bcs : list BoundaryCondition) :
  Forall (fun bc => bc_funcs bc = []) bcs ∨ Exists (fun bc => bc_funcs bc ≠ []) bcs.
Proof.
  destruct (decide (Exists (fun bc => bc_funcs bc ≠ []) bcs)) as [?|Hnone]; [by right|].
  left. apply not_Exists_Forall in Hnone; [|intros ?; apply _].
  eapply Forall_impl; [exact Hnone|]. intros bc Hbc. simpl in Hbc.
  by destruct (bc_funcs bc); [|destruct Hbc].
Qed.

Lemma group_bcs_locals_all_empty bcs :
  Forall (fun bc => bc_funcs bc = []) bcs → group_bcs_locals bcs = Ok ([], ∅).
Proof.
  intros Hall. apply group_bcs_locals_no_field.
  intros f (bc & Hbc & Hf). rewrite Forall_forall in Hall.
  rewrite (Hall bc Hbc) in Hf. by apply elem_of_nil in Hf.
Qed.

Lemma group_bcs_locals_cases bcs :
  (Forall (fun bc => bc_funcs bc ≠ []) bcs ∧ ∃ r, group_bcs_locals bcs = Ok r)
  ∨ (Forall (fun bc => bc_funcs bc = []) bcs ∧ group_bcs_locals bcs = Ok ([], ∅))
  ∨ (Exists (fun bc => bc_funcs bc = []) bcs
     ∧ Exists (fun bc => bc_funcs bc ≠ []) bcs
     ∧ group_bcs_locals bcs = Err IndexError).
Proof.
  destruct (decide (Exists (fun bc => bc_funcs bc = []) bcs)) as [Hempty|Hfull].
  - destruct (Forall_empty_or_field bcs) as [Hall|Hsome].
    + right; left. split; [done|]. by apply group_bcs_locals_all_empty.
    + right; right. split; [done|]. split; [done|].
      pose proof Hsome as Hsome'.
      apply Exists_exists in Hsome as (b & Hb & Hfb).
      destruct (bc_funcs b) as [|f tl] eqn:Hf; [done|].
      apply (group_bcs_locals_Err bcs f); [done|].
      exists b. split; [done|]. rewrite Hf. left.
  - left. apply not_Exists_Forall in Hfull; [|intros ?; apply _].
    split; [done|].
    destruct (group_bcs_locals_Ok bcs Hfull) as (comps & f_map & -> & _).
    by eexists.
Qed.

(** X6. The grouping succeeds exactly when every condition has a field
    or none has; its only error is IndexError. When no condition has a
    field (in particular for no condition at all) there is no group and
    the map is empty. On success [_group_bcs] leaves the object as it is
    and prints the map, once. *)
Theorem group_bcs_outcome (bcs : list BoundaryCondition) :
  ((∃ r, group_bcs_locals bcs = Ok r) ↔
     Forall (fun bc => bc_funcs bc ≠ []) bcs ∨ Forall (fun bc => bc_funcs bc = []) bcs)
  ∧ (∀ e, group_bcs_locals bcs = Err e → e = IndexError)
  ∧ (Forall (fun bc => bc_funcs bc = []) bcs → group_bcs_locals bcs = Ok ([], ∅))
  ∧ (∀ self groups f_map,
       bcs_bcs self = bcs → group_bcs_locals bcs = Ok (groups, f_map) →
       _group_bcs self = Ok (self, [f_map])).
Proof.
  split; [|split; [|split]].
  - split.
    + intros [r Hr].
      destruct (group_bcs_locals_cases bcs) as [[? _]|[[? _]|(_ & _ & Herr)]];
        [by left|by right|congruence].
    + intros [Hfull|Hempty].
      * destruct (group_bcs_locals_Ok bcs Hfull) as (comps & f_map & -> & _).
        by eexists.
      * rewrite group_bcs_locals_all_empty by done. by eexists.
  - intros e He.
    destruct (group_bcs_locals_cases bcs) as [[_ [r Hr]]|[[_ Hr]|(_ & _ & Herr)]];
      congruence.
  - apply group_bcs_locals_all_empty.
  - intros self groups f_map <- Hloc. unfold _group_bcs. by rewrite Hloc.
Qed.



(** ** BoundaryConditions: the object and its conditions *)

Lemma _flatten_functions_elem (args : list FunctionArg) (flat : list Function) f :
  _flatten_functions (Some args) = Some flat →
  NoDup flat
  ∧ (f ∈ flat ↔
       ∃ a, a ∈ args ∧ match a with
                       | ScalarFunction g => f = g
                       | TensorFunction comps => f ∈ comps
                       end).
Proof.
  intros [= <-]. split; [apply NoDup_remove_dups|].
  rewrite elem_of_remove_dups, list_elem_of_In, in_flat_map. split.
  - intros (a & Ha & Hf). exists a. split; [by apply list_elem_of_In|].
    destruct a as [g|comps].
    + destruct Hf as [->|[]]. done.
    + by apply list_elem_of_In.
  - intros (a & Ha & Hf). exists a. split; [by apply list_elem_of_In|].
    destruct a as [g|comps].
    + left. done.
    + by apply list_elem_of_In.
Qed.

Lemma BoundaryConditions_init_Ok eqs funcs self out :
  BoundaryConditions_init eqs funcs = Ok (self, out) →
  ∃ es bcs groups f_map,
    _flatten_equations eqs = Ok es
    ∧ _setup_bcs (_flatten_functions funcs) es = Ok bcs
    ∧ group_bcs_locals bcs = Ok (groups, f_map)
    ∧ self = mkBoundaryConditions (_flatten_functions funcs) es bcs
    ∧ out = [f_map].
Proof.
  unfold BoundaryConditions_init. intros Hinit.
  apply bind_Ok in Hinit as (es & Hes & Hinit).
  apply bind_Ok in Hinit as (bcs & Hbcs & Hinit).
  unfold _group_bcs in Hinit. simpl in Hinit.
  apply bind_Ok in Hinit as ([groups f_map] & Hloc & [= <- <-]).
  by exists es, bcs, groups, f_map.
Qed.

(** X8. After a successful construction the object holds the flattened
    whitelist, the flattened equations without repetition and one
    condition per equation, in the same order. Every equation has a zero
    right-hand side; the fields of a condition are the fields of its
    left-hand side that are time dependent (no whitelist) or that are a
    member or a component of a member of the whitelist; either every
    condition has a field or none has; and one line was printed. *)
Theorem BoundaryConditions_init_invariants (eqs : list EquationArg)
    (funcs : option (list FunctionArg)) (self : BoundaryConditions) (out : Stdout) :
  BoundaryConditions_init eqs funcs = Ok (self, out) →
  bcs_funcs self = _flatten_functions funcs
  ∧ _flatten_equations eqs = Ok (bcs_eqs self)
  ∧ NoDup (bcs_eqs self)
  ∧ map bc_eq (bcs_bcs self) = bcs_eqs self
  ∧ Forall (fun eq => rhs eq = Const 0) (bcs_eqs self)
  ∧ Forall (fun bc =>
              ∀ f, f ∈ bc_funcs bc ↔
                   f ∈ retrieve_functions (lhs (bc_eq bc))
                   ∧ match funcs with
                     | None => is_TimeDependent f = true
                     | Some args =>
                         ∃ a, a ∈ args ∧ match a with
                                         | ScalarFunction g => f = g
                                         | TensorFunction comps => f ∈ comps
                                         end
                     end)
           (bcs_bcs self)
  ∧ (Forall (fun bc => bc_funcs bc ≠ []) (bcs_bcs self)
     ∨ Forall (fun bc => bc_funcs bc = []) (bcs_bcs self))
  ∧ length out = 1%nat.
Proof.
  intros (es & bcs & groups & f_map & Hes & Hbcs & Hloc & -> & ->)%BoundaryConditions_init_Ok.
  simpl. destruct (_setup_bcs_Ok_eqs _ es bcs Hbcs) as [Hmap Hall].
  rewrite Forall_forall in Hall.
  split; [done|]. split; [done|].
  split; [by destruct (_flatten_equations_Ok_elem eqs es Hes)|].
  split; [done|]. split; [|split; [|split; [|done]]].
  - rewrite <- Hmap. apply Forall_forall. intros eq Heq.
    change (map ?g ?l) with (g <$> l) in Heq.
    apply list_elem_of_fmap in Heq as (bc & -> & Hbc).
    by destruct (Hall bc Hbc) as (_ & ? & _).
  - apply Forall_forall. intros bc Hbc f.
    destruct (Hall bc Hbc) as (-> & _). rewrite _get_functions_elem.
    destruct funcs as [args|]; simpl; [|done].
    destruct (_flatten_functions_elem args _ f eq_refl) as [_ Hmem].
    by rewrite <- Hmem.
  - destruct (group_bcs_locals_cases bcs) as [[? _]|[[? _]|(_ & _ & Herr)]];
      [by left|by right|congruence].
Qed.

(** X9. An empty whitelist is not the absence of a whitelist: when the
    whitelist flattens to no field, no condition has a field, so the
    constructor never raises IndexError; and when it succeeds, no
    equation has a derivative, every condition has [dims] None, there is
    no group and the empty map is printed. *)
Theorem BoundaryConditions_empty_whitelist (eqs : list EquationArg)
    (funcs : option (list FunctionArg)) :
  _flatten_functions funcs = Some [] →
  BoundaryConditions_init eqs funcs ≠ Err IndexError
  ∧ ∀ self out,
      BoundaryConditions_init eqs funcs = Ok (self, out) →
      Forall (fun bc => bc_funcs bc = [] ∧ bc_dims bc = None
                        ∧ derivative_nodes (lhs (bc_eq bc)) = [])
             (bcs_bcs self)
      ∧ group_bcs_locals (bcs_bcs self) = Ok ([], ∅)
      ∧ out = [∅].
Proof.
  intros Hflat.
  assert (Hempty : ∀ es bcs, _setup_bcs (_flatten_functions funcs) es = Ok bcs →
            Forall (fun bc => bc_funcs bc = [] ∧ bc_dims bc = None
                              ∧ derivative_nodes (lhs (bc_eq bc)) = []) bcs).
  { intros es bcs Hbcs. destruct (_setup_bcs_Ok_eqs _ es bcs Hbcs) as [_ Hall].
    eapply Forall_impl; [exact Hall|]. intros bc (Hf & _ & Hsup & Hdims).
    rewrite Hflat in Hf.
    assert (Hnil : bc_funcs bc = []).
    { rewrite Hf. destruct (_get_functions (bc_eq bc) (Some [])) as [|f l] eqn:Hsel;
        [done|].
      assert (Hin : f ∈ _get_functions (bc_eq bc) (Some [])) by (rewrite Hsel; left).
      apply _get_functions_elem in Hin as [_ Hin]. by apply elem_of_nil in Hin. }
    assert (Hnodes : derivative_nodes (lhs (bc_eq bc)) = []).
    { destruct (derivative_nodes (lhs (bc_eq bc))) as [|n nodes]; [done|].
      apply list.Forall_cons in Hsup as [(f & _ & Hin) _].
      rewrite Hnil in Hin. by apply elem_of_nil in Hin. }
    split; [done|]. split; [by apply Hdims|done]. }
  split.
  - unfold BoundaryConditions_init.
    destruct (_flatten_equations eqs) as [es|e1] eqn:Hes; simpl;
      [|by apply _flatten_equations_Err in Hes as [-> _]].
    destruct (_setup_bcs (_flatten_functions funcs) es) as [bcs|e2] eqn:Hbcs; simpl;
      [|by apply _setup_bcs_Err in Hbcs as [msg ->]].
    unfold _group_bcs. simpl. rewrite group_bcs_locals_all_empty; [done|].
    eapply Forall_impl; [exact (Hempty es bcs Hbcs)|]. by intros bc [? _].
  - intros self out
      (es & bcs & groups & f_map & Hes & Hbcs & Hloc & -> & ->)%BoundaryConditions_init_Ok.
    simpl. pose proof (Hempty es bcs Hbcs) as Hall.
    assert (Hloc' : group_bcs_locals bcs = Ok ([], ∅)).
    { apply group_bcs_locals_all_empty.
      eapply Forall_impl; [exact Hall|]. by intros bc [? _]. }
    split; [done|]. split; [done|]. rewrite Hloc' in Hloc. by injection Hloc as <- <-.
Qed.

(** ** The groups as a partition *)

Lemma comps_shared_eq (comps : list (gset Function)) c c' x :
  (∀ i j c c', i ≠ j → comps !! i = Some c → comps !! j = Some c' → c ## c') →
  c ∈ comps → c' ∈ comps → x ∈ c → x ∈ c' → c = c'.
Proof.
  intros Hpair [i Hi]%list_elem_of_lookup_1 [j Hj]%list_elem_of_lookup_1 Hx Hx'.
  destruct (decide (i = j)) as [->|Hij]; [congruence|].
  by destruct (Hpair i j c c' Hij Hi Hj x).
Qed.

Lemma sum_list_with_add {A} (g h : A → nat) (l : list A) :
  sum_list_with (fun a => (g a + h a)%nat) l
  = (sum_list_with g l + sum_list_with h l)%nat.
Proof. induction l as [|a l IH]; simpl; [done|]. rewrite IH. lia. Qed.

Lemma sum_first_in_one (comps : list (gset Function)) bc f0 tl :
  (∀ i j c c', i ≠ j → comps !! i = Some c → comps !! j = Some c' → c ## c') →
  bc_funcs bc = f0 :: tl →
  (∃ c, c ∈ comps ∧ f0 ∈ c) →
  sum_list_with (fun c => if decide (first_in (elements c) bc) then 1%nat else 0%nat)
                comps = 1%nat.
Proof.
  intros Hpair Hf.
  assert (Hfirst : ∀ c : gset Function, first_in (elements c) bc ↔ f0 ∈ c).
  { intros c. unfold first_in. rewrite Hf. apply elem_of_elements. }
  induction comps as [|c0 comps IH]; intros (c & Hc & Hfc).
  { by apply elem_of_nil in Hc. }
  simpl. destruct (decide (first_in (elements c0) bc)) as [H0|H0].
  - assert (Hzero : sum_list_with
              (fun c => if decide (first_in (elements c) bc) then 1%nat else 0%nat)
              comps = 0%nat).
    { assert (Hnone : ∀ c1, c1 ∈ comps → f0 ∉ c1).
      { intros c1 [j Hj]%list_elem_of_lookup_1 Hin.
        apply Hfirst in H0.
        by destruct (Hpair 0%nat (S j) c0 c1 ltac:(lia) eq_refl Hj f0). }
      clear -Hnone Hfirst. induction comps as [|c1 comps IH]; simpl; [done|].
      rewrite decide_False.
      - apply IH. intros c2 Hc2. apply Hnone. by right.
      - rewrite Hfirst. apply Hnone. left. }
    lia.
  - rewrite IH; [done| |].
    + intros i j c1 c2 Hij Hi Hj. apply (Hpair (S i) (S j)); [lia|done..].
    + apply elem_of_cons in Hc as [->|Hc]; [|by exists c].
      destruct H0. by apply Hfirst.
Qed.

Lemma sum_filter_first_in (comps : list (gset Function)) (l : list BoundaryCondition) :
  Forall (fun bc =>
            sum_list_with
              (fun c => if decide (first_in (elements c) bc) then 1%nat else 0%nat)
              comps = 1%nat) l →
  sum_list_with (fun c => length (filter (first_in (elements c)) l)) comps = length l.
Proof.
  induction 1 as [|bc l Hbc _ IH]; simpl.
  - induction comps as [|c comps IHc]; simpl; [done|]. by rewrite IHc.
  - transitivity
      (sum_list_with
         (fun c => ((if decide (first_in (elements c) bc) then 1 else 0)
                    + length (filter (first_in (elements c)) l))%nat) comps).
    + clear. induction comps as [|c comps IHc]; simpl; [done|].
      rewrite IHc, filter_cons. by destruct (decide (first_in (elements c) bc)).
    + rewrite sum_list_with_add, IH, Hbc. done.
Qed.

Lemma length_le_sum_list_with {A} (h : A → nat) (l : list A) :
  Forall (fun a => (1 ≤ h a)%nat) l → (length l ≤ sum_list_with h l)%nat.
Proof. induction 1 as [|a l Ha _ IH]; simpl; lia. Qed.

(** X10. The groups partition the conditions: with a field in every
    condition, no group is without condition or without field, every
    condition is in one group and in no other, the sizes of the groups
    add up to the number of conditions, and there are at most as many
    groups as conditions. *)
Theorem group_bcs_partition (bcs : list BoundaryCondition)
    (groups : list ConditionGroup) (f_map : gmap Function ConditionGroup) :
  Forall (fun bc => bc_funcs bc ≠ []) bcs →
  group_bcs_locals bcs = Ok (groups, f_map) →
  (∀ g, g ∈ groups → cg_conds g ≠ [] ∧ cg_funcs g ≠ [])
  ∧ (∀ bc, bc ∈ bcs →
       ∃ i g, groups !! i = Some g ∧ bc ∈ cg_conds g
              ∧ ∀ j g', groups !! j = Some g' → bc ∈ cg_conds g' → j = i)
  ∧ sum_list_with (fun g => length (cg_conds g)) groups = length bcs
  ∧ (length groups ≤ length bcs)%nat.
Proof.
  intros Hne Hloc.
  destruct (group_bcs_locals_Ok bcs Hne)
    as (comps & f_map' & Hloc' & Hcomp & Hcover & Hpair & _ & _).
  rewrite Hloc' in Hloc. injection Hloc as <- <-. clear Hloc'.
  rewrite Forall_forall in Hcomp. rewrite Forall_forall in Hne.
  set (mk := fun c : gset Function =>
               mkConditionGroup (filter (first_in (elements c)) bcs) (elements c)).
  change (map ?g ?l) with (g <$> l).
  assert (Hnonempty : ∀ g, g ∈ mk <$> comps → cg_conds g ≠ [] ∧ cg_funcs g ≠ []).
  { intros g (c & -> & Hc)%list_elem_of_fmap. simpl.
    destruct (Hcomp c Hc) as (v & (bc & Hbc & Hv) & Hvc).
    pose proof (Hne bc Hbc) as Hbcne.
    destruct (bc_funcs bc) as [|f0 tl] eqn:Hf; [done|].
    assert (Hf0 : f0 ∈ c).
    { apply Hvc. apply co_occur_connected. exists bc. rewrite Hf.
      split; [done|]. split; [done|left]. }
    split.
    - intros Hnil.
      assert (Hin : bc ∈ filter (first_in (elements c)) bcs).
      { apply list_elem_of_filter. split; [|done]. unfold first_in.
        rewrite Hf. by apply elem_of_elements. }
      rewrite Hnil in Hin. by apply elem_of_nil in Hin.
    - intros Hnil. apply elem_of_elements in Hf0. rewrite Hnil in Hf0.
      by apply elem_of_nil in Hf0. }
  assert (Hone : Forall (fun bc =>
             sum_list_with
               (fun c => if decide (first_in (elements c) bc) then 1%nat else 0%nat)
               comps = 1%nat) bcs).
  { apply Forall_forall. intros bc Hbc. pose proof (Hne bc Hbc) as Hbcne.
    destruct (bc_funcs bc) as [|f0 tl] eqn:Hf; [done|].
    apply (sum_first_in_one comps bc f0 tl Hpair Hf).
    apply Hcover. exists bc. split; [done|]. rewrite Hf. left. }
  assert (Hsum : sum_list_with (fun g => length (cg_conds g)) (mk <$> comps)
                 = length bcs).
  { rewrite <- (sum_filter_first_in comps bcs Hone).
    clear. induction comps as [|c comps IH]; [done|].
    rewrite fmap_cons. cbn [sum_list_with]. by rewrite IH. }
  split; [done|]. split; [|split; [done|]].
  - intros bc Hbc. pose proof (Hne bc Hbc) as Hbcne.
    destruct (bc_funcs bc) as [|f0 tl] eqn:Hf; [done|].
    destruct (Hcover f0) as (c & Hc & Hf0).
    { exists bc. split; [done|]. rewrite Hf. left. }
    assert (Hin : ∀ c' : gset Function,
              bc ∈ filter (first_in (elements c')) bcs ↔ f0 ∈ c').
    { intros c'. rewrite list_elem_of_filter. unfold first_in.
      rewrite Hf, elem_of_elements. tauto. }
    pose proof Hc as Hc'. apply list_elem_of_lookup_1 in Hc' as [i Hi].
    exists i, (mk c). split; [by rewrite list_lookup_fmap, Hi|].
    split; [by apply Hin|].
    intros j g' Hj Hbcg'. rewrite list_lookup_fmap in Hj.
    destruct (comps !! j) as [c'|] eqn:Hj'; [|done].
    injection Hj as <-. simpl in Hbcg'. apply Hin in Hbcg'.
    destruct (decide (j = i)) as [|Hji]; [done|].
    by destruct (Hpair j i c' c Hji Hj' Hi f0).
  - rewrite <- Hsum. apply length_le_sum_list_with.
    apply Forall_forall. intros g Hg. destruct (Hnonempty g Hg) as [Hconds _].
    destruct (cg_conds g); [done|]. simpl. lia.
Qed.


(** ** The function map *)

(** X11. The map from fields to groups that is printed has exactly the
    fields of the conditions as keys. The group of a field is one of the
    groups, lists the field, and holds every condition that mentions the
    field, with every field of such a condition mapped to that same
    group. Two fields are mapped to the same group exactly when they are
    connected in the field graph. *)
Theorem function_map_groups (bcs : list BoundaryCondition)
    (groups : list ConditionGroup) (f_map : gmap Function ConditionGroup) :
  Forall (fun bc => bc_funcs bc ≠ []) bcs →
  group_bcs_locals bcs = Ok (groups, f_map) →
  (∀ f, is_Some (f_map !! f) ↔ field_node bcs f)
  ∧ (∀ f g, f_map !! f = Some g →
       g ∈ groups ∧ f ∈ cg_funcs g
       ∧ ∀ bc, bc ∈ bcs → f ∈ bc_funcs bc →
               bc ∈ cg_conds g
               ∧ ∀ f', f' ∈ bc_funcs bc → f_map !! f' = Some g)
  ∧ (∀ f f', field_node bcs f → field_node bcs f' →
       (f_map !! f = f_map !! f' ↔ field_connected bcs f f')).
Proof.
  intros Hne Hloc.
  destruct (group_bcs_locals_Ok bcs Hne)
    as (comps & f_map' & Hloc' & Hcomp & Hcover & Hpair & Hmap & Hnone).
  rewrite Hloc' in Hloc. injection Hloc as <- <-. clear Hloc'.
  rewrite Forall_forall in Hcomp.
  set (mk := fun c : gset Function =>
               mkConditionGroup (filter (first_in (elements c)) bcs) (elements c))
    in *.
  change (map ?g ?l) with (g <$> l).
  assert (Hdec : ∀ f, field_node bcs f ∨ ¬ field_node bcs f).
  { intros f. destruct (decide (Exists (fun bc => f ∈ bc_funcs bc) bcs)) as [H|H];
      [left|right]; rewrite Exists_exists in H; done. }
  assert (Hkey : ∀ f, is_Some (f_map' !! f) ↔ field_node bcs f).
  { intros f. split.
    - intros [g Hg]. destruct (Hdec f) as [|Hf]; [done|].
      rewrite (Hnone f Hf) in Hg. done.
    - intros Hf. destruct (Hmap f Hf) as (c & _ & _ & ->). done. }
  assert (Hclass : ∀ c x y, c ∈ comps → x ∈ c → (y ∈ c ↔ field_connected bcs x y)).
  { intros c x y Hc Hx. destruct (Hcomp c Hc) as (v & _ & Hvc).
    rewrite Hvc. apply Hvc in Hx. split; intros Hy.
    - trans v; [by symmetry|done].
    - by trans x. }
  split; [done|]. split.
  - intros f g Hg.
    assert (Hf : field_node bcs f) by (apply Hkey; by exists g).
    destruct (Hmap f Hf) as (c & Hc & Hfc & Hfm).
    rewrite Hfm in Hg. injection Hg as <-.
    split; [apply list_elem_of_fmap; by exists c|].
    split; [simpl; by apply elem_of_elements|].
    intros bc Hbc Hfbc.
    assert (Hin : ∀ f', f' ∈ bc_funcs bc → f' ∈ c).
    { intros f' Hf'. apply (Hclass c f f' Hc Hfc).
      apply co_occur_connected. by exists bc. }
    split.
    + simpl. apply list_elem_of_filter. split; [|done]. unfold first_in.
      destruct (bc_funcs bc) as [|f0 tl] eqn:Hfs; [by apply elem_of_nil in Hfbc|].
      apply elem_of_elements, Hin. left.
    + intros f' Hf'.
      destruct (Hmap f') as (c' & Hc' & Hfc' & ->); [by exists bc|].
      by rewrite (comps_shared_eq comps c' c f' Hpair Hc' Hc Hfc' (Hin f' Hf')).
  - intros f f' Hf Hf'.
    destruct (Hmap f Hf) as (c & Hc & Hfc & ->).
    destruct (Hmap f' Hf') as (c' & Hc' & Hfc' & ->).
    rewrite <- (Hclass c f f' Hc Hfc). split.
    + intros [= _ Heq]. apply elem_of_elements. rewrite Heq.
      by apply elem_of_elements.
    + intros Hin.
      by rewrite (comps_shared_eq comps c c' f' Hpair Hc Hc' Hin Hfc').
Qed.

(** ** Repeated equations *)

Lemma _flatten_equations_same_members eqs eqs' es :
  (∀ eq, eq ∈ eqs ↔ eq ∈ eqs') →
  _flatten_equations eqs = Ok es →
  ∃ es', _flatten_equations eqs' = Ok es' ∧ es ≡ₚ es'.
Proof.
  intros Hsame Hes.
  destruct (_flatten_equations eqs') as [es'|e] eqn:Hes'.
  - exists es'. split; [done|].
    destruct (_flatten_equations_Ok_elem eqs es Hes) as [Hnd Hmem].
    destruct (_flatten_equations_Ok_elem eqs' es' Hes') as [Hnd' Hmem'].
    apply NoDup_Permutation; [done..|].
    intros x. rewrite Hmem, Hmem'. split.
    + intros (eq & flat & Heq & Hfl & Hx). exists eq, flat. by rewrite <- Hsame.
    + intros (eq & flat & Heq & Hfl & Hx). exists eq, flat. by rewrite Hsame.
  - apply _flatten_equations_Err in Hes' as [_ Hex].
    assert (Herr : _flatten_equations eqs = Err TypeError).
    { apply _flatten_equations_Err. split; [done|].
      apply Exists_exists in Hex as (eq & Heq & Hnone).
      apply Exists_exists. exists eq. by rewrite Hsame. }
    congruence.
Qed.

(** X12. Only the set of equations given matters to a construction that
    succeeds: with the same whitelist, a list with the same members
    (repeated or in another order) gives the same equations and the same
    conditions up to their order, and groups with the same sets of
    fields. In particular an equation given twice gives one condition. *)
Theorem BoundaryConditions_init_same_members (eqs eqs' : list EquationArg)
    (funcs : option (list FunctionArg)) (self : BoundaryConditions) (out : Stdout) :
  (∀ eq, eq ∈ eqs ↔ eq ∈ eqs') →
  BoundaryConditions_init eqs funcs = Ok (self, out) →
  ∃ self' out',
    BoundaryConditions_init eqs' funcs = Ok (self', out')
    ∧ bcs_funcs self' = bcs_funcs self
    ∧ bcs_eqs self ≡ₚ bcs_eqs self'
    ∧ bcs_bcs self ≡ₚ bcs_bcs self'
    ∧ result_field_sets (group_bcs_locals (bcs_bcs self))
      = result_field_sets (group_bcs_locals (bcs_bcs self')).
Proof.
  intros Hsame
    (es & bcs & groups & f_map & Hes & Hbcs & Hloc & -> & ->)%BoundaryConditions_init_Ok.
  destruct (_flatten_equations_same_members eqs eqs' es Hsame Hes) as (es' & Hes' & Hp).
  destruct (_setup_bcs_Permutation _ es es' bcs Hp Hbcs) as (bcs' & Hbcs' & Hp').
  pose proof (group_bcs_locals_reordered bcs bcs' (Permutation_reordered _ _ Hp'))
    as Hres.
  rewrite Hloc in Hres. simpl in Hres.
  destruct (group_bcs_locals bcs') as [[groups' f_map']|e] eqn:Hloc'; [|done].
  exists (mkBoundaryConditions (_flatten_functions funcs) es' bcs'), [f_map'].
  split.
  - unfold BoundaryConditions_init. rewrite Hes'. simpl. rewrite Hbcs'. simpl.
    unfold _group_bcs. simpl. by rewrite Hloc'.
  - simpl. rewrite Hloc, Hloc'. done.
Qed.


(** ** skin.py: the footprint *)

Lemma footprint_spans_axes f ddims ddims' :
  (∀ d, d ∈ space_dimensions f → (d ∈ ddims ↔ d ∈ ddims')) →
  footprint_spans f ddims = footprint_spans f ddims'.
Proof.
  intros Hsame. unfold footprint_spans. apply map_ext_in.
  intros dim Hdim. apply list_elem_of_In in Hdim.
  destruct (decide (dim ∈ ddims)) as [H|H], (decide (dim ∈ ddims')) as [H'|H'];
    try done.
  - by apply (Hsame dim Hdim) in H.
  - by apply (Hsame dim Hdim) in H'.
Qed.

(** X13. The footprint, and with it the skin, depends on the axes of the
    derivative only through the question of which space dimensions of the
    field are among them: their order, their repetition (the order of
    the derivative) and the dimensions that are not space dimensions of
    the field (time) change nothing. *)
Theorem stencil_footprint_axes_only (f : Function) (ddims ddims' : list Dimension)
    (geometry : BoundaryGeometry) :
  (∀ d, d ∈ space_dimensions f → (d ∈ ddims ↔ d ∈ ddims')) →
  stencil_footprint (Func f, ddims) = stencil_footprint (Func f, ddims')
  ∧ _get_points (Func f, ddims) geometry = _get_points (Func f, ddims') geometry.
Proof.
  intros Hsame.
  assert (Hfp : stencil_footprint (Func f, ddims) = stencil_footprint (Func f, ddims')).
  { unfold stencil_footprint. by rewrite (footprint_spans_axes f ddims ddims' Hsame). }
  split; [done|]. unfold _get_points. by rewrite Hfp.
Qed.

Lemma grid_product_count spans :
  length (grid_product spans) = foldr (fun s n => (length s * n)%nat) 1%nat spans.
Proof.
  induction spans as [|s spans IH]; simpl; [done|].
  rewrite <- IH. generalize (grid_product spans) as G. intros G.
  induction s as [|x s IHs]; simpl; [done|].
  by rewrite length_app, length_map, IHs.
Qed.

Lemma footprint_spans_count f ddims :
  0 ≤ space_order f →
  foldr (fun s n => (length s * n)%nat) 1%nat (footprint_spans f ddims)
  = (Z.to_nat (space_order f + 1)
     ^ length (filter (fun d => d ∈ ddims) (space_dimensions f)))%nat.
Proof.
  intros Hp. unfold footprint_spans.
  induction (space_dimensions f) as [|dim dims IH]; simpl; [done|].
  rewrite IH, filter_cons. destruct (decide (dim ∈ ddims)); simpl.
  - rewrite arange_length. f_equal. f_equal.
    Z.to_euclidean_division_equations. lia.
  - lia.
Qed.

Lemma grid_product_NoDup spans : Forall NoDup spans → NoDup (grid_product spans).
Proof.
  induction 1 as [|s spans Hs _ IH]; simpl.
  - apply NoDup_singleton.
  - revert IH. generalize (grid_product spans) as G. intros G HG.
    induction Hs as [|x s Hx _ IHs]; simpl; [constructor|].
    apply NoDup_app. split; [|split; [|done]].
    + change (map ?g ?l) with (g <$> l). apply NoDup_fmap_2; [|done].
      by intros a b [= ->].
    + intros c Hc Hc'. change (map ?g ?l) with (g <$> l) in Hc.
      apply list_elem_of_fmap in Hc as (t & -> & _).
      apply list_elem_of_In, in_flat_map in Hc' as (y & Hy & Hc').
      apply in_map_iff in Hc' as (t' & [= -> _] & _).
      by apply list_elem_of_In in Hy.
Qed.

Lemma footprint_spans_NoDup f ddims : Forall NoDup (footprint_spans f ddims).
Proof.
  unfold footprint_spans. apply Forall_forall. intros s Hs.
  change (map ?g ?l) with (g <$> l) in Hs.
  apply list_elem_of_fmap in Hs as (dim & -> & _).
  destruct (decide (dim ∈ ddims)); [apply arange_NoDup|apply NoDup_singleton].
Qed.

Lemma footprint_points_elem f ddims (o : list Z) :
  o ∈ meshgrid_xy_flat (footprint_spans f ddims) ↔
  Forall2 (fun x dim => if decide (dim ∈ ddims)
                        then (- space_order f) `div` 2 ≤ x ≤ space_order f `div` 2
                        else x = 0)
          o (space_dimensions f).
Proof.
  rewrite (meshgrid_xy_flat_product (footprint_spans f ddims)), grid_product_elem.
  unfold footprint_spans. change (map ?g ?l) with (g <$> l). rewrite Forall2_fmap_r.
  split; intros Hall; (eapply Forall2_impl; [exact Hall|]); intros x dim; simpl;
    destruct (decide (dim ∈ ddims)).
  - rewrite arange_elem. lia.
  - rewrite elem_of_cons, elem_of_nil. tauto.
  - rewrite arange_elem. lia.
  - rewrite elem_of_cons, elem_of_nil. tauto.
Qed.

Lemma footprint_origin f ddims :
  0 ≤ space_order f →
  repeat 0 (length (space_dimensions f)) ∈ meshgrid_xy_flat (footprint_spans f ddims).
Proof.
  intros Hp. apply footprint_points_elem.
  induction (space_dimensions f) as [|dim dims IH]; simpl; constructor; [|done].
  destruct (decide (dim ∈ ddims)); [|done].
  Z.to_euclidean_division_equations. lia.
Qed.

Lemma footprint_trivial f ddims (o : list Z) :
  space_order f = 0 ∨ (∀ d, d ∈ space_dimensions f → d ∉ ddims) →
  o ∈ meshgrid_xy_flat (footprint_spans f ddims)
  ↔ o = repeat 0 (length (space_dimensions f)).
Proof.
  intros Htriv. rewrite footprint_points_elem.
  assert (Hall : Forall (fun dim => ∀ x,
            (if decide (dim ∈ ddims)
             then (- space_order f) `div` 2 ≤ x ≤ space_order f `div` 2
             else x = 0) ↔ x = 0) (space_dimensions f)).
  { apply Forall_forall. intros dim Hdim x.
    destruct (decide (dim ∈ ddims)) as [Hin|]; [|done].
    destruct Htriv as [Hp|Hno]; [|by destruct (Hno dim Hdim)].
    rewrite Hp. change ((- 0) `div` 2) with 0. change (0 `div` 2) with 0. lia. }
  clear Htriv. revert Hall o. generalize (space_dimensions f) as dims.
  intros dims Hall. induction Hall as [|dim dims Hdim _ IH]; intros o; simpl.
  - split; [by intros ->%Forall2_nil_inv_r|intros ->; constructor].
  - split.
    + intros (x & o' & Hx & Ho' & ->)%Forall2_cons_inv_r.
      apply Hdim in Hx as ->. by apply IH in Ho' as ->.
    + intros ->. constructor; [by apply Hdim|by apply IH].
Qed.

(** X14. For a space order p that is not negative, the footprint of a
    derivative of a field with D space dimensions, k of them
    differentiated, is a (D, (p+1)^k) array whose columns are distinct:
    they are the offsets that are zero along the other axes and between
    -ceil(p/2) and floor(p/2) along the differentiated ones. The zero
    offset is one of them. *)
Theorem stencil_footprint_offsets (f : Function) (ddims : list Dimension) :
  space_dimensions f ≠ [] →
  0 ≤ space_order f →
  ∃ fp,
    stencil_footprint (Func f, ddims) = Ok fp
    ∧ is_array (length (space_dimensions f))
               (Z.to_nat (space_order f + 1)
                ^ length (filter (fun d => d ∈ ddims) (space_dimensions f)))%nat
               fp
    ∧ NoDup (points fp)
    ∧ (∀ o, o ∈ points fp ↔
            Forall2 (fun x dim =>
                       if decide (dim ∈ ddims)
                       then (- space_order f) `div` 2 ≤ x ≤ space_order f `div` 2
                       else x = 0)
                    o (space_dimensions f))
    ∧ repeat 0 (length (space_dimensions f)) ∈ points fp.
Proof.
  intros Hdims Hp.
  destruct (stencil_footprint_Ok f ddims Hdims) as (fp & Hfp & Hlen & Hrows & Hpts).
  exists fp. split; [done|].
  assert (Hcount : ncols fp
                   = (Z.to_nat (space_order f + 1)
                      ^ length (filter (fun d => d ∈ ddims) (space_dimensions f)))%nat).
  { rewrite <- (footprint_spans_count f ddims Hp), <- grid_product_count.
    rewrite <- (Permutation_length (meshgrid_xy_flat_product _)), <- Hpts.
    unfold points. by rewrite columns_length. }
  split; [split; [done|by rewrite <- Hcount]|].
  rewrite Hpts. split; [|split].
  - rewrite (meshgrid_xy_flat_product (footprint_spans f ddims)).
    apply grid_product_NoDup, footprint_spans_NoDup.
  - intros o. apply footprint_points_elem.
  - by apply footprint_origin.
Qed.

(** ** skin.py: the modified points *)

Lemma StronglySorted_sublist {A} (R : relation A) (l l' : list A) :
  l' `sublist_of` l → StronglySorted R l → StronglySorted R l'.
Proof.
  induction 1 as [|x l1 l2 Hs IH|x l1 l2 Hs IH]; intros Hl; [done| |].
  - apply StronglySorted_cons in Hl as [Hall Hl].
    apply StronglySorted_cons. split; [|by apply IH].
    rewrite Forall_forall in Hall. apply Forall_forall. intros y Hy.
    apply Hall. by eapply elem_of_sublist.
  - apply StronglySorted_cons in Hl as [_ Hl]. by apply IH.
Qed.

Lemma StronglySorted_lookup_lt {A} (R : relation A) (l : list A) i j x y :
  StronglySorted R l → (i < j)%nat → l !! i = Some x → l !! j = Some y → R x y.
Proof.
  intros Hl. revert i j.
  induction Hl as [|z l _ IH Hall]; intros i j Hij Hi Hj; [done|].
  destruct j as [|j]; [lia|]. simpl in Hj. destruct i as [|i]; simpl in Hi.
  - injection Hi as <-. rewrite Forall_forall in Hall. apply Hall.
    by eapply list_elem_of_lookup_2.
  - apply (IH i j); [lia|done..].
Qed.

Lemma lex_lt_first_difference (a b : list Z) :
  length a = length b → lex_lt a b →
  ∃ k x y, a !! k = Some x ∧ b !! k = Some y ∧ x < y ∧ take k a = take k b.
Proof.
  unfold lex_lt. revert b.
  induction a as [|x a IH]; intros [|y b] Hlen Hlt; simpl in *; try done.
  destruct (x ?= y) eqn:Hxy.
  - apply Z.compare_eq in Hxy as ->.
    destruct (IH b) as (k & x' & y' & Ha & Hb & Hlt' & Htake); [lia|done|].
    exists (S k), x', y'. simpl. by rewrite Htake.
  - apply Z.compare_lt_iff in Hxy. by exists 0%nat, x, y.
  - done.
Qed.

Lemma zip_with_add_zero (b : list Z) : zip_with Z.add b (repeat 0 (length b)) = b.
Proof. induction b as [|x b IH]; simpl; [done|]. rewrite IH. f_equal. lia. Qed.

Lemma bind_ret_Ok {A B} (a : A) (k : A → Result B) : Ok a ≫= k = k a.
Proof. done. Qed.

Lemma _get_points_Ok f ddims geometry N :
  space_dimensions f ≠ [] →
  is_array (length (space_dimensions f)) N (boundary_points geometry) →
  length (grid_shape geometry) = length (space_dimensions f) →
  nd_shape (interior_mask geometry) = grid_shape geometry →
  nd_well_shaped (interior_mask geometry) →
  ∃ mp K,
    _get_points (Func f, ddims) geometry = Ok mp
    ∧ is_array (length (space_dimensions f)) K mp
    ∧ StronglySorted lex_lt (points mp)
    ∧ (∀ p, p ∈ points mp ↔
            (∃ b o, b ∈ points (boundary_points geometry)
                    ∧ o ∈ meshgrid_xy_flat (footprint_spans f ddims)
                    ∧ p = zip_with Z.add b o)
            ∧ in_grid (grid_shape geometry) p
            ∧ nd_item (interior_mask geometry) p = Ok true).
Proof.
  intros Hdims Hbp Hshape Hmask Hwf.
  set (D := length (space_dimensions f)) in *.
  assert (HD : D ≠ 0%nat) by (unfold D; by destruct (space_dimensions f)).
  destruct (stencil_footprint_Ok f ddims Hdims) as (fp & Hfp & Hlfp & Hrfp & Hpfp).
  assert (Hfparr : is_array D (ncols fp) fp) by done.
  destruct (broadcast_add_spec D N (ncols fp) _ fp HD Hbp Hfparr)
    as (mp0 & Hmp0 & Hreshape & Harr0 & Hpts0).
  destruct (unique_axis1_spec D _ mp0 Harr0 HD) as (K1 & Harr1 & _ & Hsorted1 & Hmem1).
  destruct (trim_loop_spec (grid_shape geometry) (seq 0 D) D K1 (unique_axis1 mp0) Harr1)
    as (mp2 & K2 & Htrim & Harr2 & Hsub2 & Hmem2).
  { apply Forall_forall. intros dim Hdim%elem_of_seq. lia. }
  assert (Hgrid : ∀ c, c ∈ points mp2 ↔
                       c ∈ points mp0 ∧ in_grid (grid_shape geometry) c).
  { intros c. rewrite Hmem2, Hmem1. split.
    - intros [Hc Hall]. split; [done|]. apply in_grid_lookup.
      + pose proof (is_array_points_length D _ mp0 Harr0 HD) as Hlen.
        rewrite Forall_forall in Hlen. rewrite (Hlen c Hc). lia.
      + by rewrite Hshape.
    - intros [Hc Hin]. split; [done|]. rewrite <- Hshape. by apply in_grid_Forall. }
  destruct (Forall_exists_Forall2
              (fun c b => nd_item (interior_mask geometry) c = Ok b) (points mp2))
    as [interior Hinterior].
  { apply Forall_forall. intros c Hc. apply Hgrid in Hc as [_ Hc].
    apply nd_item_Ok; [done|]. by rewrite Hmask. }
  assert (Hlint : length interior = K2).
  { rewrite <- (Forall2_length _ _ _ Hinterior). unfold points.
    rewrite (is_array_ncols D K2 mp2 Harr2 HD). apply columns_length.
    by destruct Harr2. }
  pose proof (select_Forall2 _ _ _ Hinterior) as Hsel.
  pose proof (points_select D K2 mp2 interior Harr2 HD Hlint) as Hpts.
  exists (map (select interior) mp2), (length (select interior interior)).
  split.
  { unfold _get_points. apply bind_Ok. exists fp. split; [done|].
    apply bind_Ok. exists mp0. split; [done|]. cbv zeta. rewrite Hreshape.
    destruct Harr1 as [Hl1 Hr1]. rewrite Hl1.
    apply bind_Ok. exists mp2. split; [done|].
    apply bind_Ok. exists interior. split; [|done].
    unfold nd_take. destruct Harr2 as [Hl2 _].
    rewrite decide_True by (rewrite Hl2, Hmask; lia).
    by apply mapM_Ok_Forall2. }
  split; [by apply (is_array_select D K2)|]. rewrite Hpts. split.
  { apply (StronglySorted_sublist lex_lt (points (unique_axis1 mp0))); [|done].
    etrans; [apply select_sublist|done]. }
  intros p. rewrite Hsel, Hgrid, Hpts0, <- Hpfp. rewrite list_elem_of_In, in_flat_map.
  split.
  - intros [[(b & Hb & Ho) Hin] Hint]. apply in_map_iff in Ho as (o & <- & Ho).
    split; [|done]. exists b, o. by rewrite !list_elem_of_In.
  - intros [(b & o & Hb & Ho & ->) [Hin Hint]]. split; [|done]. split; [|done].
    exists b. split; [by apply list_elem_of_In|].
    apply in_map_iff. exists o. split; [done|by apply list_elem_of_In].
Qed.

(** X15. For a space order that is not negative, every boundary point
    that lies in the grid and is classified interior is a modified point
    (the zero offset is in the footprint). When the space order is 0, or
    no space dimension of the field is differentiated, these are the only
    modified points. *)
Theorem modified_points_contain_boundary (f : Function) (ddims : list Dimension)
    (geometry : BoundaryGeometry) (N : nat) :
  space_dimensions f ≠ [] →
  is_array (length (space_dimensions f)) N (boundary_points geometry) →
  length (grid_shape geometry) = length (space_dimensions f) →
  nd_shape (interior_mask geometry) = grid_shape geometry →
  nd_well_shaped (interior_mask geometry) →
  0 ≤ space_order f →
  ∃ mp,
    _get_points (Func f, ddims) geometry = Ok mp
    ∧ (∀ b, b ∈ points (boundary_points geometry) →
            in_grid (grid_shape geometry) b →
            nd_item (interior_mask geometry) b = Ok true →
            b ∈ points mp)
    ∧ (space_order f = 0 ∨ (∀ d, d ∈ space_dimensions f → d ∉ ddims) →
       ∀ p, p ∈ points mp ↔
            p ∈ points (boundary_points geometry)
            ∧ in_grid (grid_shape geometry) p
            ∧ nd_item (interior_mask geometry) p = Ok true).
Proof.
  intros Hdims Hbp Hshape Hmask Hwf Hp.
  destruct (_get_points_Ok f ddims geometry N Hdims Hbp Hshape Hmask Hwf)
    as (mp & K & Hmp & _ & _ & Hmem).
  assert (HD : length (space_dimensions f) ≠ 0%nat) by (by destruct (space_dimensions f)).
  pose proof (is_array_points_length _ _ _ Hbp HD) as Hlen.
  rewrite Forall_forall in Hlen.
  exists mp. split; [done|]. split.
  - intros b Hb Hin Hint. apply Hmem. split; [|done].
    exists b, (repeat 0 (length (space_dimensions f))).
    split; [done|]. split; [by apply footprint_origin|].
    by rewrite <- (Hlen b Hb), zip_with_add_zero.
  - intros Htriv p. rewrite Hmem. split.
    + intros [(b & o & Hb & Ho & ->) Hrest]. split; [|done].
      apply (footprint_trivial f ddims o Htriv) in Ho as ->.
      by rewrite <- (Hlen b Hb), zip_with_add_zero.
    + intros [Hb Hrest]. split; [|done].
      exists p, (repeat 0 (length (space_dimensions f))).
      split; [done|]. split; [by apply footprint_trivial|].
      by rewrite <- (Hlen p Hb), zip_with_add_zero.
Qed.

(** X16. The modified points are returned in strictly increasing
    lexicographic order, the first axis being the most significant: of
    two points of the result, the earlier one has the smaller coordinate
    on the first axis where they differ. *)
Theorem modified_points_sorted (f : Function) (ddims : list Dimension)
    (geometry : BoundaryGeometry) (N : nat) :
  space_dimensions f ≠ [] →
  is_array (length (space_dimensions f)) N (boundary_points geometry) →
  length (grid_shape geometry) = length (space_dimensions f) →
  nd_shape (interior_mask geometry) = grid_shape geometry →
  nd_well_shaped (interior_mask geometry) →
  ∃ mp,
    _get_points (Func f, ddims) geometry = Ok mp
    ∧ StronglySorted lex_lt (points mp)
    ∧ ∀ i j p q, (i < j)%nat → points mp !! i = Some p → points mp !! j = Some q →
        ∃ k x y, p !! k = Some x ∧ q !! k = Some y ∧ x < y ∧ take k p = take k q.
Proof.
  intros Hdims Hbp Hshape Hmask Hwf.
  destruct (_get_points_Ok f ddims geometry N Hdims Hbp Hshape Hmask Hwf)
    as (mp & K & Hmp & Harr & Hsorted & _).
  assert (HD : length (space_dimensions f) ≠ 0%nat) by (by destruct (space_dimensions f)).
  pose proof (is_array_points_length _ _ _ Harr HD) as Hlen.
  rewrite Forall_forall in Hlen.
  exists mp. split; [done|]. split; [done|].
  intros i j p q Hij Hi Hj. apply lex_lt_first_difference.
  - rewrite (Hlen p), (Hlen q); [done|by eapply list_elem_of_lookup_2..].
  - by apply (StronglySorted_lookup_lt lex_lt (points mp) i j).
Qed.

Lemma sort_unique_same_members cols cols' :
  (∀ c, c ∈ cols ↔ c ∈ cols') → sort_unique cols = sort_unique cols'.
Proof.
  intros Hsame. apply (StronglySorted_unique_strong lex_lt).
  - intros x y _ _ Hxy Hyx. destruct (lex_lt_irrefl x). by apply (lex_lt_trans x y x).
  - apply sort_unique_sorted.
  - apply sort_unique_sorted.
  - apply NoDup_Permutation; [apply sort_unique_NoDup..|].
    intros c. by rewrite !sort_unique_elem.
Qed.

(** X17. The outcome depends on the boundary points only as a set: two
    geometries with the same grid shape and interior mask whose boundary
    point arrays list the same points, in any order and any number of
    times, give the same array of modified points (or the same error). *)
Theorem modified_points_boundary_set (f : Function) (ddims : list Dimension)
    (geometry geometry' : BoundaryGeometry) (N N' : nat) :
  space_dimensions f ≠ [] →
  is_array (length (space_dimensions f)) N (boundary_points geometry) →
  is_array (length (space_dimensions f)) N' (boundary_points geometry') →
  grid_shape geometry = grid_shape geometry' →
  interior_mask geometry = interior_mask geometry' →
  (∀ p, p ∈ points (boundary_points geometry)
        ↔ p ∈ points (boundary_points geometry')) →
  _get_points (Func f, ddims) geometry = _get_points (Func f, ddims) geometry'.
Proof.
  intros Hdims Hbp Hbp' Hshape Hmask Hsame.
  set (D := length (space_dimensions f)) in *.
  assert (HD : D ≠ 0%nat) by (unfold D; by destruct (space_dimensions f)).
  destruct (stencil_footprint_Ok f ddims Hdims) as (fp & Hfp & Hlfp & Hrfp & _).
  assert (Hfparr : is_array D (ncols fp) fp) by done.
  destruct (broadcast_add_spec D N (ncols fp) _ fp HD Hbp Hfparr)
    as (mp0 & Hmp0 & Hre & Harr0 & Hpts0).
  destruct (broadcast_add_spec D N' (ncols fp) _ fp HD Hbp' Hfparr)
    as (mp0' & Hmp0' & Hre' & Harr0' & Hpts0').
  assert (Hu : unique_axis1 mp0 = unique_axis1 mp0').
  { unfold unique_axis1. rewrite (proj1 Harr0), (proj1 Harr0'). f_equal.
    apply sort_unique_same_members. intros c. rewrite Hpts0, Hpts0'.
    rewrite !list_elem_of_In, !in_flat_map.
    split; intros (b & Hb & Hc); exists b; (split; [|done]);
      apply list_elem_of_In, Hsame; by apply list_elem_of_In. }
  unfold _get_points. rewrite Hfp, !bind_ret_Ok, Hmp0, Hmp0', !bind_ret_Ok.
  cbv zeta. by rewrite Hre, Hre', Hu, Hshape, Hmask.
Qed.




(** ** Growing the whitelist and the list of conditions *)

Lemma derivative_loop_mono funcs funcs' derivs dims ds :
  (∀ f, f ∈ funcs → f ∈ funcs') →
  derivative_loop funcs derivs dims = Ok ds →
  derivative_loop funcs' derivs dims = Ok ds.
Proof.
  intros Hsub. revert dims.
  induction derivs as [|[e dd] derivs IH]; intros dims; simpl; [done|].
  destruct e as [z|s|f|e' dd'|a b|a b]; try done.
  destruct (decide (f ∈ funcs)) as [Hin|]; [|done].
  rewrite decide_True by (by apply Hsub). apply IH.
Qed.

(** X19. Enlarging the whitelist keeps a supported equation supported: a
    condition that is constructed with a whitelist is constructed with
    every whitelist that contains it, on the same equation, with the same
    dimensions [dims] and with at least the same fields. *)
Theorem BoundaryCondition_init_whitelist_monotone (eq : DvEq)
    (funcs funcs' : list Function) (bc : BoundaryCondition) :
  (∀ f, f ∈ funcs → f ∈ funcs') →
  BoundaryCondition_init eq (Some funcs) = Ok bc →
  ∃ bc',
    BoundaryCondition_init eq (Some funcs') = Ok bc'
    ∧ bc_eq bc' = bc_eq bc
    ∧ bc_dims bc' = bc_dims bc
    ∧ (∀ f, f ∈ bc_funcs bc → f ∈ bc_funcs bc')
    ∧ (∀ f, f ∈ bc_funcs bc' → f ∉ bc_funcs bc → f ∈ funcs' ∧ f ∉ funcs).
Proof.
  intros Hsub Hinit. unfold BoundaryCondition_init in *.
  apply bind_Ok in Hinit as ([] & Hrhs & Hinit). cbv zeta in Hinit.
  apply bind_Ok in Hinit as (dims & Hdims & [= <-]).
  unfold _get_derivative_dimensions in Hdims.
  apply bind_Ok in Hdims as (ds & Hds & [= <-]).
  assert (Hsel : ∀ f, f ∈ _get_functions eq (Some funcs) →
                      f ∈ _get_functions eq (Some funcs')).
  { intros f. rewrite !_get_functions_elem. intros [? ?]. split; [done|by apply Hsub]. }
  exists (mkBoundaryCondition eq (_get_functions eq (Some funcs'))
            (if decide (length ds = 0%nat) then None else Some ds)).
  split.
  - rewrite Hrhs, bind_ret_Ok. cbv zeta. unfold _get_derivative_dimensions.
    by rewrite (derivative_loop_mono _ _ _ _ ds Hsel Hds), !bind_ret_Ok.
  - cbn [bc_eq bc_funcs bc_dims]. split; [done|]. split; [done|]. split; [done|].
    intros f Hf' Hnot. apply _get_functions_elem in Hf' as [Hl Hf'].
    split; [done|]. intros Hf. apply Hnot.
    apply (_get_functions_elem eq (Some funcs) f). by split.
Qed.

Lemma function_map_connected bcs groups (f_map : gmap Function ConditionGroup) :
  Forall (fun bc => bc_funcs bc ≠ []) bcs →
  group_bcs_locals bcs = Ok (groups, f_map) →
  (∀ f, is_Some (f_map !! f) ↔ field_node bcs f)
  ∧ (∀ f f', field_node bcs f → field_node bcs f' →
       (f_map !! f = f_map !! f' ↔ field_connected bcs f f')).
Proof.
  intros Hne Hloc.
  destruct (group_bcs_locals_Ok bcs Hne)
    as (comps & f_map' & Hloc' & Hcomp & Hcover & Hpair & Hmap & Hnone).
  rewrite Hloc' in Hloc. injection Hloc as <- <-. clear Hloc'.
  rewrite Forall_forall in Hcomp.
  assert (Hdec : ∀ f, field_node bcs f ∨ ¬ field_node bcs f).
  { intros f. destruct (decide (Exists (fun bc => f ∈ bc_funcs bc) bcs)) as [H|H];
      [left|right]; rewrite Exists_exists in H; done. }
  assert (Hclass : ∀ c x y, c ∈ comps → x ∈ c → (y ∈ c ↔ field_connected bcs x y)).
  { intros c x y Hc Hx. destruct (Hcomp c Hc) as (v & _ & Hvc).
    rewrite Hvc. apply Hvc in Hx. split; intros Hy.
    - trans v; [by symmetry|done].
    - by trans x. }
  split.
  - intros f. split.
    + intros [g Hg]. destruct (Hdec f) as [|Hf]; [done|].
      rewrite (Hnone f Hf) in Hg. done.
    + intros Hf. destruct (Hmap f Hf) as (c & _ & _ & ->). done.
  - intros f f' Hf Hf'.
    destruct (Hmap f Hf) as (c & Hc & Hfc & ->).
    destruct (Hmap f' Hf') as (c' & Hc' & Hfc' & ->).
    rewrite <- (Hclass c f f' Hc Hfc). split.
    + intros [= _ Heq]. apply elem_of_elements. rewrite Heq.
      by apply elem_of_elements.
    + intros Hin.
      by rewrite (comps_shared_eq comps c c' f' Hpair Hc Hc' Hin Hfc').
Qed.

(** X20. Further conditions only merge groups: when the grouping
    succeeds on a list of conditions and on a list that contains it, two
    fields that the first grouping maps to the same group are mapped to
    the same group by the second, which maps every field that the
    first one maps. *)
Theorem group_bcs_more_conditions (bcs bcs' : list BoundaryCondition)
    (groups groups' : list ConditionGroup)
    (f_map f_map' : gmap Function ConditionGroup) :
  Forall (fun bc => bc_funcs bc ≠ []) bcs' →
  (∀ bc, bc ∈ bcs → bc ∈ bcs') →
  group_bcs_locals bcs = Ok (groups, f_map) →
  group_bcs_locals bcs' = Ok (groups', f_map') →
  (∀ f, is_Some (f_map !! f) → is_Some (f_map' !! f))
  ∧ (∀ f1 f2 g, f_map !! f1 = Some g → f_map !! f2 = Some g →
       ∃ g', f_map' !! f1 = Some g' ∧ f_map' !! f2 = Some g').
Proof.
  intros Hne' Hsub Hloc Hloc'.
  assert (Hne : Forall (fun bc => bc_funcs bc ≠ []) bcs).
  { rewrite Forall_forall in Hne'. apply Forall_forall. intros bc Hbc.
    by apply Hne', Hsub. }
  destruct (function_map_connected bcs groups f_map Hne Hloc) as [Hkey Hconn].
  destruct (function_map_connected bcs' groups' f_map' Hne' Hloc') as [Hkey' Hconn'].
  assert (Hnode : ∀ f, field_node bcs f → field_node bcs' f).
  { intros f (bc & Hbc & Hf). exists bc. split; [by apply Hsub|done]. }
  split.
  - intros f Hf. by apply Hkey', Hnode, Hkey.
  - intros f1 f2 g H1 H2.
    assert (Hn1 : field_node bcs f1) by (apply Hkey; by exists g).
    assert (Hn2 : field_node bcs f2) by (apply Hkey; by exists g).
    assert (Hc : field_connected bcs f1 f2).
    { apply (Hconn f1 f2 Hn1 Hn2). by rewrite H1, H2. }
    assert (Hc' : field_connected bcs' f1 f2).
    { apply field_connected_co_occur. apply field_connected_co_occur in Hc.
      eapply rtc_subrel; [|exact Hc].
      intros x y (bc & Hbc & Hx & Hy). exists bc. split; [by apply Hsub|done]. }
    apply (Hconn' f1 f2 (Hnode f1 Hn1) (Hnode f2 Hn2)) in Hc'.
    destruct (proj2 (Hkey' f1) (Hnode f1 Hn1)) as [g' Hg'].
    exists g'. split; [done|]. by rewrite <- Hc'.
Qed.



(** ** The further properties at the sample objects *)

Lemma BoundaryConditions_init_succeeds eqs funcs es bcs :
  _flatten_equations eqs = Ok es →
  _setup_bcs (_flatten_functions funcs) es = Ok bcs →
  Forall (fun bc => bc_funcs bc ≠ []) bcs →
  ∃ groups f_map,
    group_bcs_locals bcs = Ok (groups, f_map)
    ∧ BoundaryConditions_init eqs funcs
      = Ok (mkBoundaryConditions (_flatten_functions funcs) es bcs, [f_map]).
Proof.
  intros Hes Hbcs Hne.
  destruct (group_bcs_locals_Ok bcs Hne) as (comps & f_map & Hloc & _).
  eexists _, f_map. split; [exact Hloc|].
  unfold BoundaryConditions_init. rewrite Hes, bind_ret_Ok, Hbcs, bind_ret_Ok.
  unfold _group_bcs. cbn [bcs_bcs]. by rewrite Hloc.
Qed.

Lemma get_functions_selection_witness :
  _get_functions sample_eq1 (Some [sample_h]) = [].
Proof.
  apply (proj1 (proj2 (proj2 (proj2 (get_functions_selection sample_eq1))))).
  intros f Hf Hh. apply elem_of_cons in Hh as [->|Hh]; [|by apply elem_of_nil in Hh].
  revert Hf. apply (bool_decide_unpack _). vm_compute. exact I.
Defined.

Lemma BoundaryCondition_init_messages_witness :
  BoundaryCondition_init (mkEq (Func sample_f) (Const 1)) None
  = Err (NotImplementedError "Nonzero RHS currently unsupported").
Proof.
  apply (proj1 (BoundaryCondition_init_messages (mkEq (Func sample_f) (Const 1)) None)).
  simpl. discriminate.
Defined.

Lemma BoundaryCondition_derivatives_selected_witness :
  BoundaryCondition_init sample_eq1 None = Ok sample_bc1
  ∧ ∀ e dd, (e, dd) ∈ derivative_nodes (lhs sample_eq1) →
            ∃ f, e = Func f ∧ f ∈ [sample_f; sample_g].
Proof.
  split; [reflexivity|].
  destruct (BoundaryCondition_derivatives_selected sample_eq1 None sample_bc1)
    as (_ & _ & _ & Hnodes & _); [reflexivity|exact Hnodes].
Defined.


Lemma setup_bcs_first_error_witness :
  _setup_bcs None [sample_eq1; sample_eq2] = Ok [sample_bc1; sample_bc2]
  ∧ map bc_eq [sample_bc1; sample_bc2] = [sample_eq1; sample_eq2].
Proof.
  split; [reflexivity|].
  apply (proj2 (setup_bcs_first_error None [sample_eq1; sample_eq2])).
  reflexivity.
Defined.

Lemma group_bcs_outcome_witness :
  group_bcs_locals [sample_bc2_empty] = Ok ([], ∅).
Proof.
  apply (proj1 (proj2 (proj2 (group_bcs_outcome [sample_bc2_empty])))).
  repeat constructor.
Defined.


Lemma BoundaryConditions_init_invariants_witness :
  ∃ self out,
    BoundaryConditions_init [ScalarEq sample_eq1; ScalarEq sample_eq2] None
      = Ok (self, out)
    ∧ map bc_eq (bcs_bcs self) = bcs_eqs self
    ∧ NoDup (bcs_eqs self)
    ∧ length out = 1%nat.
Proof.
  destruct (BoundaryConditions_init_succeeds
              [ScalarEq sample_eq1; ScalarEq sample_eq2] None
              [sample_eq1; sample_eq2] [sample_bc1; sample_bc2])
    as (groups & f_map & _ & Hinit);
    [reflexivity|reflexivity|repeat constructor; discriminate|].
  eexists _, _. split; [exact Hinit|].
  destruct (BoundaryConditions_init_invariants _ _ _ _ Hinit)
    as (_ & _ & Hnd & Hmap & _ & _ & _ & Hout).
  split; [exact Hmap|]. split; [exact Hnd|exact Hout].
Defined.

Lemma BoundaryConditions_empty_whitelist_witness :
  _flatten_functions (Some []) = Some []
  ∧ BoundaryConditions_init [ScalarEq sample_eq2; ScalarEq sample_eq3] (Some [])
    ≠ Err IndexError.
Proof.
  split; [reflexivity|].
  apply (BoundaryConditions_empty_whitelist
           [ScalarEq sample_eq2; ScalarEq sample_eq3] (Some [])).
  reflexivity.
Defined.

Lemma group_bcs_partition_witness :
  Forall (fun bc => bc_funcs bc ≠ []) [sample_bc1; sample_bc2; sample_bc3]
  ∧ ∃ groups f_map,
      group_bcs_locals [sample_bc1; sample_bc2; sample_bc3] = Ok (groups, f_map)
      ∧ sum_list_with (fun g => length (cg_conds g)) groups = 3%nat
      ∧ (length groups ≤ 3)%nat.
Proof.
  assert (Hne : Forall (fun bc => bc_funcs bc ≠ []) [sample_bc1; sample_bc2; sample_bc3])
    by (repeat constructor; discriminate).
  split; [exact Hne|].
  destruct (group_bcs_locals_Ok [sample_bc1; sample_bc2; sample_bc3] Hne)
    as (comps & f_map & Hloc & _).
  eexists _, f_map. split; [exact Hloc|].
  destruct (group_bcs_partition _ _ f_map Hne Hloc) as (_ & _ & Hsum & Hlen).
  split; [exact Hsum|exact Hlen].
Defined.

Lemma function_map_groups_witness :
  Forall (fun bc => bc_funcs bc ≠ []) [sample_bc1; sample_bc2; sample_bc3]
  ∧ ∃ groups f_map,
      group_bcs_locals [sample_bc1; sample_bc2; sample_bc3] = Ok (groups, f_map)
      ∧ ∀ f, is_Some (f_map !! f)
             ↔ field_node [sample_bc1; sample_bc2; sample_bc3] f.
Proof.
  assert (Hne : Forall (fun bc => bc_funcs bc ≠ []) [sample_bc1; sample_bc2; sample_bc3])
    by (repeat constructor; discriminate).
  split; [exact Hne|].
  destruct (group_bcs_locals_Ok [sample_bc1; sample_bc2; sample_bc3] Hne)
    as (comps & f_map & Hloc & _).
  eexists _, f_map. split; [exact Hloc|].
  exact (proj1 (function_map_groups _ _ f_map Hne Hloc)).
Defined.

Lemma BoundaryConditions_init_same_members_witness :
  ∃ self out self' out',
    BoundaryConditions_init
      [ScalarEq sample_eq1; ScalarEq sample_eq1; ScalarEq sample_eq2] None
      = Ok (self, out)
    ∧ BoundaryConditions_init [ScalarEq sample_eq2; ScalarEq sample_eq1] None
      = Ok (self', out')
    ∧ bcs_bcs self ≡ₚ bcs_bcs self'.
Proof.
  destruct (BoundaryConditions_init_succeeds
              [ScalarEq sample_eq1; ScalarEq sample_eq1; ScalarEq sample_eq2] None
              [sample_eq1; sample_eq2] [sample_bc1; sample_bc2])
    as (groups & f_map & _ & Hinit);
    [reflexivity|reflexivity|repeat constructor; discriminate|].
  destruct (BoundaryConditions_init_same_members
              [ScalarEq sample_eq1; ScalarEq sample_eq1; ScalarEq sample_eq2]
              [ScalarEq sample_eq2; ScalarEq sample_eq1] None _ _
              ltac:(intros eq; rewrite !elem_of_cons, !elem_of_nil; tauto) Hinit)
    as (self' & out' & Hinit' & _ & _ & Hperm & _).
  eexists _, _, self', out'. split; [exact Hinit|].
  split; [exact Hinit'|exact Hperm].
Defined.

Lemma stencil_footprint_axes_only_witness :
  stencil_footprint (Func sample_f, ["t"; "x"; "x"]%string)
  = stencil_footprint (Func sample_f, ["x"]%string).
Proof.
  apply (proj1 (stencil_footprint_axes_only sample_f ["t"; "x"; "x"]%string
                  ["x"]%string sample_geometry
                  ltac:(intros d Hd; rewrite !elem_of_cons, !elem_of_nil;
                        split; [intros [Ht|[Hx|[Hx|[]]]]|intros [Hx|[]]];
                        [subst d; apply elem_of_cons in Hd as [Hd|Hd];
                         [discriminate|
                          apply elem_of_cons in Hd as [Hd|Hd];
                          [discriminate|by apply elem_of_nil in Hd]]
                        |by left|by left|by right; left]))).
Defined.

Lemma stencil_footprint_offsets_witness :
  ∃ fp, stencil_footprint (Func sample_f, ["x"]%string) = Ok fp
        ∧ is_array 2 3 fp
        ∧ [0; 0] ∈ points fp.
Proof.
  destruct (stencil_footprint_offsets sample_f ["x"]%string)
    as (fp & Hfp & Harr & _ & _ & Horigin); [discriminate|simpl; lia|].
  exists fp. split; [exact Hfp|]. split; [exact Harr|exact Horigin].
Defined.

Lemma modified_points_contain_boundary_witness :
  ∃ mp, _get_points (Func sample_f, ["y"%string]) sample_geometry = Ok mp
        ∧ [1; 2] ∈ points mp.
Proof.
  destruct (modified_points_contain_boundary sample_f ["y"%string] sample_geometry 4)
    as (mp & Hmp & Hin & _).
  - discriminate.
  - split; [reflexivity|]. repeat constructor.
  - reflexivity.
  - reflexivity.
  - reflexivity.
  - simpl. lia.
  - exists mp. split; [exact Hmp|]. apply Hin.
    + apply (bool_decide_unpack _). vm_compute. exact I.
    + repeat constructor; lia.
    + reflexivity.
Defined.

Lemma modified_points_sorted_witness :
  ∃ mp, _get_points (Func sample_f, ["y"%string]) sample_geometry = Ok mp
        ∧ StronglySorted lex_lt (points mp).
Proof.
  destruct (modified_points_sorted sample_f ["y"%string] sample_geometry 4)
    as (mp & Hmp & Hsorted & _).
  - discriminate.
  - split; [reflexivity|]. repeat constructor.
  - reflexivity.
  - reflexivity.
  - reflexivity.
  - exists mp. split; [exact Hmp|exact Hsorted].
Defined.

Lemma modified_points_boundary_set_witness :
  _get_points (Func sample_f, ["y"%string]) sample_geometry
  = _get_points (Func sample_f, ["y"%string])
      (mkGeometry [[3; 0; 1; 2; 0]; [2; 2; 2; 2; 2]] [4; 4] sample_mask).
Proof.
  apply (modified_points_boundary_set sample_f ["y"%string] sample_geometry
           (mkGeometry [[3; 0; 1; 2; 0]; [2; 2; 2; 2; 2]] [4; 4] sample_mask) 4 5).
  - discriminate.
  - split; [reflexivity|]. repeat constructor.
  - split; [reflexivity|]. repeat constructor.
  - reflexivity.
  - reflexivity.
  - intros p.
    change (points (boundary_points sample_geometry))
      with [[0; 2]; [1; 2]; [2; 2]; [3; 2]].
    change (points (boundary_points
                      (mkGeometry [[3; 0; 1; 2; 0]; [2; 2; 2; 2; 2]] [4; 4] sample_mask)))
      with [[3; 2]; [0; 2]; [1; 2]; [2; 2]; [0; 2]].
    rewrite !elem_of_cons, !elem_of_nil. tauto.
Defined.


Lemma BoundaryCondition_init_whitelist_monotone_witness :
  BoundaryCondition_init sample_eq1 (Some [sample_f; sample_g]) = Ok sample_bc1
  ∧ ∃ bc', BoundaryCondition_init sample_eq1 (Some [sample_f; sample_g; sample_h])
           = Ok bc'
           ∧ bc_dims bc' = Some ["x"%string].
Proof.
  split; [reflexivity|].
  destruct (BoundaryCondition_init_whitelist_monotone sample_eq1
              [sample_f; sample_g] [sample_f; sample_g; sample_h] sample_bc1)
    as (bc' & Hbc' & _ & Hdims & _).
  - intros f Hf. change [sample_f; sample_g; sample_h]
      with ([sample_f; sample_g] ++ [sample_h]).
    apply elem_of_app. left. exact Hf.
  - reflexivity.
  - exists bc'. split; [exact Hbc'|exact Hdims].
Defined.

Lemma group_bcs_more_conditions_witness :
  ∃ groups f_map groups' f_map',
    group_bcs_locals [sample_bc1; sample_bc2] = Ok (groups, f_map)
    ∧ group_bcs_locals [sample_bc1; sample_bc2; sample_bc3] = Ok (groups', f_map')
    ∧ ∀ f, is_Some (f_map !! f) → is_Some (f_map' !! f).
Proof.
  destruct (group_bcs_locals_Ok [sample_bc1; sample_bc2])
    as (comps & f_map & Hloc & _); [repeat constructor; discriminate|].
  destruct (group_bcs_locals_Ok [sample_bc1; sample_bc2; sample_bc3])
    as (comps' & f_map' & Hloc' & _); [repeat constructor; discriminate|].
  eexists _, f_map, _, f_map'. split; [exact Hloc|]. split; [exact Hloc'|].
  refine (proj1 (group_bcs_more_conditions [sample_bc1; sample_bc2]
                   [sample_bc1; sample_bc2; sample_bc3] _ _ f_map f_map'
                   _ _ Hloc Hloc')).
  - repeat constructor; discriminate.
  - intros bc Hbc. change [sample_bc1; sample_bc2; sample_bc3]
      with ([sample_bc1; sample_bc2] ++ [sample_bc3]).
    apply elem_of_app. left. exact Hbc.
Defined.
